(** * Crawl-to-chunk ingestion pipeline: a shallow embedding

  The development follows [app/utils/common.py] (text chunker, text
  normaliser, HTML cleaner, rate-limited fetcher, frontier crawler)
  and [app/api/routes.py] (task orchestrator, progress store and file
  upload).

  Conventions.
  - A Python [str] is a [string]; its characters are the 8-bit
    characters of [Ascii], read as the code points 0..255.
  - Python integers are [Z]; [len] is [String.length] or [length]
    injected into [Z].  Python floats are the binary64 floats of
    [PrimFloat], with their rounding.
  - A [dict] is a [gmap], a [set] a [gset]; reading a missing key of a
    [defaultdict] stores the default value under that key, as in
    Python.
  - A function that can raise returns an [outcome]; [try]/[except] and
    [finally] are combinators on outcomes.
  - Libraries and collaborators outside the repository (the HTML
    parser, [urllib], the network, the clock, the embedding service
    and the vector store) are Section variables or answers chosen by
    the environment: every theorem holds for all of them. *)

From Stdlib Require Import ZArith QArith Lia List Ascii String Bool DecimalString.
From Stdlib Require PrimFloat.
From stdpp Require Import gmap strings list fin_maps.

Set Warnings "-register-all".
Local Open Scope Z_scope.

(** ** Python strings *)

Module PyStr.

(** [len(s)] *)
Definition len (s : string) : Z := Z.of_nat (String.length s).

(** Truth value of a string: non-empty. *)
Definition truthy (s : string) : bool :=
  match s with EmptyString => false | String _ _ => true end.

(** [str.isspace] on one character, which is also the class [\s] of
    [re] on [str] patterns: TAB..CR, FS..US, SPACE, NEL and NBSP. *)
Definition isspace (c : ascii) : bool :=
  let n := N_of_ascii c in
  ((9 <=? n) && (n <=? 13) || (28 <=? n) && (n <=? 32)
   || (n =? 133) || (n =? 160))%N.

(** [.], [!] or [?]: the class [[.!?]] of the sentence splitter. *)
Definition is_terminator (c : ascii) : bool :=
  let n := N_of_ascii c in ((n =? 46) || (n =? 33) || (n =? 63))%N.

Fixpoint all_space (s : string) : bool :=
  match s with
  | EmptyString => true
  | String c s' => isspace c && all_space s'
  end.

Fixpoint lstrip (s : string) : string :=
  match s with
  | EmptyString => EmptyString
  | String c s' => if isspace c then lstrip s' else s
  end.

Fixpoint rstrip (s : string) : string :=
  match s with
  | EmptyString => EmptyString
  | String c s' =>
      match rstrip s' with
      | EmptyString => if isspace c then EmptyString else String c EmptyString
      | r => String c r
      end
  end.

(** [s.strip()] *)
Definition strip (s : string) : string := rstrip (lstrip s).

(** [sep.join(l)] *)
Definition join (sep : string) (l : list string) : string :=
  String.concat sep l.

(** Sum of [len] over a list of strings. *)
Definition sum_len (l : list string) : Z :=
  fold_right (fun s acc => len s + acc) 0 l.

(** *** [re.split(r'(?<=[.!?])\s+', text)]

    A match is a maximal run of whitespace that directly follows a
    terminator; the pieces between the matches are returned, the empty
    ones included.  [cur] is the current piece, reversed. *)
Inductive split_mode := Piece (after_terminator : bool) | Separator.

Fixpoint split_go (m : split_mode) (cur : string) (s : string) : list string :=
  match s with
  | EmptyString => [String.rev cur]
  | String c s' =>
      match m with
      | Separator =>
          if isspace c then split_go Separator EmptyString s'
          else split_go (Piece (is_terminator c)) (String c EmptyString) s'
      | Piece p =>
          if p && isspace c then String.rev cur :: split_go Separator EmptyString s'
          else split_go (Piece (is_terminator c)) (String c cur) s'
      end
  end.

Definition split_sentences (text : string) : list string :=
  split_go (Piece false) EmptyString text.

(** A string without whitespace at its ends: [strip] leaves it as it
    is. *)
Definition clean (s : string) : Prop := lstrip s = s /\ rstrip s = s.

(** The characters of [s] that are not whitespace, in their order. *)
Fixpoint remove_space (s : string) : string :=
  match s with
  | EmptyString => EmptyString
  | String c s' => if isspace c then remove_space s' else String c (remove_space s')
  end.

End PyStr.

Import PyStr.

(** ** Exceptions, ranges and slices *)

Module Py.

(** Instances of Python's [Exception] class, which is what
    [except Exception] catches: a plain exception with its message
    [str(e)], or FastAPI's [HTTPException]. *)
Inductive exn :=
| Exception (msg : string)
| HTTPException (status_code : Z) (detail : string).

(** [str(n)] of an integer: its decimal digits, after [-] when it is
    negative. *)
Definition str_int (n : Z) : string := NilZero.string_of_int (Z.to_int n).

(** [str(e)]: the message of a plain exception; for an [HTTPException]
    the status code, a colon and the detail, as its [__str__] formats
    them. *)
Definition str_exn (e : exn) : string :=
  match e with
  | Exception msg => msg
  | HTTPException status_code detail => str_int status_code +:+ ": " +:+ detail
  end.

Inductive outcome (A : Type) :=
| Ok (a : A)
| Raise (e : exn).
Arguments Ok {A} a.
Arguments Raise {A} e.

Definition bind_outcome {A B} (m : outcome A) (f : A -> outcome B) : outcome B :=
  match m with Ok a => f a | Raise e => Raise e end.

(** [try: body  except Exception as e: handler(e)] *)
Definition try_except {A} (body : outcome A) (handler : exn -> outcome A) : outcome A :=
  match body with Ok a => Ok a | Raise e => handler e end.

(** [range(0, stop, step)] for a positive [step]. *)
Definition range_step (stop step : nat) : list nat :=
  map (fun j => j * step)%nat (seq 0 ((stop + step - 1) / step)).

(** [l[i:j]] for [0 <= i <= j]. *)
Definition slice {A} (l : list A) (i j : nat) : list A :=
  firstn (j - i) (skipn i l).

(** Every element of [l] and its successor are related by [R]. *)
Definition consecutive {A} (R : A -> A -> Prop) (l : list A) : Prop :=
  forall i a b, l !! i = Some a -> l !! (S i) = Some b -> R a b.

End Py.

Import Py.

(** ** Text Chunker: [create_chunks] *)

Module Chunker.

(** The loop variables of [create_chunks]. *)
Record state := mkState {
  chunks : list string;
  current_chunk : list string;
  current_size : Z
}.

Definition init : state := mkState [] [] 0.

(** [chunk_text = ' '.join(cur); if chunk_text.strip(): chunks.append(chunk_text)] *)
Definition emit (chunks : list string) (cur : list string) : list string :=
  let chunk_text := join " " cur in
  if truthy (strip chunk_text) then chunks ++ [chunk_text] else chunks.

(** [for s in reversed(current_chunk)]: sentences are taken from the end
    while the running total stays within [overlap]; the first one that
    does not fit ends the loop. *)
Fixpoint overlap_loop (overlap : Z) (reversed_chunk : list string)
    (overlap_sentences : list string) (overlap_size : Z) : list string * Z :=
  match reversed_chunk with
  | [] => (overlap_sentences, overlap_size)
  | s :: rest =>
      if overlap_size + len s <=? overlap
      then overlap_loop overlap rest (s :: overlap_sentences) (overlap_size + len s)
      else (overlap_sentences, overlap_size)
  end.

(** One iteration of [for sentence in sentences]. *)
Definition step (chunk_size overlap : Z) (st : state) (sentence : string) : state :=
  let sentence := strip sentence in
  if negb (truthy sentence) then st
  else
    let sentence_size := len sentence in
    let st1 :=
      if (current_size st + sentence_size >? chunk_size)
         && negb (bool_decide (current_chunk st = []))
      then
        let '(overlap_sentences, overlap_size) :=
          overlap_loop overlap (rev (current_chunk st)) [] 0 in
        mkState (emit (chunks st) (current_chunk st)) overlap_sentences overlap_size
      else st in
    mkState (chunks st1) (current_chunk st1 ++ [sentence])
            (current_size st1 + sentence_size).

Definition create_chunks (text : string) (chunk_size overlap : Z) : list string :=
  if negb (truthy text) then []
  else
    let sentences := split_sentences text in
    let st := fold_left (step chunk_size overlap) sentences init in
    if bool_decide (current_chunk st = []) then chunks st
    else emit (chunks st) (current_chunk st).


(** *** The chunks as groups of sentences

    [create_chunks] keeps its chunks as joined text.  The statements
    about sizes and overlaps speak about the sentences a chunk was
    joined from, so the same loop is written once more, keeping the
    groups of sentences; [Chunker_facts] proves that joining the groups
    gives the chunks of [create_chunks]. *)

(** The sentences the loop works on: the stripped pieces that are not
    empty. *)
Definition sentences_of (text : string) : list string :=
  filter (fun s => truthy s) (map strip (split_sentences text)).

(** The sentences a new chunk is seeded with when [g] is closed. *)
Definition overlap_seed (overlap : Z) (g : list string) : list string :=
  (overlap_loop overlap (rev g) [] 0).1.

Record groups := mkGroups {
  closed : list (list string);
  open : list string
}.

Definition group_step (chunk_size overlap : Z) (st : groups) (sentence : string) : groups :=
  if (sum_len (open st) + len sentence >? chunk_size)
     && negb (bool_decide (open st = []))
  then mkGroups (closed st ++ [open st]) (overlap_seed overlap (open st) ++ [sentence])
  else mkGroups (closed st) (open st ++ [sentence]).

Definition all_groups (st : groups) : list (list string) :=
  closed st ++ (if bool_decide (open st = []) then [] else [open st]).

Definition chunk_groups (chunk_size overlap : Z) (sentences : list string)
    : list (list string) :=
  all_groups (fold_left (group_step chunk_size overlap) sentences (mkGroups [] [])).

(** The loop state [st] of [create_chunks] holds the joined text of the
    groups of [gs]. *)
Definition refines (st : state) (gs : groups) : Prop :=
  chunks st = map (join " ") (closed gs)
  /\ current_chunk st = open gs
  /\ current_size st = sum_len (open gs)
  /\ Forall (fun s => all_space s = false) (open gs).

(** What [overlap_loop] takes from the reversed chunk: the longest
    prefix whose lengths fit in the budget. *)
Fixpoint take_within (budget : Z) (reversed_chunk : list string) : list string :=
  match reversed_chunk with
  | [] => []
  | s :: rest =>
      if len s <=? budget then s :: take_within (budget - len s) rest else []
  end.

(** The size a group of sentences is held to by the loop: its sentences
    total at most [chunk_size] characters, the joining spaces not
    counted, unless it is an overlap seed followed by one sentence. *)
Definition size_ok (chunk_size overlap : Z) (g : list string) : Prop :=
  sum_len g <= chunk_size
  \/ exists seed s, g = seed ++ [s] /\ sum_len seed <= Z.max 0 overlap.

(** [g'] starts with the overlap seed of [g] and goes on. *)
Definition linked (overlap : Z) (g g' : list string) : Prop :=
  exists rest, rest <> [] /\ g' = overlap_seed overlap g ++ rest.

(** The invariant of the loop over the groups built from the
    sentences seen so far. *)
Definition groups_ok (chunk_size overlap : Z) (seen : list string) (st : groups) : Prop :=
  Forall (fun g => g <> [] /\ size_ok chunk_size overlap g
                   /\ Forall (fun s => s ∈ seen) g) (all_groups st)
  /\ consecutive (linked overlap) (all_groups st)
  /\ (open st = [] -> closed st = []).

(** The groups that come from a division of the sentences into parts:
    every part is preceded by the overlap seed of the group before
    it. *)
Fixpoint with_overlap (overlap : Z) (previous : list string)
    (parts : list (list string)) : list (list string) :=
  match parts with
  | [] => []
  | part :: parts =>
      let g := overlap_seed overlap previous ++ part in
      g :: with_overlap overlap g parts
  end.

(** The loop divides the sentences it has seen into parts, one part
    for each group. *)
Definition parts_inv (overlap : Z) (seen : list string) (st : groups) : Prop :=
  exists parts,
    concat parts = seen
    /\ Forall (fun p => p <> []) parts
    /\ all_groups st = with_overlap overlap [] parts
    /\ (open st = [] -> closed st = []).

End Chunker.



(** ** Text normaliser: [preprocess_text] *)

Module Preprocess.

(** The class [\w] of [re] on [str] patterns, on the code points
    0..255: the letters, the digits and the underscore. *)
Definition isword (c : ascii) : bool :=
  let n := N_of_ascii c in
  ((48 <=? n) && (n <=? 57) || (65 <=? n) && (n <=? 90) || (n =? 95)
   || (97 <=? n) && (n <=? 122) || (n =? 170) || (178 <=? n) && (n <=? 179)
   || (n =? 181) || (185 <=? n) && (n <=? 186) || (188 <=? n) && (n <=? 190)
   || (192 <=? n) && (n <=? 214) || (216 <=? n) && (n <=? 246)
   || (248 <=? n) && (n <=? 255))%N.

(** [.], [,], [!] or [?]: the class [[.,!?]]. *)
Definition is_punctuation (c : ascii) : bool :=
  let n := N_of_ascii c in ((n =? 46) || (n =? 44) || (n =? 33) || (n =? 63))%N.

(** The characters outside the class [[^\w\s.,!?-]]. *)
Definition kept (c : ascii) : bool :=
  isword c || isspace c || is_punctuation c || (N_of_ascii c =? 45)%N.

(** [re.sub(r'\s+', ' ', text)]: every run of whitespace becomes one
    space.  [in_run] tells that the character before was whitespace. *)
Fixpoint collapse (in_run : bool) (s : string) : string :=
  match s with
  | EmptyString => EmptyString
  | String c s' =>
      if isspace c
      then if in_run then collapse true s' else String " " (collapse true s')
      else String c (collapse false s')
  end.

(** [re.sub(r'[^\w\s.,!?-]', '', text)] *)
Fixpoint keep_allowed (s : string) : string :=
  match s with
  | EmptyString => EmptyString
  | String c s' => if kept c then String c (keep_allowed s') else keep_allowed s'
  end.

(** [re.sub(r'\s+([.,!?])', r'\1', text)]: a run of whitespace that a
    punctuation mark follows is taken out.  [pending] is the run of
    whitespace read and not yet written, the latest character first. *)
Fixpoint tighten (pending : string) (s : string) : string :=
  match s with
  | EmptyString => String.rev pending
  | String c s' =>
      if isspace c then tighten (String c pending) s'
      else if is_punctuation c then String c (tighten EmptyString s')
      else String.rev pending +:+ String c (tighten EmptyString s')
  end.

Definition preprocess_text (text : string) : string :=
  let text := collapse false text in
  let text := keep_allowed text in
  let text := tighten EmptyString text in
  strip text.

(** Every character of [s] satisfies [P]. *)
Fixpoint all_chars (P : ascii -> bool) (s : string) : bool :=
  match s with
  | EmptyString => true
  | String c s' => P c && all_chars P s'
  end.

(** The characters the result is made of: word characters, the space,
    the four punctuation marks and the hyphen. *)
Definition allowed (c : ascii) : bool :=
  isword c || (N_of_ascii c =? 32)%N || is_punctuation c || (N_of_ascii c =? 45)%N.

(** No whitespace stands directly before a punctuation mark. *)
Fixpoint tight (s : string) : bool :=
  match s with
  | EmptyString => true
  | String c s' =>
      negb (isspace c && match s' with
                         | EmptyString => false
                         | String p _ => is_punctuation p
                         end)
      && tight s'
  end.

(** No character of [s] is whitespace directly after whitespace. *)
Fixpoint single_spaced (s : string) : bool :=
  match s with
  | EmptyString => true
  | String c s' =>
      negb (isspace c && match s' with
                         | EmptyString => false
                         | String p _ => isspace p
                         end)
      && single_spaced s'
  end.

End Preprocess.

(** ** Rate-Limited Fetcher: [rate_limit], [scrape_url_async] *)

Module Fetcher.

Import PrimFloat.

(** [RATE_LIMIT = 2]  (requests per second) *)
Definition RATE_LIMIT : float := 2%float.

(** The module state: the global [last_request_time], the number of
    [time.time()] readings taken so far, and the delays passed to
    [asyncio.sleep], latest first.  Times are seconds, in the double
    precision floats of Python, with their arithmetic. *)
Record limiter := mkLimiter {
  last_request_time : float;
  time_reads : nat;
  sleeps : list float
}.

(** What the network does with one [session.get(url, timeout=...)]:
    the request raises (time-out, connection error), or a response
    arrives with its status and the outcome of [response.text()]. *)
Inductive get_result :=
| GetRaises (e : exn)
| GetResponse (status : Z) (text : outcome string).

Section WithClock.

(** [time_time n] is the [n]-th reading of [time.time()]. *)
Variable time_time : nat -> float.

Definition read_time (l : limiter) : float * limiter :=
  (time_time (time_reads l),
   mkLimiter (last_request_time l) (S (time_reads l)) (sleeps l)).

Definition sleep (d : float) (l : limiter) : limiter :=
  mkLimiter (last_request_time l) (time_reads l) (d :: sleeps l).

Definition rate_limit (l : limiter) : limiter :=
  let '(current_time, l) := read_time l in
  let time_since_last := (current_time - last_request_time l)%float in
  let l :=
    if (time_since_last <? 1 / RATE_LIMIT)%float
    then sleep (1 / RATE_LIMIT - time_since_last)%float l
    else l in
  let '(t, l) := read_time l in
  mkLimiter t (time_reads l) (sleeps l).

(** [rate_limit] is awaited first in the [try] block; it raises
    nothing. *)
Definition scrape_url_async (net : get_result) (l : limiter) : outcome string * limiter :=
  let l := rate_limit l in
  (try_except
     match net with
     | GetRaises e => Raise e
     | GetResponse status text =>
         if (status =? 200)%Z then text else Ok EmptyString
     end
     (fun e => Ok EmptyString),
   l).

End WithClock.

End Fetcher.

(** ** HTML Cleaner: [clean_text] *)

Module Cleaner.

(** A parsed document as BeautifulSoup presents it: text nodes, tags with
    their children, and the nodes whose strings [get_text] leaves out
    (comments, declarations). *)
Inductive node :=
| Text (s : string)
| Other (s : string)
| Tag (name : string) (children : list node).

(** [tag.decompose()] for every tag found by [soup(names)]: the tags with
    one of these names disappear, with all they contain. *)
Fixpoint decompose_all (names : list string) (n : node) : list node :=
  match n with
  | Tag name children =>
      if bool_decide (name ∈ names) then []
      else [Tag name (flat_map (decompose_all names) children)]
  | _ => [n]
  end.

(** [soup.find_all(names)]: the tags with one of the names, in document
    order, nested ones included. *)
Fixpoint find_all (names : list string) (n : node) : list node :=
  match n with
  | Tag name children =>
      (if bool_decide (name ∈ names) then [n] else [])
      ++ flat_map (find_all names) children
  | _ => []
  end.

(** The strings below a node, in document order. *)
Fixpoint strings (n : node) : list string :=
  match n with
  | Text s => [s]
  | Other _ => []
  | Tag _ children => flat_map strings children
  end.

(** [element.get_text(strip=True)]: every string is stripped, the empty
    ones are dropped, the rest concatenated. *)
Definition get_text_strip (n : node) : string :=
  join "" (filter (fun s => truthy s) (map strip (strings n))).

Definition meaningful_tags : list string :=
  ["p"; "h1"; "h2"; "h3"; "h4"; "h5"; "h6"; "li"; "div"; "span"]%string.

(** The body of the [try] block, after parsing. *)
Definition clean_soup (soup : list node) : string :=
  let soup := flat_map (decompose_all ["script"; "style"]%string) soup in
  let texts := flat_map (find_all meaningful_tags) soup in
  let clean_texts :=
    filter (fun text => truthy text && (len text >? 10)) (map get_text_strip texts) in
  join (String "010"%char EmptyString) clean_texts.

Section WithParser.

(** [BeautifulSoup(html, "html.parser")]: the top-level nodes of the
    document, or the exception the parser raised. *)
Variable html_parser : string -> outcome (list node).

(** [try: ... return "\n".join(clean_texts)  except Exception: return ""] *)
Definition clean_text (html : string) : string :=
  match html_parser html with
  | Ok soup => clean_soup soup
  | Raise _ => EmptyString
  end.

End WithParser.

(** Induction on a document, its children included. *)
Fixpoint node_children_ind (P : node -> Prop)
    (HText : forall s, P (Text s)) (HOther : forall s, P (Other s))
    (HTag : forall name children, Forall P children -> P (Tag name children))
    (n : node) : P n :=
  match n with
  | Text s => HText s
  | Other s => HOther s
  | Tag name children =>
      HTag name children
        ((fix go (l : list node) : Forall P l :=
            match l with
            | [] => @List.Forall_nil node P
            | x :: l' =>
                @List.Forall_cons node P x l'
                  (node_children_ind P HText HOther HTag x) (go l')
            end) children)
  end.

End Cleaner.

(** ** Frontier Crawler: [should_skip_url], [crawl_website_async] *)

Module Crawler.

(** [str.lower] on the code points 0..255. *)
Definition lower_char (c : ascii) : ascii :=
  let n := N_of_ascii c in
  if ((65 <=? n) && (n <=? 90)
      || (192 <=? n) && (n <=? 222) && negb (n =? 215))%N
  then ascii_of_N (n + 32) else c.

Fixpoint lower (s : string) : string :=
  match s with
  | EmptyString => EmptyString
  | String c s' => String (lower_char c) (lower s')
  end.

(** [s.endswith(suffix)] *)
Definition endswith (s suffix : string) : bool :=
  String.prefix (String.rev suffix) (String.rev s).

(** [pattern in s] *)
Fixpoint contains (pattern s : string) : bool :=
  String.prefix pattern s
  || match s with
     | EmptyString => false
     | String _ s' => contains pattern s'
     end.

Definition skip_extensions : list string :=
  [".pdf"; ".jpg"; ".jpeg"; ".png"; ".gif"; ".zip"; ".rar"; ".exe";
   ".dmg"; ".mp4"; ".mp3"; ".avi"]%string.

Definition skip_patterns : list string :=
  ["#"; "mailto:"; "tel:"; "javascript:"; "ftp://"]%string.

Definition should_skip_url (url : string) : bool :=
  let url_lower := lower url in
  existsb (fun ext => endswith url_lower ext) skip_extensions
  || existsb (fun pattern => contains pattern url_lower) skip_patterns.

(** What the crawl does on the network and to its visited set, in
    order: the ghost trace the safety properties speak about. *)
Inductive event :=
| Fetch (url : string)
| Visit (url : string).

(** No URL is fetched after it was marked visited. *)
Definition fetches_unvisited (tr : list event) : Prop :=
  forall i j url,
    (i < j)%nat -> tr !! i = Some (Visit url) -> tr !! j = Some (Fetch url) -> False.

(** The loop variables of [crawl_website_async], with the number of
    fetches issued so far and the trace. *)
Record state := mkState {
  visited : gset string;
  data : gmap string string;
  urls_to_visit : list string;
  fetches : nat;
  trace : list event
}.

(** The URLs of the [Fetch] events of a trace, in their order: the
    [n]-th of them is the URL of the [n]-th fetch. *)
Definition fetched (tr : list event) : list string :=
  omap (fun e => match e with Fetch url => Some url | Visit _ => None end) tr.

Section WithWeb.

(** [scrape n url]: what [asyncio.gather(..., return_exceptions=True)]
    holds for the [n]-th fetch of the crawl, a call of
    [scrape_url_async(session, url)]. *)
Variable scrape : nat -> string -> outcome string.
(** [hrefs html]: [link["href"]] for each [link] of
    [BeautifulSoup(html, "html.parser").find_all("a", href=True)]. *)
Variable hrefs : string -> list string.
(** [urllib.parse.urljoin] and [urlparse(url).netloc]. *)
Variable urljoin : string -> string -> string.
Variable netloc : string -> string.

Variable start_url : string.
(** [None] when no cap is set. *)
Variable max_pages : option Z.

Definition initial : state := mkState ∅ ∅ [start_url] 0 [].

(** [for link in soup.find_all("a", href=True)]: one link of the page
    at [url]. *)
Definition enqueue (url : string) (visited : gset string)
    (urls_to_visit : list string) (href : string) : list string :=
  let full_url := urljoin url href in
  if bool_decide (netloc full_url = netloc start_url)
     && bool_decide (full_url ∉ visited)
     && bool_decide (full_url ∉ urls_to_visit)
  then
    if negb (should_skip_url full_url)
    then urls_to_visit ++ [full_url]
    else urls_to_visit
  else urls_to_visit.

(** [for url, html in zip(current_batch, results)]: one pair. *)
Definition process_result (st : state) (pair : string * outcome string) : state :=
  let '(url, html) := pair in
  match html with
  | Raise _ => st
  | Ok html =>
      if negb (truthy html) then st
      else
        let visited := {[url]} ∪ visited st in
        let data := <[url := html]> (data st) in
        let urls_to_visit :=
          fold_left (enqueue url visited) (hrefs html) (urls_to_visit st) in
        mkState visited data urls_to_visit (fetches st) (trace st ++ [Visit url])
  end.

(** [tasks]: one fetch for each URL of the batch that is not visited
    yet; [results] holds their outcomes in the same order. *)
Fixpoint gather (n : nat) (tasks : list string) : list (outcome string) :=
  match tasks with
  | [] => []
  | url :: rest => scrape n url :: gather (S n) rest
  end.

(** The body of the [while] loop, after the page cap test. *)
Definition crawl_batch (st : state) : state :=
  let batch_size := Nat.min 5 (length (urls_to_visit st)) in
  let current_batch := firstn batch_size (urls_to_visit st) in
  let urls_to_visit := skipn batch_size (urls_to_visit st) in
  let tasks := filter (fun url => bool_decide (url ∉ visited st)) current_batch in
  let results := gather (fetches st) tasks in
  let st := mkState (visited st) (data st) urls_to_visit
                    (fetches st + length tasks)%nat
                    (trace st ++ map Fetch tasks) in
  fold_left process_result (zip current_batch results) st.

(** [max_pages is not None and len(visited) >= max_pages] *)
Definition cap_reached (st : state) : bool :=
  match max_pages with
  | Some n => Z.of_nat (size (visited st)) >=? n
  | None => false
  end.

(** The [while urls_to_visit:] loop.  A crawl need not end (a site can
    keep producing new links), so the loop is run for at most [fuel]
    rounds: [None] when the rounds did not suffice, the final state
    otherwise. *)
Fixpoint crawl_loop (fuel : nat) (st : state) : option state :=
  match urls_to_visit st with
  | [] => Some st
  | _ :: _ =>
      if cap_reached st then Some st
      else
        match fuel with
        | O => None
        | S fuel => crawl_loop fuel (crawl_batch st)
        end
  end.

Definition crawl_website_async (fuel : nat) : option (gmap string string) :=
  data <$> crawl_loop fuel initial.

(** The states the loop goes through, whether it ends or not. *)
Inductive crawling : state -> Prop :=
| crawling_initial : crawling initial
| crawling_round st :
    crawling st -> urls_to_visit st <> [] -> cap_reached st = false ->
    crawling (crawl_batch st).

(** What holds of every state of the loop: the queue and the pages are
    on the start URL's site, the pages are the visited URLs, and the
    trace tells of the visited set. *)
Definition crawl_inv (st : state) : Prop :=
  Forall (fun url => netloc url = netloc start_url) (urls_to_visit st)
  /\ dom (data st) = visited st
  /\ (forall url, url ∈ visited st -> netloc url = netloc start_url)
  /\ (forall url, Fetch url ∈ trace st -> netloc url = netloc start_url)
  /\ (forall url, Visit url ∈ trace st <-> url ∈ visited st)
  /\ fetches_unvisited (trace st).

(** The start URL, or a URL that the skip filter lets through. *)
Definition passes (url : string) : Prop :=
  url = start_url \/ should_skip_url url = false.

(** The queue holds no URL twice, and what is queued or fetched has
    passed the filter. *)
Definition queue_inv (st : state) : Prop :=
  NoDup (urls_to_visit st)
  /\ Forall passes (urls_to_visit st)
  /\ (forall url, Fetch url ∈ trace st -> passes url).

(** A result that holds a page holds the body of one of the fetches
    of [urls]. *)
Definition from_fetch (urls : list string) (r : outcome string) : Prop :=
  forall html, r = Ok html ->
    exists n url, urls !! n = Some url /\ scrape n url = Ok html.

(** The stored pages are not empty, and each is the body of one of the
    fetches of [urls]. *)
Definition data_inv (urls : list string) (st : state) : Prop :=
  fetched (trace st) = urls
  /\ length urls = fetches st
  /\ (forall url html, data st !! url = Some html ->
        truthy html = true /\ from_fetch urls (Ok html)).

End WithWeb.

(** A small site for the examples: the home page links to three pages
    of the same site, to a mail address and to another site; the other
    pages link nowhere; every fetch succeeds. *)
Module Site.

Definition start_url : string := "http://site.test/".

Definition scrape (n : nat) (url : string) : outcome string :=
  Ok (if bool_decide (url = start_url) then "home" else "page")%string.

Definition hrefs (html : string) : list string :=
  if bool_decide (html = "home"%string)
  then ["/a"; "mailto:admin@site.test"; "/b"; "http://other.test/"; "/c"]%string
  else [].

Definition urljoin (base href : string) : string :=
  if String.prefix "/" href then "http://site.test" +:+ href else href.

Definition netloc (url : string) : string :=
  if String.prefix "http://site.test/" url then "site.test"
  else if String.prefix "http://other.test/" url then "other.test"
  else "".

Definition crawl (max_pages : option Z) (fuel : nat) : option state :=
  crawl_loop scrape hrefs urljoin netloc start_url max_pages fuel
    (initial start_url).

End Site.

(** Two more sites for the examples.  On [Hub] the home page links to
    five pages.  On [Linked] the home page links to [/a] and [/b], and
    [/a] links to [/b] and [/g].  The content of a page is its URL, so
    that it tells where it came from. *)
Module Hub.

Definition start_url : string := "http://site.test/".

Definition scrape (n : nat) (url : string) : outcome string := Ok url.

Definition hrefs (html : string) : list string :=
  if bool_decide (html = start_url) then ["/1"; "/2"; "/3"; "/4"; "/5"]%string else [].

Definition crawl (max_pages : option Z) (fuel : nat) : option state :=
  crawl_loop scrape hrefs Site.urljoin Site.netloc start_url max_pages fuel
    (initial start_url).

End Hub.

Module Linked.

Definition start_url : string := "http://site.test/".

Definition scrape (n : nat) (url : string) : outcome string := Ok url.

Definition hrefs (html : string) : list string :=
  if bool_decide (html = start_url) then ["/a"; "/b"]%string
  else if bool_decide (html = "http://site.test/a"%string) then ["/b"; "/g"]%string
  else [].

Definition crawl (max_pages : option Z) (fuel : nat) : option state :=
  crawl_loop scrape hrefs Site.urljoin Site.netloc start_url max_pages fuel
    (initial start_url).

End Linked.

End Crawler.

(** ** Task Orchestrator and Progress Store *)

Module Tasks.

(** The values of a task's ["status"]. *)
Inductive task_status :=
| Crawling
| Processing
| GeneratingEmbeddings
| Storing
| Completed
| Error.

#[global] Instance task_status_eq_dec : EqDecision task_status.
Proof. solve_decision. Defined.

Definition status_name (s : task_status) : string :=
  match s with
  | Crawling => "crawling"
  | Processing => "processing"
  | GeneratingEmbeddings => "generating_embeddings"
  | Storing => "storing"
  | Completed => "completed"
  | Error => "error"
  end.

(** [status in ["completed", "error"]] *)
Definition is_terminal (s : task_status) : bool :=
  match s with Completed | Error => true | _ => false end.

(** The ["result"] attached on completion. *)
Record summary := mkSummary {
  collection_name : string;
  result_pages_scraped : Z;
  result_chunks_created : Z
}.

(** One entry of [scraping_progress[user_id]].  Times are
    [datetime] values, in microseconds. *)
Record snapshot := mkSnapshot {
  status : task_status;
  start_time : Z;
  last_update : Z;
  pages_scraped : Z;
  chunks_created : Z;
  error : option string;
  is_completed : bool;
  url : string;
  result : option summary
}.

(** The keyword arguments [update_progress] is called with. *)
Record kwargs := mkKwargs {
  kw_pages_scraped : option Z;
  kw_chunks_created : option Z;
  kw_error : option string;
  kw_result : option summary
}.

Definition no_kwargs : kwargs := mkKwargs None None None None.

(** The module globals, and the number of [datetime.now()] readings
    taken so far. *)
Record world := mkWorld {
  scraping_progress : gmap string (gmap string snapshot);
  active_tasks : gmap string (gset string);
  clock_reads : nat
}.

Definition MAX_CONCURRENT_TASKS : Z := 3.

Definition empty_world : world := mkWorld ∅ ∅ 0.

(** [scraping_progress[user_id]] on the [defaultdict]: a missing user
    gets an empty table. *)
Definition progress_of (user_id : string) (w : world) : gmap string snapshot * world :=
  match scraping_progress w !! user_id with
  | Some tasks => (tasks, w)
  | None =>
      (∅, mkWorld (<[user_id := ∅]> (scraping_progress w)) (active_tasks w) (clock_reads w))
  end.

(** [active_tasks[user_id]], likewise. *)
Definition active_of (user_id : string) (w : world) : gset string * world :=
  match active_tasks w !! user_id with
  | Some tasks => (tasks, w)
  | None =>
      (∅, mkWorld (scraping_progress w) (<[user_id := ∅]> (active_tasks w)) (clock_reads w))
  end.

(** [scraping_progress[user_id][task_id] = snap], once the user's table
    exists. *)
Definition store_snapshot (user_id task_id : string) (snap : snapshot) (w : world) : world :=
  let '(tasks, w) := progress_of user_id w in
  mkWorld (<[user_id := <[task_id := snap]> tasks]> (scraping_progress w))
          (active_tasks w) (clock_reads w).

Definition store_active (user_id : string) (tasks : gset string) (w : world) : world :=
  mkWorld (scraping_progress w) (<[user_id := tasks]> (active_tasks w)) (clock_reads w).

(** Reading without the [defaultdict] effect, for statements. *)
Definition lookup_task (user_id task_id : string) (w : world) : option snapshot :=
  scraping_progress w !! user_id ≫= (.!! task_id).

Definition active_set (user_id : string) (w : world) : gset string :=
  default ∅ (active_tasks w !! user_id).

(** [dict.update] with the fields [update_progress] passes. *)
Definition apply_update (s : task_status) (now : Z) (kw : kwargs) (snap : snapshot) : snapshot :=
  mkSnapshot s (start_time snap) now
    (default (pages_scraped snap) (kw_pages_scraped kw))
    (default (chunks_created snap) (kw_chunks_created kw))
    (match kw_error kw with Some e => Some e | None => error snap end)
    (is_completed snap) (url snap)
    (match kw_result kw with Some r => Some r | None => result snap end).

Definition set_completed (snap : snapshot) : snapshot :=
  mkSnapshot (status snap) (start_time snap) (last_update snap) (pages_scraped snap)
    (chunks_created snap) (error snap) true (url snap) (result snap).

Definition set_last_update (now : Z) (snap : snapshot) : snapshot :=
  mkSnapshot (status snap) (start_time snap) now (pages_scraped snap)
    (chunks_created snap) (error snap) (is_completed snap) (url snap) (result snap).

(** Truth value of the ["error"] field: set, and not the empty string. *)
Definition error_set (snap : snapshot) : bool :=
  match error snap with Some e => truthy e | None => false end.

(** *** Coroutines

    [process_scraping] is an [async] function: it runs until its next
    [await], where other requests and other tasks take their turn.  A
    coroutine is the tree of what it does: the operations on the module
    globals, the awaited calls to collaborators with a continuation
    for every answer (a value or an exception), and its outcome. *)

Definition embedding : Type := list Q.

Inductive sync_op :=
| UpdateProgress (user_id task_id : string) (s : task_status) (kw : kwargs)
| DiscardActive (user_id task_id : string).

Inductive call :=
| CrawlWebsite (url : string)
| GetEmbeddings (chunk : list string)
| IngestToQdrant (collection_name : string) (chunk : list string)
    (embeddings : list embedding).

(** [crawl_website] answers with the pages in the order of the
    dictionary, [get_embeddings] with the vectors. *)
Definition answer (c : call) : Type :=
  match c with
  | CrawlWebsite _ => list (string * string)
  | GetEmbeddings _ => list embedding
  | IngestToQdrant _ _ _ => unit
  end.

Inductive coro (A : Type) : Type :=
| Return (o : outcome A)
| Do (op : sync_op) (k : coro A)
| Await (c : call) (k : outcome (answer c) -> coro A).
Arguments Return {A} o.
Arguments Do {A} op k.
Arguments Await {A} c k.

Definition ret {A} (a : A) : coro A := Return (Ok a).

Fixpoint bind {A B} (m : coro A) (f : A -> coro B) : coro B :=
  match m with
  | Return (Ok a) => f a
  | Return (Raise e) => Return (Raise e)
  | Do op k => Do op (bind k f)
  | Await c k => Await c (fun r => bind (k r) f)
  end.

(** [try: body  except Exception as e: handler(e)] *)
Fixpoint try_except_coro {A} (body : coro A) (handler : exn -> coro A) : coro A :=
  match body with
  | Return (Ok a) => Return (Ok a)
  | Return (Raise e) => handler e
  | Do op k => Do op (try_except_coro k handler)
  | Await c k => Await c (fun r => try_except_coro (k r) handler)
  end.

(** [try: body  finally: final] *)
Fixpoint try_finally {A} (body : coro A) (final : coro unit) : coro A :=
  match body with
  | Return o => bind final (fun _ => Return o)
  | Do op k => Do op (try_finally k final)
  | Await c k => Await c (fun r => try_finally (k r) final)
  end.

(** Collaborators that find nothing and fail at nothing. *)
Definition nothing_found (c : call) : outcome (answer c) :=
  match c with
  | CrawlWebsite _ => Ok []
  | GetEmbeddings _ => Ok []
  | IngestToQdrant _ _ _ => Ok tt
  end.

Definition do (op : sync_op) : coro unit := Do op (ret tt).
Definition await (c : call) : coro (answer c) := Await c Return.

Notation "x <- m ;; k" := (bind m (fun x => k))
  (at level 100, m at level 99, right associativity, only parsing).
Notation "m ;; k" := (bind m (fun _ => k))
  (at level 100, right associativity, only parsing).

(** *** The store and the endpoints *)

Section WithEnvironment.


(** [clock n] is the [n]-th reading of [datetime.now()]. *)
Variable clock : nat -> Z.
(** [hashlib.md5(f"{url}_{timestamp}_{user_id}".encode()).hexdigest()] *)
Variable task_id_of : string -> Z -> string -> string.

Definition now (w : world) : Z * world :=
  (clock (clock_reads w),
   mkWorld (scraping_progress w) (active_tasks w) (S (clock_reads w))).

Definition update_progress (user_id task_id : string) (s : task_status) (kw : kwargs)
    (w : world) : world :=
  let '(tasks, w) := progress_of user_id w in
  match tasks !! task_id with
  | None => w
  | Some snap =>
      let '(t, w) := now w in
      let snap := apply_update s t kw snap in
      let snap := if is_terminal s then set_completed snap else snap in
      store_snapshot user_id task_id snap w
  end.

(** [active_tasks[user_id].discard(task_id)] *)
Definition discard_active (user_id task_id : string) (w : world) : world :=
  let '(tasks, w) := active_of user_id w in
  store_active user_id (tasks ∖ {[task_id]}) w.

(** [get_scraping_progress(task_id, current_user)].  The test
    [(current_time - last_update).total_seconds() < 2] is the test on
    the microseconds of the difference: a [timedelta] counts whole
    microseconds, and [total_seconds] is below 2 exactly when they are
    fewer than 2,000,000. *)
Definition get_scraping_progress (task_id user_id : string) (w : world)
    : outcome snapshot * world :=
  let '(tasks, w) := progress_of user_id w in
  match tasks !! task_id with
  | None => (Raise (HTTPException 404 "Task not found"), w)
  | Some snap =>
      let '(current_time, w) := now w in
      let time_diff := current_time - last_update snap in
      if is_completed snap || error_set snap then (Ok snap, w)
      else if time_diff <? 2 * 1000000 then (Ok snap, w)
      else
        let snap := set_last_update current_time snap in
        (Ok snap, store_snapshot user_id task_id snap w)
  end.

(** [BeautifulSoup(html, "html.parser")], as in [Cleaner]. *)
Variable html_parser : string -> outcome (list Cleaner.node).

(** The body of [for url, html in page_chunk.items()]. *)
Definition process_page (all_chunks : list string) (page : string * string) : list string :=
  let '(_, html) := page in
  if truthy html && (len html >? 0) then
    let cleaned_text := Cleaner.clean_text html_parser html in
    if truthy (strip cleaned_text)
    then all_chunks ++ Chunker.create_chunks cleaned_text 64 10
    else all_chunks
  else all_chunks.

(** [for i in range(0, len(pages), chunk_size)] over the page batches. *)
Fixpoint process_pages (user_id task_id : string) (batches : list (list (string * string)))
    (all_chunks : list string) : coro (list string) :=
  match batches with
  | [] => ret all_chunks
  | page_chunk :: batches =>
      let all_chunks := fold_left process_page page_chunk all_chunks in
      do (UpdateProgress user_id task_id Processing
            (mkKwargs None (Some (Z.of_nat (length all_chunks))) None None)) ;;
      process_pages user_id task_id batches all_chunks
  end.

(** [for i in range(0, len(all_chunks), embedding_chunk_size)], first loop. *)
Fixpoint embed_chunks (batches : list (list string)) (all_embeddings : list embedding)
    : coro (list embedding) :=
  match batches with
  | [] => ret all_embeddings
  | chunk :: batches =>
      embeddings <- await (GetEmbeddings chunk) ;;
      embed_chunks batches (all_embeddings ++ embeddings)
  end.

(** The same loop, second time: storing. *)
Fixpoint ingest_chunks (collection_name : string) (all_chunks : list string)
    (all_embeddings : list embedding) (starts : list nat) (embedding_chunk_size : nat)
    : coro unit :=
  match starts with
  | [] => ret tt
  | i :: starts =>
      let chunk := slice all_chunks i (i + embedding_chunk_size) in
      let embeddings := slice all_embeddings i (i + embedding_chunk_size) in
      await (IngestToQdrant collection_name chunk embeddings) ;;
      ingest_chunks collection_name all_chunks all_embeddings starts embedding_chunk_size
  end.

Definition batches_of {A} (l : list A) (size : nat) : list (list A) :=
  map (fun i => slice l i (i + size)) (range_step (length l) size).

Definition process_scraping (url task_id collection_name user_id : string) : coro unit :=
  let update s kw := do (UpdateProgress user_id task_id s kw) in
  try_finally
    (try_except_coro
       (update Crawling no_kwargs ;;
        pages <- await (CrawlWebsite url) ;;
        if bool_decide (pages = []) then
          update Error
            (mkKwargs None None
               (Some "No pages could be scraped from the provided URL"%string) None)
        else
          update Crawling (mkKwargs (Some (Z.of_nat (length pages))) None None None) ;;
          update Processing no_kwargs ;;
          let chunk_size := 5%nat in
          all_chunks <- process_pages user_id task_id (batches_of pages chunk_size) [] ;;
          if bool_decide (all_chunks = []) then
            update Error
              (mkKwargs None None
                 (Some "No valid text content found to ingest from the website"%string) None)
          else
            update GeneratingEmbeddings no_kwargs ;;
            let embedding_chunk_size := 50%nat in
            all_embeddings <- embed_chunks (batches_of all_chunks embedding_chunk_size) [] ;;
            update Storing no_kwargs ;;
            ingest_chunks collection_name all_chunks all_embeddings
              (range_step (length all_chunks) embedding_chunk_size) embedding_chunk_size ;;
            update Completed
              (mkKwargs None None None
                 (Some (mkSummary collection_name (Z.of_nat (length pages))
                          (Z.of_nat (length all_chunks))))))
       (fun e => update Error (mkKwargs None None (Some (str_exn e)) None)))
    (do (DiscardActive user_id task_id)).

Definition exec (op : sync_op) (w : world) : world :=
  match op with
  | UpdateProgress user_id task_id s kw => update_progress user_id task_id s kw w
  | DiscardActive user_id task_id => discard_active user_id task_id w
  end.

(** The rejection of [scrape_and_ingest], with the cap written out. *)
Definition too_many_tasks : exn :=
  HTTPException 429
    "Maximum concurrent scraping tasks (3) reached. Please wait for some tasks to complete.".

(** [scrape_and_ingest(req, current_user, background_tasks)]: the
    response or the [HTTPException], the globals afterwards, and the
    task handed to [background_tasks.add_task], if any. *)
Definition scrape_and_ingest (req_url user_id : string) (w : world)
    : outcome (string * string) * world * option (coro unit) :=
  let collection_name := user_id in
  let '(tasks, w) := active_of user_id w in
  if Z.of_nat (size tasks) >=? MAX_CONCURRENT_TASKS then
    (Raise too_many_tasks, w, None)
  else
    let '(timestamp, w) := now w in
    let task_id := task_id_of req_url timestamp user_id in
    let '(start_time, w) := now w in
    let '(last_update, w) := now w in
    let w := store_snapshot user_id task_id
               (mkSnapshot Crawling start_time last_update 0 0 None false req_url None) w in
    let '(tasks, w) := active_of user_id w in
    let w := store_active user_id ({[task_id]} ∪ tasks) w in
    (Ok (task_id, "started"%string), w,
     Some (process_scraping req_url task_id collection_name user_id)).

(** *** The running service

    The globals and the background tasks.  Between two [await]s a
    coroutine is not interrupted: [run_sync] runs it up to its next
    [await] or to its end. *)
Record system := mkSystem {
  sys_world : world;
  background : list (coro unit)
}.

Definition initial_system : system := mkSystem empty_world [].

Fixpoint run_sync {A} (p : coro A) (w : world) : coro A * world :=
  match p with
  | Do op k => run_sync k (exec op w)
  | _ => (p, w)
  end.

(** A request arrives: its task, if it is admitted, joins the
    background tasks. *)
Definition after_request (req_url user_id : string) (sys : system) : system :=
  let r := scrape_and_ingest req_url user_id (sys_world sys) in
  mkSystem r.1.2 (background sys ++ option_list r.2).

(** A poll arrives. *)
Definition after_poll (task_id user_id : string) (sys : system) : system :=
  mkSystem (get_scraping_progress task_id user_id (sys_world sys)).2 (background sys).

(** The [i]-th background task, now [p], runs to its next [await]. *)
Definition after_turn (i : nat) (p : coro unit) (sys : system) : system :=
  let r := run_sync p (sys_world sys) in
  mkSystem r.2 (<[i := r.1]> (background sys)).

(** The same turns as functions, for the examples: the [i]-th
    background task starts, or is resumed with the answer [answers]
    gives to the call it waits for. *)
Definition started (i : nat) (sys : system) : system :=
  match background sys !! i with
  | Some p => after_turn i p sys
  | None => sys
  end.

Definition resumed (answers : forall c, outcome (answer c)) (i : nat) (sys : system)
    : system :=
  match background sys !! i with
  | Some (Await c k) => after_turn i (k (answers c)) sys
  | _ => sys
  end.

(** The id of an admitted request is new to its user: the ids are
    unique, as the source means them to be ([# Generate a unique ID for
    this scraping task]); the digest of the model is any function. *)
Definition fresh_request (req_url user_id : string) (w : world) : Prop :=
  forall task_id started,
    (scrape_and_ingest req_url user_id w).1.1 = Ok (task_id, started) ->
    lookup_task user_id task_id w = None.

(** One step of the service.  With [unique_ids = false] every request
    is a step, whatever id it gets; with [unique_ids = true] only the
    requests with a fresh id are. *)
Inductive step (unique_ids : bool) : system -> system -> Prop :=
| step_request req_url user_id sys :
    (unique_ids = true -> fresh_request req_url user_id (sys_world sys)) ->
    step unique_ids sys (after_request req_url user_id sys)
| step_poll task_id user_id sys :
    step unique_ids sys (after_poll task_id user_id sys)
| step_start i p sys :
    background sys !! i = Some p ->
    step unique_ids sys (after_turn i p sys)
| step_resume i c k r sys :
    background sys !! i = Some (Await c k) ->
    step unique_ids sys (after_turn i (k r) sys).

Definition reachable (unique_ids : bool) (sys : system) : Prop :=
  rtc (step unique_ids) initial_system sys.

(** *** One run of a task, observed

    [run user_id task_id p w tr w']: the coroutine [p] runs from [w] and
    has come to [w'], at its end or at any point before, whatever its
    collaborators answered; [tr] lists the snapshot of the task after
    each [update_progress] that wrote it.  While the coroutine waits, the
    rest of the service goes on; it may touch the task's snapshot
    ([get_scraping_progress] refreshes [last_update]) but leaves its
    status and its flag alone. *)
Definition task_view (user_id task_id : string) (w : world)
    : option (task_status * bool) :=
  (fun snap => (status snap, is_completed snap)) <$> lookup_task user_id task_id w.

Definition undisturbed (user_id task_id : string) (w w' : world) : Prop :=
  task_view user_id task_id w' = task_view user_id task_id w.

Definition written (user_id task_id : string) (op : sync_op) (w : world) : list snapshot :=
  match op with
  | UpdateProgress user_id' task_id' _ _ =>
      if bool_decide (user_id' = user_id /\ task_id' = task_id)
      then option_list (lookup_task user_id task_id w)
      else []
  | DiscardActive _ _ => []
  end.

Inductive run (user_id task_id : string)
    : coro unit -> world -> list snapshot -> world -> Prop :=
| run_stop p w :
    run user_id task_id p w [] w
| run_do op k w tr w' :
    run user_id task_id k (exec op w) tr w' ->
    run user_id task_id (Do op k) w (written user_id task_id op (exec op w) ++ tr) w'
| run_await c k r w w1 tr w' :
    undisturbed user_id task_id w w1 ->
    run user_id task_id (k r) w1 tr w' ->
    run user_id task_id (Await c k) w tr w'.

(** The run to the end with the answers of [answers], nothing else
    going on: its trace and the globals at the end. *)
Fixpoint play (user_id task_id : string) (answers : forall c, outcome (answer c))
    (p : coro unit) (w : world) : list snapshot * world :=
  match p with
  | Return _ => ([], w)
  | Do op k =>
      let r := play user_id task_id answers k (exec op w) in
      (written user_id task_id op (exec op w) ++ r.1, r.2)
  | Await c k => play user_id task_id answers (k (answers c)) w
  end.

(** The same run, for any coroutine: its outcome, the globals at the
    end and the calls made to the collaborators, in their order. *)
Fixpoint run_to_end {A} (answers : forall c, outcome (answer c)) (p : coro A) (w : world)
    : outcome A * world * list call :=
  match p with
  | Return o => (o, w, [])
  | Do op k => run_to_end answers k (exec op w)
  | Await c k =>
      let r := run_to_end answers (k (answers c)) w in (r.1.1, r.1.2, c :: r.2)
  end.

(** [finishes interference p w o w']: the coroutine [p] runs from [w]
    to its end, with the outcome [o] and the globals [w'], whatever its
    collaborators answer.  While it waits, the rest of the service
    changes the globals as [interference] allows. *)
Inductive finishes (interference : world -> world -> Prop) {A : Type}
    : coro A -> world -> outcome A -> world -> Prop :=
| finishes_return o w :
    finishes interference (Return o) w o w
| finishes_do op k w o w' :
    finishes interference k (exec op w) o w' ->
    finishes interference (Do op k) w o w'
| finishes_await c k r w w1 o w' :
    interference w w1 ->
    finishes interference (k r) w1 o w' ->
    finishes interference (Await c k) w o w'.

End WithEnvironment.

(** What a snapshot tells apart from its times. *)
Definition fields (snap : snapshot) :=
  (status snap, pages_scraped snap, chunks_created snap, error snap,
   is_completed snap, url snap, result snap, start_time snap).

(** *** The order of the states

    [crawling], [processing], [generating_embeddings], [storing],
    [completed], in this order; [error] can follow any state that is not
    terminal, and nothing follows a terminal state. *)
Definition rank (s : task_status) : nat :=
  match s with
  | Crawling => 0
  | Processing => 1
  | GeneratingEmbeddings => 2
  | Storing => 3
  | Completed => 4
  | Error => 5
  end.

Definition status_follows (a b : task_status) : Prop :=
  is_terminal a = false /\ (b = Error \/ (b <> Error /\ (rank a <= rank b)%nat)).

Definition flag_agrees (snap : snapshot) : Prop :=
  is_completed snap = is_terminal (status snap).

(** The stored snapshot of the task has status [s] and a flag that
    agrees with it. *)
Definition stored_status (user_id task_id : string) (s : task_status) (w : world) : Prop :=
  exists snap,
    lookup_task user_id task_id w = Some snap /\ status snap = s /\ flag_agrees snap.

(** *** A monitor for the coroutine of one task

    The monitor follows a coroutine and remembers the last status it
    wrote and whether it wrote a terminal status since it last waited.
    It refuses an operation on another task, a status that does not
    follow the last one, and a removal from the active set that does not
    come directly after a terminal status.  [accepted u t p Q m] holds
    when the monitor, in state [m], accepts every run of [p], and [Q]
    holds of the outcome and of the monitor at the end. *)
Record monitor := mkMonitor {
  last_status : task_status;
  terminal_written : bool
}.

Definition monitor_step (user_id task_id : string) (op : sync_op) (m : monitor)
    : option monitor :=
  match op with
  | UpdateProgress user_id' task_id' s _ =>
      if bool_decide (user_id' = user_id /\ task_id' = task_id)
         && negb (is_terminal (last_status m))
         && (bool_decide (s = Error) || (rank (last_status m) <=? rank s)%nat)
      then Some (mkMonitor s (terminal_written m || is_terminal s))
      else None
  | DiscardActive user_id' task_id' =>
      if bool_decide (user_id' = user_id /\ task_id' = task_id) && terminal_written m
      then Some m
      else None
  end.

Definition monitor_await (m : monitor) : monitor := mkMonitor (last_status m) false.

Fixpoint accepted {A} (user_id task_id : string) (p : coro A)
    (Q : outcome A -> monitor -> Prop) (m : monitor) : Prop :=
  match p with
  | Return o => Q o m
  | Do op k =>
      match monitor_step user_id task_id op m with
      | Some m' => accepted user_id task_id k Q m'
      | None => False
      end
  | Await c k => forall r, accepted user_id task_id (k r) Q (monitor_await m)
  end.

(** *** The invariant of the service *)

(** The tasks of a user that are not flagged completed. *)
Definition non_terminal_tasks (user_id : string) (w : world) : gset string :=
  dom (filter (fun entry => is_completed entry.2 = false)
         (default ∅ (scraping_progress w !! user_id))).

(** The tasks of a user whose status is not terminal. *)
Definition running_tasks (user_id : string) (w : world) : gset string :=
  dom (filter (fun entry => is_terminal (status entry.2) = false)
         (default ∅ (scraping_progress w !! user_id))).

(** Every active set is within the cap and holds the tasks that are
    not completed. *)
Definition world_inv (w : world) : Prop :=
  (forall user_id, Z.of_nat (size (active_set user_id w)) <= MAX_CONCURRENT_TASKS)
  /\ (forall user_id task_id snap,
        lookup_task user_id task_id w = Some snap -> is_completed snap = false ->
        task_id ∈ active_set user_id w).

(** The task is flagged completed, if it is there. *)
Definition flagged (user_id task_id : string) (w : world) : Prop :=
  forall snap, lookup_task user_id task_id w = Some snap -> is_completed snap = true.

Definition system_inv (sys : system) : Prop :=
  world_inv (sys_world sys)
  /\ Forall (fun p => exists user_id task_id m,
               terminal_written m = false
               /\ accepted user_id task_id p (fun _ _ => True) m)
       (background sys).

(** With unique ids every stored task has one background task of its
    own, whose monitor knows its status. *)
Abbreviation owner := (string * string * monitor)%type.

Definition owns (w : world) (p : coro unit) (o : owner) : Prop :=
  accepted o.1.1 o.1.2 p (fun _ _ => True) o.2
  /\ terminal_written o.2 = false
  /\ stored_status o.1.1 o.1.2 (last_status o.2) w.

Definition owned_inv (sys : system) : Prop :=
  exists owners : list owner,
    length owners = length (background sys)
    /\ NoDup (fst <$> owners)
    /\ (forall i p o,
          background sys !! i = Some p -> owners !! i = Some o ->
          owns (sys_world sys) p o)
    /\ (forall user_id task_id snap,
          lookup_task user_id task_id (sys_world sys) = Some snap ->
          (user_id, task_id) ∈ fst <$> owners).

(** *** [update_progress] on dictionaries

    A snapshot is a Python dictionary and [update_progress] takes any
    keyword arguments: the record [kwargs] has the four keys its callers
    pass.  [update_dict] is what [update_progress] does to the stored
    dictionary for every dictionary of keyword arguments, whatever the
    values are: any type [V] that holds the strings, the times and the
    truth values.  (Python refuses a call that passes [user_id],
    [task_id] or [status] a second time as a keyword.) *)
Section Dictionaries.

Context {V : Type}.
Variables (of_str : string -> V) (of_datetime : Z -> V) (of_bool : bool -> V).

(** [d.update({"status": status, "last_update": datetime.now(),
    **kwargs})], where a key of [kwargs] comes last in the display and
    wins, and the [if] after it. *)
Definition update_dict (status : string) (now : Z) (kwargs d : gmap string V)
    : gmap string V :=
  let patch :=
    kwargs ∪ <["last_update"%string := of_datetime now]>
               {["status"%string := of_str status]} in
  let d := patch ∪ d in
  if bool_decide (status ∈ ["completed"; "error"]%string)
  then <["is_completed"%string := of_bool true]> d
  else d.

(** [update_progress] on the table [scraping_progress], a
    [defaultdict(dict)]: the test [task_id not in
    scraping_progress[user_id]] gives a user that has no table an empty
    one. *)
Definition update_table (user_id task_id status : string) (now : Z)
    (kwargs : gmap string V) (table : gmap string (gmap string (gmap string V)))
    : gmap string (gmap string (gmap string V)) :=
  match table !! user_id with
  | None => <[user_id := ∅]> table
  | Some tasks =>
      match tasks !! task_id with
      | None => table
      | Some d => <[user_id := <[task_id := update_dict status now kwargs d]> tasks]> table
      end
  end.

(** [table[user_id][task_id]], read without the [defaultdict]
    effect. *)
Definition lookup_entry (table : gmap string (gmap string (gmap string V)))
    (user_id task_id : string) : option (gmap string V) :=
  table !! user_id ≫= (.!! task_id).

(** The snapshots and the keyword arguments of the model as
    dictionaries.  A task has no ["result"] key before it completes. *)
Variables (of_int : Z -> V) (none : V) (of_summary : summary -> V).

Definition snapshot_dict (snap : snapshot) : gmap string V :=
  let d : gmap string V :=
    list_to_map
      [("status", of_str (status_name (status snap)));
       ("start_time", of_datetime (start_time snap));
       ("last_update", of_datetime (last_update snap));
       ("pages_scraped", of_int (pages_scraped snap));
       ("chunks_created", of_int (chunks_created snap));
       ("error", match error snap with Some e => of_str e | None => none end);
       ("is_completed", of_bool (is_completed snap));
       ("url", of_str (url snap))]%string in
  match result snap with
  | Some r => <["result"%string := of_summary r]> d
  | None => d
  end.

Definition kwargs_dict (kw : kwargs) : gmap string V :=
  list_to_map
    (option_list ((fun n => ("pages_scraped"%string, of_int n)) <$> kw_pages_scraped kw)
     ++ option_list ((fun n => ("chunks_created"%string, of_int n))
                       <$> kw_chunks_created kw)
     ++ option_list ((fun e => ("error"%string, of_str e)) <$> kw_error kw)
     ++ option_list ((fun r => ("result"%string, of_summary r)) <$> kw_result kw)).

End Dictionaries.

(** *** The slots of the active set

    [releasing p Q pending]: the coroutine [p] takes its task out of
    the active set after a terminal status before it waits or ends;
    [pending] tells that a terminal status was written and the removal
    has not followed yet, and [Q] holds of the outcome and of [pending]
    at the end. *)
Fixpoint releasing {A} (p : coro A) (Q : outcome A -> bool -> Prop) (pending : bool)
    : Prop :=
  match p with
  | Return o => Q o pending
  | Do (UpdateProgress _ _ s _) k => releasing k Q (pending || is_terminal s)
  | Do (DiscardActive _ _) k => releasing k Q false
  | Await c k => pending = false /\ forall r, releasing (k r) Q false
  end.

(** The background task [p] of the owner [o] holds a slot of the
    active set exactly while the status of its task is not terminal. *)
Definition holds_slot (w : world) (p : coro unit) (o : owner) : Prop :=
  owns w p o
  /\ releasing p (fun _ pending => pending = false) false
  /\ (o.1.2 ∈ active_set o.1.1 w <-> is_terminal (last_status o.2) = false).

Definition exact_inv (sys : system) : Prop :=
  exists owners : list owner,
    length owners = length (background sys)
    /\ NoDup (fst <$> owners)
    /\ (forall i p o,
          background sys !! i = Some p -> owners !! i = Some o ->
          holds_slot (sys_world sys) p o)
    /\ (forall user_id task_id snap,
          lookup_task user_id task_id (sys_world sys) = Some snap ->
          (user_id, task_id) ∈ fst <$> owners)
    /\ (forall user_id task_id,
          task_id ∈ active_set user_id (sys_world sys) ->
          (user_id, task_id) ∈ fst <$> owners).

End Tasks.

(** ** File upload: [upload_and_process] *)

Module Upload.

(** [ALLOWED_EXTENSIONS] *)
Definition ALLOWED_EXTENSIONS : list (string * string) :=
  [("pdf", "application/pdf"); ("svg", "image/svg+xml"); ("txt", "text/plain");
   ("doc", "application/msword");
   ("docx", "application/vnd.openxmlformats-officedocument.wordprocessingml.document")
  ]%string.

(** [ALLOWED_EXTENSIONS.keys()], in the order of the dictionary. *)
Definition allowed_keys : list string := map fst ALLOWED_EXTENSIONS.

(** [s.split(sep)] for a separator of one character: the pieces
    between the separators, the empty ones included.  [cur] is the
    current piece, reversed. *)
Fixpoint split_char (sep : ascii) (cur : string) (s : string) : list string :=
  match s with
  | EmptyString => [String.rev cur]
  | String c s' =>
      if Ascii.eqb c sep then String.rev cur :: split_char sep EmptyString s'
      else split_char sep (String c cur) s'
  end.

(** [file.filename.split('.')[-1].lower()] *)
Definition file_extension_of (filename : string) : string :=
  Crawler.lower (List.last (split_char "." EmptyString filename) EmptyString).

(** The calls to the uploaded file and to the collaborators, which the
    theorems read from the log of a run.  The content of a file, Python
    [bytes], is a string of 8-bit characters. *)
Inductive call :=
| FileRead
| ProcessPdf (file_content : string)
| ProcessSvg (file_content : string)
| ProcessTextFile (file_content : string)
| GetEmbeddings (chunks : list string)
| IngestToQdrant (collection_name : string) (chunks : list string)
    (embeddings : list Tasks.embedding).

(** The outcome of a piece of code and the calls it made, in order. *)
Definition logged (A : Type) : Type := outcome A * list call.

Definition ret {A} (a : A) : logged A := (Ok a, []).
Definition raise {A} (e : exn) : logged A := (Raise e, []).

Definition bind {A B} (m : logged A) (f : A -> logged B) : logged B :=
  match m.1 with
  | Ok a => ((f a).1, m.2 ++ (f a).2)
  | Raise e => (Raise e, m.2)
  end.

(** [try: body  except Exception as e: handler(e)] *)
Definition try_except {A} (body : logged A) (handler : exn -> logged A) : logged A :=
  match body.1 with
  | Ok a => body
  | Raise e => ((handler e).1, body.2 ++ (handler e).2)
  end.

(** A call with the answer it gets. *)
Definition called {A} (c : call) (answer : outcome A) : logged A := (answer, [c]).

Notation "x <- m ;; k" := (bind m (fun x => k))
  (at level 100, m at level 99, right associativity, only parsing).
Notation "m ;; k" := (bind m (fun _ => k))
  (at level 100, right associativity, only parsing).

(** The dictionary the endpoint returns. *)
Record response := mkResponse {
  status : string;
  message : string;
  collection_name : string;
  chunks_created : Z;
  file_name : string
}.

(** [d[key]] on a dictionary; [str(KeyError(key))] is the [repr] of the
    key. *)
Definition getitem (d : gmap string string) (key : string) : logged string :=
  match d !! key with
  | Some v => ret v
  | None => raise (Exception ("'" +:+ key +:+ "'"))
  end.

Section WithCollaborators.

(** What [await file.read()] gives, the three text extractors of
    [app.utils.process_files], the embedding service and the vector
    store. *)
Variable file_read : outcome string.
Variables process_pdf process_svg process_text_file : string -> outcome string.
Variable get_embeddings : list string -> outcome (list Tasks.embedding).
Variable ingest_to_qdrant : string -> list string -> list Tasks.embedding -> outcome unit.

(** The first [try] block: [file_content = await file.read()]. *)
Definition read_file : logged string :=
  try_except
    (file_content <- called FileRead file_read ;;
     if negb (truthy file_content)
     then raise (HTTPException 400 "Empty file received")
     else ret file_content)
    (fun e => raise (HTTPException 400 ("Error reading file: " +:+ str_exn e))).

(** The second: [if file_extension == 'pdf': ... elif file_extension ==
    'svg': ... else: ...]. *)
Definition process_file (file_extension file_content : string) : logged string :=
  try_except
    (if bool_decide (file_extension = "pdf"%string)
     then called (ProcessPdf file_content) (process_pdf file_content)
     else if bool_decide (file_extension = "svg"%string)
     then called (ProcessSvg file_content) (process_svg file_content)
     else called (ProcessTextFile file_content) (process_text_file file_content))
    (fun e => raise (HTTPException 400
                       ("Error processing file content: " +:+ str_exn e))).

(** The third: the chunks and their validation. *)
Definition make_chunks (text_content : string) : logged (list string) :=
  try_except
    (let chunks := Chunker.create_chunks text_content 1000 200 in
     let valid_chunks := filter (fun chunk => truthy (strip chunk)) chunks in
     let chunks :=
       if bool_decide (length valid_chunks <> length chunks)
       then valid_chunks else chunks in
     if bool_decide (chunks = [])
     then raise (HTTPException 400
                   "No valid text chunks could be created from the file")
     else ret chunks)
    (fun e => raise (HTTPException 400
                       ("Error creating text chunks: " +:+ str_exn e))).

(** The fourth: the embeddings. *)
Definition generate_embeddings (chunks : list string) : logged (list Tasks.embedding) :=
  try_except
    (embeddings <- called (GetEmbeddings chunks) (get_embeddings chunks) ;;
     if bool_decide (embeddings = [])
        || bool_decide (length embeddings <> length chunks)
     then raise (Exception
                   "Embedding generation failed or produced mismatched results")
     else ret embeddings)
    (fun e => raise (HTTPException 500
                       ("Error generating embeddings: " +:+ str_exn e))).

(** The fifth: the vector store. *)
Definition store (collection_name : string) (chunks : list string)
    (embeddings : list Tasks.embedding) : logged unit :=
  try_except
    (called (IngestToQdrant collection_name chunks embeddings)
       (ingest_to_qdrant collection_name chunks embeddings))
    (fun e => raise (HTTPException 500 ("Error storing data: " +:+ str_exn e))).

Definition upload_and_process (filename : string) (current_user : gmap string string)
    : logged response :=
  try_except
    (collection_name <- getitem current_user "id" ;;
     let file_extension := file_extension_of filename in
     if negb (bool_decide (file_extension ∈ allowed_keys))
     then raise (HTTPException 400
                   ("File type not allowed. Allowed types: " +:+ join ", " allowed_keys))
     else
       file_content <- read_file ;;
       text_content <- process_file file_extension file_content ;;
       if negb (truthy (strip text_content))
       then raise (HTTPException 400 "No text content could be extracted from the file")
       else
         chunks <- make_chunks text_content ;;
         embeddings <- generate_embeddings chunks ;;
         store collection_name chunks embeddings ;;
         ret (mkResponse "success" "File processed and stored successfully"
                collection_name (Z.of_nat (length chunks)) filename))
    (fun e =>
       match e with
       | HTTPException status_code detail => raise (HTTPException status_code detail)
       | Exception msg => raise (HTTPException 500 ("Internal server error: " +:+ msg))
       end).

(** The text extractor the endpoint calls for an extension, and its
    answer. *)
Definition process_call (file_extension file_content : string) : call :=
  if bool_decide (file_extension = "pdf"%string) then ProcessPdf file_content
  else if bool_decide (file_extension = "svg"%string) then ProcessSvg file_content
  else ProcessTextFile file_content.

Definition process_answer (file_extension file_content : string) : outcome string :=
  if bool_decide (file_extension = "pdf"%string) then process_pdf file_content
  else if bool_decide (file_extension = "svg"%string) then process_svg file_content
  else process_text_file file_content.

End WithCollaborators.

(** The calls that reach the embedding service or the vector store. *)
Definition is_outward (c : call) : bool :=
  match c with
  | GetEmbeddings _ | IngestToQdrant _ _ _ => true
  | _ => false
  end.

End Upload.
(** * Facts about Python strings *)

Section PyStr_facts.

Lemma len_nonneg s : 0 <= len s.
Proof. unfold len. lia. Qed.

Lemma append_nil_l b : "" +:+ b = b.
Proof. reflexivity. Qed.

Lemma append_cons c a b : String c a +:+ b = String c (a +:+ b).
Proof. reflexivity. Qed.

Lemma len_append a b : len (a +:+ b) = len a + len b.
Proof.
  unfold len. induction a as [|c a IH].
  - rewrite append_nil_l. simpl. lia.
  - rewrite append_cons. cbn [String.length]. rewrite !Nat2Z.inj_succ. lia.
Qed.

Lemma truthy_len s : truthy s = true <-> 0 < len s.
Proof. destruct s; unfold len; simpl; split; intros; try lia; try done. Qed.

Lemma sum_len_nonneg l : 0 <= sum_len l.
Proof. induction l as [|s l IH]; simpl; [lia|]. pose proof (len_nonneg s). lia. Qed.

Lemma sum_len_app l1 l2 : sum_len (l1 ++ l2) = sum_len l1 + sum_len l2.
Proof. induction l1 as [|s l1 IH]; simpl; lia. Qed.

Lemma len_join_cons sep s l :
  len (join sep (s :: l)) = len s + sum_len l + Z.of_nat (length l) * len sep.
Proof.
  revert s. induction l as [|s' l IH]; intros s.
  - simpl. lia.
  - change (join sep (s :: s' :: l)) with (s +:+ sep +:+ join sep (s' :: l)).
    rewrite !len_append, IH. simpl sum_len. rewrite length_cons. lia.
Qed.

(** A joined chunk has the characters of its sentences and one
    separator between neighbours. *)
Lemma len_join_space g :
  g <> [] -> len (join " " g) = sum_len g + (Z.of_nat (length g) - 1).
Proof.
  destruct g as [|s l]; [done|]. intros _.
  rewrite len_join_cons. simpl sum_len. rewrite length_cons.
  change (len " ") with 1. lia.
Qed.

Lemma all_space_append a b : all_space (a +:+ b) = all_space a && all_space b.
Proof.
  induction a as [|c a IH]; [done|].
  rewrite append_cons. simpl. rewrite IH. by rewrite andb_assoc.
Qed.

Lemma all_space_lstrip s : all_space (lstrip s) = all_space s.
Proof.
  induction s as [|c s IH]; simpl; [done|].
  destruct (isspace c) eqn:Hc; simpl; [done|by rewrite Hc].
Qed.

Lemma all_space_rstrip s : all_space (rstrip s) = all_space s.
Proof.
  induction s as [|c s IH]; simpl; [done|].
  destruct (rstrip s) as [|c' r] eqn:Hr.
  - rewrite <- IH. simpl. destruct (isspace c) eqn:Hc; simpl; by rewrite ?Hc.
  - rewrite <- IH. done.
Qed.

Lemma truthy_rstrip s : truthy (rstrip s) = negb (all_space s).
Proof.
  induction s as [|c s IH]; simpl; [done|].
  destruct (rstrip s) as [|c' r] eqn:Hr; simpl in *.
  - destruct (all_space s); [|done]. rewrite andb_true_r. by destruct (isspace c).
  - destruct (all_space s); [done|]. by rewrite andb_false_r.
Qed.

Lemma all_space_strip s : all_space (strip s) = all_space s.
Proof. unfold strip. by rewrite all_space_rstrip, all_space_lstrip. Qed.

(** [s.strip()] is non-empty exactly when [s] has a character that is
    not whitespace. *)
Lemma truthy_strip s : truthy (strip s) = negb (all_space s).
Proof. unfold strip. by rewrite truthy_rstrip, all_space_lstrip. Qed.

Lemma all_space_truthy_strip s : truthy (strip s) = true -> all_space (strip s) = false.
Proof. rewrite all_space_strip, truthy_strip. by destruct (all_space s). Qed.

Lemma all_space_join_space g :
  all_space (join " " g) = forallb all_space g.
Proof.
  induction g as [|s l IH]; [done|].
  destruct l as [|s' l].
  - simpl. by rewrite andb_true_r.
  - change (join " " (s :: s' :: l)) with (s +:+ " " +:+ join " " (s' :: l)).
    rewrite !all_space_append, IH. done.
Qed.

End PyStr_facts.

(** * Stripped strings and whitespace *)

Section Strip_facts.

Lemma clean_strip_fixed s : clean s -> strip s = s.
Proof. intros [Hl Hr]. unfold strip. by rewrite Hl. Qed.

Lemma length_lstrip s : (String.length (lstrip s) <= String.length s)%nat.
Proof.
  induction s as [|c s IH]; simpl; [done|].
  destruct (isspace c); simpl; lia.
Qed.

(** A string fixed by [lstrip] starts with a character that is not
    whitespace. *)
Lemma lstrip_fixed_head c s : lstrip (String c s) = String c s -> isspace c = false.
Proof.
  simpl. destruct (isspace c); [|done]. intros H.
  pose proof (length_lstrip s) as Hlen. rewrite H in Hlen. simpl in Hlen. lia.
Qed.

Lemma lstrip_head c s : isspace c = false -> lstrip (String c s) = String c s.
Proof. intros H. simpl. by rewrite H. Qed.

Lemma rstrip_head c s : isspace c = false -> exists r, rstrip (String c s) = String c r.
Proof.
  intros H. simpl. destruct (rstrip s); [rewrite H|]; eauto.
Qed.

Lemma rstrip_idem s : rstrip (rstrip s) = rstrip s.
Proof.
  induction s as [|c s IH]; [done|]. simpl.
  destruct (rstrip s) as [|c' r] eqn:Hr.
  - destruct (isspace c) eqn:Hc; [done|]. simpl. by rewrite Hc.
  - simpl. simpl in IH. by rewrite IH.
Qed.

Lemma lstrip_rstrip_lstrip s : lstrip (rstrip (lstrip s)) = rstrip (lstrip s).
Proof.
  induction s as [|c s IH]; [done|]. simpl.
  destruct (isspace c) eqn:Hc; [done|].
  destruct (rstrip_head c s Hc) as [r Hr]. rewrite Hr. by apply lstrip_head.
Qed.

Lemma clean_strip s : clean (strip s).
Proof.
  unfold clean, strip. split; [apply lstrip_rstrip_lstrip|apply rstrip_idem].
Qed.

Lemma strip_idem s : strip (strip s) = strip s.
Proof. apply clean_strip_fixed, clean_strip. Qed.

Lemma append_empty a b : a +:+ b = EmptyString -> a = EmptyString /\ b = EmptyString.
Proof. destruct a; [by rewrite append_nil_l|by rewrite append_cons]. Qed.

Lemma rstrip_append a b :
  rstrip (a +:+ b) = if all_space b then rstrip a else a +:+ rstrip b.
Proof.
  induction a as [|c a IH].
  - rewrite !append_nil_l. pose proof (truthy_rstrip b) as H.
    destruct (all_space b); [|done]. simpl in *. by destruct (rstrip b).
  - rewrite append_cons. simpl. rewrite IH.
    destruct (all_space b) eqn:Hb; [done|].
    rewrite append_cons.
    destruct (a +:+ rstrip b) as [|c' r] eqn:Hr; [|done].
    apply append_empty in Hr as [_ Hr].
    pose proof (truthy_rstrip b) as H. rewrite Hr, Hb in H. done.
Qed.

Lemma lstrip_append a b :
  a <> EmptyString -> lstrip a = a -> lstrip (a +:+ b) = a +:+ b.
Proof.
  destruct a as [|c a]; [done|]. intros _ H.
  apply lstrip_fixed_head in H. rewrite append_cons. by apply lstrip_head.
Qed.

Lemma clean_not_all_space s : clean s -> s <> EmptyString -> all_space s = false.
Proof.
  intros [_ Hr] Hne. pose proof (truthy_rstrip s) as H. rewrite Hr in H.
  destruct s as [|c s]; [done|]. change (truthy (String c s)) with true in H.
  by destruct (all_space (String c s)).
Qed.

Lemma clean_append a sep b :
  clean a -> a <> EmptyString -> clean b -> b <> EmptyString ->
  clean (a +:+ sep +:+ b) /\ a +:+ sep +:+ b <> EmptyString.
Proof.
  intros Ha Hane Hb Hbne. split; [split|].
  - apply lstrip_append; [done|apply Ha].
  - rewrite rstrip_append, all_space_append.
    rewrite (clean_not_all_space b) by done. rewrite andb_false_r.
    rewrite rstrip_append, (clean_not_all_space b) by done.
    by rewrite (proj2 Hb).
  - intros H. by apply append_empty in H as [? _].
Qed.

(** Joining strings without whitespace at their ends gives such a
    string, whatever the separator. *)
Lemma clean_join sep g :
  g <> [] -> Forall (fun s => clean s /\ s <> EmptyString) g ->
  clean (join sep g) /\ join sep g <> EmptyString.
Proof.
  induction g as [|s l IH]; [done|]. intros _ Hg.
  apply Forall_cons in Hg as [[Hs Hsne] Hl].
  destruct l as [|s' l]; [done|].
  change (join sep (s :: s' :: l)) with (s +:+ sep +:+ join sep (s' :: l)).
  destruct IH as [IH1 IH2]; [done|done|]. by apply clean_append.
Qed.

Lemma strip_join sep g :
  g <> [] -> Forall (fun s => clean s /\ s <> EmptyString) g ->
  strip (join sep g) = join sep g /\ join sep g <> EmptyString.
Proof.
  intros Hne Hg. destruct (clean_join sep g Hne Hg) as [H1 H2].
  split; [by apply clean_strip_fixed|done].
Qed.

(** The non-empty results of [strip]. *)
Lemma stripped_clean (pieces : list string) :
  Forall (fun s => clean s /\ s <> EmptyString)
    (filter (fun s => truthy s) (map strip pieces)).
Proof.
  apply Forall_forall. intros s Hs.
  apply list_elem_of_filter in Hs as [Htruthy Hs].
  apply list_elem_of_In, in_map_iff in Hs as (p & <- & _).
  split; [apply clean_strip|]. intros H. by rewrite H in Htruthy.
Qed.

(** *** The characters that are not whitespace *)

Lemma remove_space_append a b :
  remove_space (a +:+ b) = remove_space a +:+ remove_space b.
Proof.
  induction a as [|c a IH]; [done|].
  rewrite append_cons. simpl. destruct (isspace c); [done|].
  by rewrite append_cons, IH.
Qed.

Lemma remove_space_all_space s : all_space s = true -> remove_space s = EmptyString.
Proof.
  induction s as [|c s IH]; [done|]. simpl.
  destruct (isspace c); [exact IH|done].
Qed.

Lemma remove_space_lstrip s : remove_space (lstrip s) = remove_space s.
Proof.
  induction s as [|c s IH]; [done|]. simpl.
  destruct (isspace c) eqn:Hc; [done|]. simpl. by rewrite Hc.
Qed.

Lemma remove_space_rstrip s : remove_space (rstrip s) = remove_space s.
Proof.
  induction s as [|c s IH]; [done|]. simpl.
  destruct (rstrip s) as [|c' r] eqn:Hr.
  - rewrite <- IH. destruct (isspace c) eqn:Hc; [done|]. simpl. by rewrite Hc.
  - rewrite <- IH. done.
Qed.

Lemma remove_space_strip s : remove_space (strip s) = remove_space s.
Proof. unfold strip. by rewrite remove_space_rstrip, remove_space_lstrip. Qed.

Lemma append_assoc a b c : (a +:+ b) +:+ c = a +:+ b +:+ c.
Proof. induction a as [|x a IH]; [done|]. by rewrite !append_cons, IH. Qed.

Lemma append_nil_r a : a +:+ "" = a.
Proof. induction a as [|x a IH]; [done|]. by rewrite append_cons, IH. Qed.

Lemma rev_app_append a b : String.rev_app a b = String.rev a +:+ b.
Proof.
  unfold String.rev. revert b. induction a as [|c a IH]; intros b; [done|].
  simpl. rewrite IH, (IH (String c EmptyString)).
  by rewrite append_assoc.
Qed.

Lemma rev_cons c s : String.rev (String c s) = String.rev s +:+ String c EmptyString.
Proof. unfold String.rev at 1. simpl. by rewrite rev_app_append. Qed.

Lemma all_space_rev s : all_space (String.rev s) = all_space s.
Proof.
  induction s as [|c s IH]; [done|].
  rewrite rev_cons, all_space_append, IH. simpl. rewrite andb_true_r.
  apply andb_comm.
Qed.

(** The pieces of the sentence splitter hold every character of the
    text that is not whitespace, in the order of the text; they are all
    blank exactly when the text is. *)
Lemma split_go_all_space s :
  (forall p cur, forallb all_space (split_go (Piece p) cur s)
                 = all_space cur && all_space s)
  /\ forallb all_space (split_go Separator EmptyString s) = all_space s.
Proof.
  induction s as [|c s [IHp IHs]].
  - split; [|done]. intros p cur. simpl. by rewrite all_space_rev, !andb_true_r.
  - split.
    + intros p cur. simpl.
      destruct (p && isspace c) eqn:Hpc.
      * apply andb_true_iff in Hpc as [_ Hc]. simpl.
        rewrite all_space_rev, IHs, Hc. done.
      * rewrite IHp. simpl. by rewrite andb_assoc, (andb_comm (isspace c)).
    + simpl. destruct (isspace c) eqn:Hc; [by rewrite IHs|].
      rewrite IHp. simpl. by rewrite Hc.
Qed.

Lemma split_sentences_all_space text :
  forallb all_space (split_sentences text) = all_space text.
Proof. unfold split_sentences. by rewrite (proj1 (split_go_all_space text)). Qed.

Lemma split_go_remove_space s :
  (forall p cur, join "" (map remove_space (split_go (Piece p) cur s))
                 = remove_space (String.rev cur) +:+ remove_space s)
  /\ join "" (map remove_space (split_go Separator EmptyString s)) = remove_space s.
Proof.
  induction s as [|c s [IHp IHs]].
  - split; [|done]. intros p cur. simpl.
    by destruct (remove_space (String.rev cur)); simpl; rewrite ?append_nil_r.
  - split.
    + intros p cur. simpl.
      destruct (p && isspace c) eqn:Hpc.
      * apply andb_true_iff in Hpc as [_ Hc]. rewrite Hc.
        change (map remove_space (?x :: ?l)) with (remove_space x :: map remove_space l).
        unfold join in *. rewrite <- IHs.
        set (l := map remove_space (split_go Separator EmptyString s)).
        destruct l; simpl; [|done].
        by destruct (remove_space (String.rev cur)); simpl; rewrite ?append_nil_r.
      * rewrite IHp, rev_cons, remove_space_append. simpl.
        destruct (isspace c); rewrite ?append_assoc; [|done].
        by rewrite append_nil_l.
    + simpl. destruct (isspace c) eqn:Hc; [by rewrite IHs|].
      rewrite IHp. change (String.rev (String c EmptyString)) with (String c EmptyString).
      simpl. by rewrite Hc.
Qed.

Lemma join_empty_cons s l : join "" (s :: l) = s +:+ join "" l.
Proof.
  unfold join. destruct l as [|s' l]; simpl; [by rewrite append_nil_r|done].
Qed.

Lemma join_empty_app l1 l2 : join "" (l1 ++ l2) = join "" l1 +:+ join "" l2.
Proof.
  induction l1 as [|s l1 IH]; [done|].
  rewrite <- app_comm_cons, !join_empty_cons, IH. by rewrite append_assoc.
Qed.

(** Joining with a space adds nothing but whitespace. *)
Lemma remove_space_join_space g :
  remove_space (join " " g) = join "" (map remove_space g).
Proof.
  induction g as [|s l IH]; [done|].
  destruct l as [|s' l].
  - done.
  - change (join " " (s :: s' :: l)) with (s +:+ " " +:+ join " " (s' :: l)).
    rewrite !remove_space_append, IH.
    change (map remove_space (s :: s' :: l))
      with (remove_space s :: map remove_space (s' :: l)).
    by rewrite join_empty_cons.
Qed.

Lemma remove_space_join_empty l :
  remove_space (join "" l) = join "" (map remove_space l).
Proof.
  induction l as [|s l IH]; [done|].
  change (map remove_space (s :: l)) with (remove_space s :: map remove_space l).
  by rewrite !join_empty_cons, remove_space_append, IH.
Qed.

Lemma join_empty_concat (parts : list (list string)) :
  join "" (map (join "") parts) = join "" (concat parts).
Proof.
  induction parts as [|p parts IH]; [done|].
  change (map (join "") (p :: parts)) with (join "" p :: map (join "") parts).
  simpl concat. by rewrite join_empty_cons, join_empty_app, IH.
Qed.

(** Stripping the pieces and dropping the blank ones loses nothing but
    whitespace. *)
Lemma remove_space_stripped pieces :
  join "" (map remove_space (filter (fun s => truthy s) (map strip pieces)))
  = join "" (map remove_space pieces).
Proof.
  induction pieces as [|p pieces IH]; [done|].
  change (map strip (p :: pieces)) with (strip p :: map strip pieces).
  change (map remove_space (p :: pieces))
    with (remove_space p :: map remove_space pieces).
  rewrite join_empty_cons, <- IH.
  destruct (truthy (strip p)) eqn:Hp.
  - rewrite filter_cons_True by (rewrite Hp; exact I).
    change (map remove_space (?x :: ?l)) with (remove_space x :: map remove_space l).
    by rewrite join_empty_cons, remove_space_strip.
  - rewrite filter_cons_False by (rewrite Hp; exact id).
    rewrite truthy_strip in Hp. apply negb_false_iff in Hp.
    by rewrite (remove_space_all_space p Hp), append_nil_l.
Qed.

End Strip_facts.

(** * Facts about lists *)

Section List_facts.

Context {A : Type} (R : A -> A -> Prop).

Lemma consecutive_nil : consecutive R [].
Proof. intros i a b H. by rewrite lookup_nil in H. Qed.

Lemma consecutive_singleton x : consecutive R [x].
Proof. intros i a b _ H. by destruct i. Qed.

Lemma consecutive_cons x y l :
  R x y -> consecutive R (y :: l) -> consecutive R (x :: y :: l).
Proof.
  intros Hxy Hl [|i] a b Ha Hb; simpl in Ha, Hb.
  - congruence.
  - eauto.
Qed.

Lemma consecutive_snoc l x y :
  consecutive R (l ++ [x]) -> R x y -> consecutive R ((l ++ [x]) ++ [y]).
Proof.
  intros Hl Hxy i a b Ha Hb.
  destruct (decide (S i < length (l ++ [x]))%nat) as [Hlt|Hge].
  - rewrite lookup_app_l in Ha by lia. rewrite lookup_app_l in Hb by lia. eauto.
  - apply lookup_lt_Some in Hb as Hlen.
    repeat rewrite length_app in Hlen. repeat rewrite length_app in Hge.
    simpl in Hlen, Hge. assert (i = length l) as -> by lia.
    rewrite lookup_app_l in Ha by (rewrite length_app; simpl; lia).
    rewrite list_lookup_middle in Ha by done.
    rewrite lookup_app_r in Hb by (rewrite length_app; simpl; lia).
    rewrite length_app in Hb. simpl in Hb.
    replace (S (length l) - (length l + 1))%nat with 0%nat in Hb by lia.
    simpl in Hb. congruence.
Qed.

Lemma consecutive_change_last l x y :
  consecutive R (l ++ [x]) -> (forall a, R a x -> R a y) -> consecutive R (l ++ [y]).
Proof.
  intros Hl Hxy i a b Ha Hb.
  apply lookup_lt_Some in Hb as Hlen. rewrite length_app in Hlen. simpl in Hlen.
  rewrite lookup_app_l in Ha by lia.
  destruct (decide (S i = length l)) as [Heq|Hne].
  - rewrite list_lookup_middle in Hb by done. injection Hb as <-.
    apply Hxy, (Hl i); [by rewrite lookup_app_l by lia|].
    by rewrite list_lookup_middle.
  - rewrite lookup_app_l in Hb by lia.
    apply (Hl i); by rewrite lookup_app_l by lia.
Qed.

End List_facts.

(** * Facts about the Text Chunker *)

Section Chunker_facts.

Import Chunker.

Variables chunk_size overlap : Z.

Lemma emit_inked (done_chunks : list string) (g : list string) :
  g <> [] -> Forall (fun s => all_space s = false) g ->
  emit done_chunks g = done_chunks ++ [join " " g].
Proof.
  intros Hne Hg. unfold emit.
  rewrite truthy_strip, all_space_join_space.
  destruct g as [|s l]; [done|].
  apply Forall_cons in Hg as [Hs _]. simpl. by rewrite Hs.
Qed.

Lemma overlap_loop_take_within r acc sz :
  overlap_loop overlap r acc sz
  = (rev (take_within (overlap - sz) r) ++ acc,
     sz + sum_len (take_within (overlap - sz) r)).
Proof.
  revert acc sz. induction r as [|s r IH]; intros acc sz; simpl.
  - f_equal. lia.
  - destruct (Z.leb_spec (sz + len s) overlap) as [H|H];
      destruct (Z.leb_spec (len s) (overlap - sz)) as [H'|H']; try lia.
    + rewrite IH. replace (overlap - (sz + len s)) with (overlap - sz - len s) by lia.
      simpl. rewrite <- app_assoc. simpl. f_equal. lia.
    + simpl. f_equal. lia.
Qed.

Lemma overlap_seed_take_within g :
  overlap_seed overlap g = rev (take_within overlap (rev g)).
Proof.
  unfold overlap_seed. rewrite overlap_loop_take_within. simpl.
  rewrite app_nil_r. by rewrite Z.sub_0_r.
Qed.

Lemma sum_len_rev l : sum_len (rev l) = sum_len l.
Proof.
  induction l as [|s l IH]; [done|].
  simpl. rewrite sum_len_app, IH. simpl. lia.
Qed.

Lemma overlap_loop_size g :
  (overlap_loop overlap (rev g) [] 0).2 = sum_len (overlap_seed overlap g).
Proof.
  rewrite overlap_seed_take_within, overlap_loop_take_within. simpl.
  rewrite sum_len_rev. by rewrite Z.sub_0_r.
Qed.

Lemma take_within_prefix budget r : take_within budget r `prefix_of` r.
Proof.
  revert budget. induction r as [|s r IH]; intros budget; simpl.
  - done.
  - destruct (len s <=? budget); [by apply prefix_cons | apply prefix_nil].
Qed.

Lemma take_within_sum budget r : sum_len (take_within budget r) <= Z.max 0 budget.
Proof.
  revert budget. induction r as [|s r IH]; intros budget; simpl; [lia|].
  destruct (Z.leb_spec (len s) budget); simpl; [|lia].
  specialize (IH (budget - len s)). pose proof (len_nonneg s). lia.
Qed.

Lemma take_within_maximal budget r p :
  p `prefix_of` r -> sum_len p <= budget -> p `prefix_of` take_within budget r.
Proof.
  revert budget p. induction r as [|s r IH]; intros budget p Hp Hsum.
  - apply prefix_nil_inv in Hp as ->. done.
  - destruct p as [|s' p]; [apply prefix_nil|].
    apply prefix_cons_inv_1 in Hp as Hs. subst s'.
    apply prefix_cons_inv_2 in Hp. simpl in Hsum |- *.
    pose proof (sum_len_nonneg p).
    destruct (Z.leb_spec (len s) budget); [|lia].
    apply prefix_cons, IH; [done|lia].
Qed.

Lemma take_within_nonempty budget s r :
  len s <= budget -> take_within budget (s :: r) <> [].
Proof. intros H. simpl. by destruct (Z.leb_spec (len s) budget); [|lia]. Qed.

Lemma suffix_prefix_rev (l1 l2 : list string) :
  l1 `suffix_of` l2 <-> rev l1 `prefix_of` rev l2.
Proof.
  split.
  - intros [k ->]. exists (rev k). apply rev_app_distr.
  - intros [k Hk]. exists (rev k).
    rewrite <- (rev_involutive l2), Hk, rev_app_distr. by rewrite rev_involutive.
Qed.

(** The seed is a suffix of the closed chunk's sentences. *)
Lemma overlap_seed_suffix g : overlap_seed overlap g `suffix_of` g.
Proof.
  rewrite overlap_seed_take_within.
  apply suffix_prefix_rev. rewrite rev_involutive. apply take_within_prefix.
Qed.

Lemma overlap_seed_sum g : sum_len (overlap_seed overlap g) <= Z.max 0 overlap.
Proof. rewrite overlap_seed_take_within, sum_len_rev. apply take_within_sum. Qed.

(** It is the longest suffix that fits in [overlap]. *)
Lemma overlap_seed_maximal g t :
  t `suffix_of` g -> sum_len t <= overlap -> t `suffix_of` overlap_seed overlap g.
Proof.
  intros Ht Hsum. rewrite overlap_seed_take_within.
  apply suffix_prefix_rev. rewrite rev_involutive.
  apply take_within_maximal; [|by rewrite sum_len_rev].
  by apply suffix_prefix_rev.
Qed.

(** It is not empty as soon as the last sentence fits. *)
Lemma overlap_seed_nonempty g s :
  last g = Some s -> len s <= overlap -> overlap_seed overlap g <> [].
Proof.
  intros Hlast Hs. rewrite overlap_seed_take_within.
  destruct (rev g) as [|s' r] eqn:Hr.
  - apply (f_equal (@rev _)) in Hr. rewrite rev_involutive in Hr. by subst g.
  - apply (f_equal (@rev _)) in Hr. rewrite rev_involutive in Hr. subst g.
    simpl in Hlast. rewrite last_snoc in Hlast. injection Hlast as ->.
    intros Hnil. apply (f_equal (@rev _)) in Hnil. rewrite rev_involutive in Hnil.
    by apply (take_within_nonempty overlap s r) in Hs.
Qed.

(** It is empty when the last sentence does not fit. *)
Lemma overlap_seed_empty g s :
  last g = Some s -> overlap < len s -> overlap_seed overlap g = [].
Proof.
  intros Hlast Hs. rewrite overlap_seed_take_within.
  destruct (rev g) as [|s' r] eqn:Hr; [done|].
  apply (f_equal (@rev _)) in Hr. rewrite rev_involutive in Hr. subst g.
  simpl in Hlast. rewrite last_snoc in Hlast. injection Hlast as ->.
  simpl. by destruct (Z.leb_spec (len s) overlap); [lia|].
Qed.

Lemma overlap_loop_seed g :
  overlap_loop overlap (rev g) [] 0
  = (overlap_seed overlap g, sum_len (overlap_seed overlap g)).
Proof.
  rewrite overlap_seed_take_within, overlap_loop_take_within, sum_len_rev.
  by rewrite app_nil_r, Z.sub_0_r, Z.add_0_l.
Qed.

Lemma step_skip st piece :
  truthy (strip piece) = false -> step chunk_size overlap st piece = st.
Proof. intros H. unfold step. by rewrite H. Qed.

Lemma step_refines st gs piece :
  refines st gs -> truthy (strip piece) = true ->
  refines (step chunk_size overlap st piece)
          (group_step chunk_size overlap gs (strip piece)).
Proof.
  intros (Hchunks & Hcur & Hsize & Hink) Hs.
  pose proof (all_space_truthy_strip _ Hs) as Hs'.
  unfold step, group_step. rewrite Hs, Hcur, Hsize. simpl negb. cbv iota.
  destruct ((sum_len (open gs) + len (strip piece) >? chunk_size)
            && negb (bool_decide (open gs = []))) eqn:Hclose.
  - apply andb_true_iff in Hclose as [_ Hne].
    apply negb_true_iff, bool_decide_eq_false in Hne.
    rewrite overlap_loop_seed. unfold refines. simpl.
    rewrite emit_inked, Hchunks, map_app by done.
    repeat split; [by rewrite sum_len_app; simpl; lia|].
    apply Forall_app. split; [|by apply Forall_singleton].
    destruct (overlap_seed_suffix (open gs)) as [k Hk].
    rewrite Hk in Hink. by apply Forall_app in Hink as [_ ?].
  - unfold refines. simpl. rewrite Hcur, Hsize.
    repeat split; [done|by rewrite sum_len_app; simpl; lia|].
    apply Forall_app. split; [done|by apply Forall_singleton].
Qed.

Lemma fold_refines pieces st gs :
  refines st gs ->
  refines (fold_left (step chunk_size overlap) pieces st)
          (fold_left (group_step chunk_size overlap)
             (filter (fun s => truthy s) (map strip pieces)) gs).
Proof.
  revert st gs. induction pieces as [|piece pieces IH]; intros st gs H; [done|].
  change (map strip (piece :: pieces)) with (strip piece :: map strip pieces).
  destruct (truthy (strip piece)) eqn:Hs.
  - rewrite filter_cons_True by (rewrite Hs; exact I).
    simpl. by apply IH, step_refines.
  - rewrite filter_cons_False by (rewrite Hs; exact id).
    simpl. rewrite step_skip by done. by apply IH.
Qed.

(** Joining the groups of sentences gives the chunks. *)
Lemma create_chunks_groups text :
  create_chunks text chunk_size overlap
  = map (join " ") (chunk_groups chunk_size overlap (sentences_of text)).
Proof.
  unfold create_chunks. destruct text as [|c text]; [done|]. simpl negb. cbv iota.
  unfold chunk_groups, sentences_of, all_groups.
  set (pieces := split_sentences (String c text)).
  destruct (fold_refines pieces init (mkGroups [] [])) as (Hchunks & Hcur & _ & Hink).
  { repeat split; done. }
  rewrite Hcur, Hchunks. rewrite map_app.
  case_bool_decide as Hopen; [by rewrite app_nil_r|].
  rewrite emit_inked by done. done.
Qed.

Lemma groups_ok_step seen st sentence :
  groups_ok chunk_size overlap seen st ->
  groups_ok chunk_size overlap (seen ++ [sentence])
    (group_step chunk_size overlap st sentence).
Proof.
  intros (Hall & Hlink & Hopen).
  assert (Hmono : Forall (fun g => g <> [] /\ size_ok chunk_size overlap g
                     /\ Forall (fun s => s ∈ seen ++ [sentence]) g) (all_groups st)).
  { eapply Forall_impl; [exact Hall|]. intros g (? & ? & Hg). split_and!; try done.
    eapply Forall_impl; [exact Hg|]. intros s ?. apply elem_of_app. by left. }
  unfold group_step.
  destruct ((sum_len (open st) + len sentence >? chunk_size)
            && negb (bool_decide (open st = []))) eqn:Hclose.
  - apply andb_true_iff in Hclose as [_ Hne].
    apply negb_true_iff, bool_decide_eq_false in Hne.
    assert (Hgs : all_groups st = closed st ++ [open st]).
    { unfold all_groups. by rewrite bool_decide_eq_false_2. }
    assert (Hgs' : all_groups (mkGroups (closed st ++ [open st])
                     (overlap_seed overlap (open st) ++ [sentence]))
                   = (closed st ++ [open st])
                       ++ [overlap_seed overlap (open st) ++ [sentence]]).
    { unfold all_groups. simpl. rewrite bool_decide_eq_false_2; [done|].
      by destruct (overlap_seed overlap (open st)). }
    unfold groups_ok. rewrite Hgs'. rewrite Hgs in Hmono, Hlink, Hall.
    split_and!.
    + apply Forall_app. split; [done|]. apply Forall_singleton. split_and!.
      * by destruct (overlap_seed overlap (open st)).
      * right. eexists _, _. split; [done|]. apply overlap_seed_sum.
      * apply Forall_app. split; [|apply Forall_singleton, elem_of_app; right; by left].
        apply Forall_app in Hmono as [_ Hopen']. apply Forall_inv in Hopen'.
        destruct Hopen' as (_ & _ & Hin).
        destruct (overlap_seed_suffix (open st)) as [k Hk].
        rewrite Hk in Hin. by apply Forall_app in Hin as [_ ?].
    + apply consecutive_snoc; [done|]. by exists [sentence].
    + simpl. intros Hnil. by destruct (overlap_seed overlap (open st)).
  - assert (Hgs' : all_groups (mkGroups (closed st) (open st ++ [sentence]))
                   = closed st ++ [open st ++ [sentence]]).
    { unfold all_groups. simpl. rewrite bool_decide_eq_false_2; [done|].
      by destruct (open st). }
    unfold groups_ok. rewrite Hgs'.
    destruct (decide (open st = [])) as [Hnil|Hne].
    + rewrite (Hopen Hnil), Hnil. simpl. split_and!.
      * apply Forall_singleton. split_and!; [done| |].
        -- right. exists [], sentence. split; [done|]. simpl. lia.
        -- apply Forall_singleton, elem_of_app. right. by left.
      * apply consecutive_singleton.
      * done.
    + assert (Hgs : all_groups st = closed st ++ [open st]).
      { unfold all_groups. by rewrite bool_decide_eq_false_2. }
      rewrite Hgs in Hmono, Hlink.
      apply andb_false_iff in Hclose as [Hfit|Hempty];
        [|by apply negb_false_iff, bool_decide_eq_true in Hempty].
      rewrite Z.gtb_ltb in Hfit. apply Z.ltb_ge in Hfit.
      apply Forall_app in Hmono as [Hclosed Hopen'].
      apply Forall_inv in Hopen'. destruct Hopen' as (_ & _ & Hin).
      split_and!.
      * apply Forall_app. split; [done|]. apply Forall_singleton. split_and!.
        -- by destruct (open st).
        -- left. rewrite sum_len_app. simpl. lia.
        -- apply Forall_app. split; [done|].
           apply Forall_singleton, elem_of_app. right. by left.
      * eapply consecutive_change_last; [exact Hlink|].
        intros a (rest & Hrest & ->). exists (rest ++ [sentence]).
        split; [by destruct rest|by rewrite app_assoc].
      * simpl. intros Hnil. by destruct (open st).
Qed.

Lemma groups_ok_fold sentences :
  groups_ok chunk_size overlap sentences
    (fold_left (group_step chunk_size overlap) sentences (mkGroups [] [])).
Proof.
  induction sentences as [|sentence sentences IH] using rev_ind.
  - split_and!; [by apply Forall_nil|apply consecutive_nil|done].
  - rewrite fold_left_app. simpl. by apply groups_ok_step.
Qed.

End Chunker_facts.

(** * The Text Chunker: chunk sizes and overlaps (C1, C8) *)

Section Chunker_claims.

Import Chunker.

(** C1 as it is stated does not hold: with chunk size 6 and overlap 0
    the text ["ab. cd."] gives the one chunk ["ab. cd."] of 7
    characters, made of two sentences: the test of the loop counts the
    characters of the sentences, not the spaces that join them. *)
Lemma create_chunks_exceeds_chunk_size :
  ~ (forall (text : string) (chunk_size overlap : Z) (c : string),
       overlap < chunk_size ->
       c ∈ create_chunks text chunk_size overlap ->
       len c <= chunk_size \/ (c ∈ sentences_of text /\ chunk_size < len c)).
Proof.
  intros H.
  destruct (H "ab. cd."%string 6 0 "ab. cd."%string) as [Hlen|[Hin _]].
  - lia.
  - apply (bool_decide_unpack _). by vm_compute.
  - vm_compute in Hlen. by apply Hlen.
  - apply (bool_decide_pack _) in Hin. by vm_compute in Hin.
Qed.

(** The same happens without counting the spaces: a chunk that starts
    with an overlap seed takes the next sentence whatever its length. *)
Example create_chunks_seed_then_sentence :
  create_chunks "aaaa. bbbbbbbb." 10 5 = ["aaaa."; "aaaa. bbbbbbbb."]%string.
Proof. by vm_compute. Qed.

(** The scenario of the specification. *)
Example create_chunks_A_B_C :
  create_chunks "A. B. C." 2 1 = ["A."; "B."; "C."]%string.
Proof. by vm_compute. Qed.

(** C1, amended.  Every chunk is the join, with single spaces, of a
    non-empty group of sentences of the text, so its length is the total
    of the sentence lengths plus one per joining space; and that total
    is at most the chunk size, unless the group is an overlap seed (of
    total at most the overlap) followed by exactly one sentence, which
    includes a sentence alone, emitted verbatim whatever its length. *)
Theorem create_chunks_size (text : string) (chunk_size overlap : Z) (c : string) :
  c ∈ create_chunks text chunk_size overlap ->
  exists g : list string,
    c = join " " g
    /\ g <> []
    /\ Forall (fun s => s ∈ sentences_of text) g
    /\ len c = sum_len g + (Z.of_nat (length g) - 1)
    /\ (sum_len g <= chunk_size
        \/ exists seed s, g = seed ++ [s] /\ sum_len seed <= Z.max 0 overlap).
Proof.
  rewrite create_chunks_groups. intros Hc.
  apply list_elem_of_In, in_map_iff in Hc as (g & <- & Hg).
  apply list_elem_of_In in Hg.
  destruct (groups_ok_fold chunk_size overlap (sentences_of text)) as (Hall & _ & _).
  rewrite Forall_forall in Hall. destruct (Hall g Hg) as (Hne & Hsize & Hin).
  exists g. split_and!; try done. by apply len_join_space.
Qed.

Lemma create_chunks_size_witness :
  exists g : list string,
    "ab. cd."%string = join " " g
    /\ g <> []
    /\ Forall (fun s => s ∈ sentences_of "ab. cd.") g
    /\ len "ab. cd." = sum_len g + (Z.of_nat (length g) - 1)
    /\ (sum_len g <= 6
        \/ exists seed s, g = seed ++ [s] /\ sum_len seed <= Z.max 0 0).
Proof.
  apply (create_chunks_size "ab. cd." 6 0 "ab. cd.").
  apply (bool_decide_unpack _). vm_compute. exact I.
Defined.

(** A character of a string is one of its characters. *)
Lemma elem_of_append_cons pre x rest :
  x ∈ list_ascii_of_string (pre +:+ String x rest).
Proof.
  induction pre as [|c pre IH]; simpl.
  - by left.
  - by right.
Qed.

(** C8 as it is stated does not hold: with chunk size 15 and overlap 5,
    two sentences of 13 characters give two chunks that share nothing,
    though the first chunk has more than 5 characters before the second:
    the seed is made of whole sentences, and the last sentence of the
    closed chunk does not fit in the overlap. *)
Lemma create_chunks_overlap_empty :
  ~ (forall (text : string) (chunk_size overlap : Z) (i : nat) (c c' : string),
       0 < overlap ->
       create_chunks text chunk_size overlap !! i = Some c ->
       create_chunks text chunk_size overlap !! (S i) = Some c' ->
       overlap <= len c ->
       exists shared : string,
         shared <> EmptyString
         /\ len shared <= overlap
         /\ (exists pre, c = pre +:+ shared)
         /\ (exists post, c' = shared +:+ post)).
Proof.
  intros H.
  destruct (H "aaaaaaaaaaaa. bbbbbbbbbbbb."%string 15 5 0%nat
              "aaaaaaaaaaaa."%string "bbbbbbbbbbbb."%string)
    as (shared & Hne & _ & [pre Hpre] & [post Hpost]).
  - lia.
  - by vm_compute.
  - by vm_compute.
  - by vm_compute.
  - destruct shared as [|x shared]; [done|].
    rewrite append_cons in Hpost. injection Hpost as <- _.
    pose proof (elem_of_append_cons pre "b" shared) as Hin.
    rewrite <- Hpre in Hin. apply list_elem_of_In in Hin. simpl in Hin.
    repeat destruct Hin as [Hin|Hin]; done.
Qed.

(** The sizes of the pipeline, 64 and 10: no sentence of more than 10
    characters is ever repeated. *)
Example create_chunks_64_10 :
  create_chunks
    "The crawler fetches the pages. The cleaner takes the text. The chunker cuts it up."
    64 10
  = ["The crawler fetches the pages. The cleaner takes the text.";
     "The chunker cuts it up."]%string.
Proof. by vm_compute. Qed.

(** C8, amended.  Two consecutive chunks [c], [c'] are the joins of two
    consecutive groups of sentences, and the second group begins with the
    overlap seed of the first: the longest suffix of its sentences whose
    lengths total at most the overlap.  The seed is not empty exactly
    when the last sentence of the first chunk fits in the overlap;
    otherwise the second chunk repeats nothing, however long the first
    chunk is. *)
Theorem create_chunks_overlap (text : string) (chunk_size overlap : Z)
    (i : nat) (c c' : string) :
  create_chunks text chunk_size overlap !! i = Some c ->
  create_chunks text chunk_size overlap !! (S i) = Some c' ->
  exists (g rest : list string) (s : string),
    chunk_groups chunk_size overlap (sentences_of text) !! i = Some g
    /\ c = join " " g
    /\ c' = join " " (overlap_seed overlap g ++ rest)
    /\ rest <> []
    /\ overlap_seed overlap g `suffix_of` g
    /\ sum_len (overlap_seed overlap g) <= Z.max 0 overlap
    /\ (forall t, t `suffix_of` g -> sum_len t <= overlap ->
                  t `suffix_of` overlap_seed overlap g)
    /\ last g = Some s
    /\ (overlap_seed overlap g <> [] <-> len s <= overlap).
Proof.
  rewrite create_chunks_groups. intros Hc Hc'.
  rewrite list_lookup_fmap in Hc, Hc'.
  destruct (chunk_groups chunk_size overlap (sentences_of text) !! i) as [g|] eqn:Hg;
    [|done].
  destruct (chunk_groups chunk_size overlap (sentences_of text) !! S i) as [g'|] eqn:Hg';
    [|done].
  injection Hc as <-. injection Hc' as <-.
  destruct (groups_ok_fold chunk_size overlap (sentences_of text)) as (Hall & Hlink & _).
  destruct (Hlink i g g' Hg Hg') as (rest & Hrest & ->).
  assert (Hne : g <> []).
  { rewrite Forall_forall in Hall. apply (Hall g). by eapply list_elem_of_lookup_2. }
  destruct (last g) as [s|] eqn:Hlast; [|by apply last_None in Hlast].
  exists g, rest, s. split_and!; try done.
  - apply overlap_seed_suffix.
  - apply overlap_seed_sum.
  - apply overlap_seed_maximal.
  - split.
    + intros Hseed. destruct (Z.le_gt_cases (len s) overlap) as [?|Hgt]; [done|].
      destruct Hseed. by apply (overlap_seed_empty overlap g s).
    + by apply overlap_seed_nonempty.
Qed.

Lemma create_chunks_overlap_witness :
  exists (g rest : list string) (s : string),
    chunk_groups 6 3 (sentences_of "aa. bb. cc.") !! 0%nat = Some g
    /\ "aa. bb."%string = join " " g
    /\ "bb. cc."%string = join " " (overlap_seed 3 g ++ rest)
    /\ rest <> []
    /\ overlap_seed 3 g `suffix_of` g
    /\ sum_len (overlap_seed 3 g) <= Z.max 0 3
    /\ (forall t, t `suffix_of` g -> sum_len t <= 3 -> t `suffix_of` overlap_seed 3 g)
    /\ last g = Some s
    /\ (overlap_seed 3 g <> [] <-> len s <= 3).
Proof.
  apply (create_chunks_overlap "aa. bb. cc." 6 3 0 "aa. bb." "bb. cc.");
    vm_compute; reflexivity.
Defined.

End Chunker_claims.

(** * The Text Chunker: what the chunks keep of the text *)

Section Chunker_more.

Import Chunker.

Variables chunk_size overlap : Z.

Local Abbreviation group_step := (group_step chunk_size overlap).
Local Abbreviation chunk_groups := (chunk_groups chunk_size overlap).
Local Abbreviation with_overlap := (with_overlap overlap).
Local Abbreviation parts_inv := (parts_inv overlap).

Lemma group_step_open st sentence : open (group_step st sentence) <> [].
Proof.
  unfold Chunker.group_step.
  destruct ((sum_len (open st) + len sentence >? chunk_size)
            && negb (bool_decide (open st = []))); simpl.
  - by destruct (overlap_seed overlap (open st)).
  - by destruct (open st).
Qed.

Lemma chunk_groups_nil sentences : chunk_groups sentences = [] <-> sentences = [].
Proof.
  split; [|by intros ->].
  destruct sentences as [|s l] using rev_ind; [done|].
  unfold Chunker.chunk_groups. rewrite fold_left_app. simpl. unfold all_groups.
  rewrite bool_decide_eq_false_2 by apply group_step_open.
  intros H. by apply app_eq_nil in H as [_ ?].
Qed.

Lemma sentences_of_nil text : sentences_of text = [] <-> all_space text = true.
Proof.
  unfold sentences_of. rewrite <- split_sentences_all_space.
  induction (split_sentences text) as [|p pieces IH]; [done|].
  change (map strip (p :: pieces)) with (strip p :: map strip pieces).
  simpl forallb. pose proof (truthy_strip p) as Hp.
  destruct (all_space p); simpl in Hp.
  - rewrite filter_cons_False by (rewrite Hp; exact id). by rewrite IH.
  - rewrite filter_cons_True by (rewrite Hp; exact I). done.
Qed.

Lemma sentences_of_clean text :
  Forall (fun s => clean s /\ s <> EmptyString) (sentences_of text).
Proof. apply stripped_clean. Qed.

(** Every group is made of sentences of the text and is not empty. *)
Lemma chunk_groups_sentences text g :
  g ∈ chunk_groups (sentences_of text) ->
  g <> [] /\ Forall (fun s => clean s /\ s <> EmptyString) g.
Proof.
  intros Hg.
  destruct (groups_ok_fold chunk_size overlap (sentences_of text)) as (Hall & _ & _).
  rewrite Forall_forall in Hall. destruct (Hall g Hg) as (Hne & _ & Hin).
  split; [done|]. eapply Forall_impl; [exact Hin|]. intros s Hs. simpl in Hs.
  pose proof (sentences_of_clean text) as Hclean.
  rewrite Forall_forall in Hclean. by apply Hclean.
Qed.

Lemma last_cons_default {A} (x d : A) l : default d (last (x :: l)) = default x (last l).
Proof. rewrite last_cons. by destruct (last l). Qed.

Lemma with_overlap_snoc previous parts part :
  with_overlap previous (parts ++ [part])
  = with_overlap previous parts
    ++ [overlap_seed overlap (default previous (last (with_overlap previous parts)))
        ++ part].
Proof.
  revert previous. induction parts as [|p parts IH]; intros previous; [done|].
  simpl. rewrite IH. by rewrite last_cons_default.
Qed.

Lemma length_with_overlap previous parts :
  length (with_overlap previous parts) = length parts.
Proof.
  revert previous. induction parts as [|p parts IH]; intros previous; simpl; [done|].
  by rewrite IH.
Qed.

Lemma length_concat_parts {A} (parts : list (list A)) :
  Forall (fun p => p <> []) parts -> (length parts <= length (concat parts))%nat.
Proof.
  induction 1 as [|p parts Hp _ IH]; simpl; [done|].
  rewrite length_app. destruct p; [done|]. simpl. lia.
Qed.

Lemma parts_inv_step seen st sentence :
  parts_inv seen st -> parts_inv (seen ++ [sentence]) (group_step st sentence).
Proof.
  intros (parts & Hcat & Hne & Hgs & Hopen).
  unfold Chunker.group_step.
  destruct ((sum_len (open st) + len sentence >? chunk_size)
            && negb (bool_decide (open st = []))) eqn:Hclose.
  - apply andb_true_iff in Hclose as [_ Hnil].
    apply negb_true_iff, bool_decide_eq_false in Hnil.
    exists (parts ++ [[sentence]]). split_and!.
    + rewrite concat_app. simpl. by rewrite Hcat.
    + apply Forall_app. split; [done|]. by apply Forall_singleton.
    + unfold all_groups in *. simpl.
      rewrite bool_decide_eq_false_2 in Hgs by done.
      rewrite bool_decide_eq_false_2 by (by destruct (overlap_seed overlap (open st))).
      rewrite with_overlap_snoc, <- Hgs, last_snoc. done.
    + simpl. intros H. by destruct (overlap_seed overlap (open st)).
  - destruct (decide (open st = [])) as [Hnil|Hnil].
    + unfold all_groups in Hgs. rewrite (Hopen Hnil), Hnil in Hgs. simpl in Hgs.
      destruct parts as [|p parts]; [|done].
      simpl in Hcat. subst seen.
      exists [[sentence]]. rewrite Hnil, (Hopen Hnil). split_and!; try done.
      by apply Forall_singleton.
    + unfold all_groups in Hgs. rewrite bool_decide_eq_false_2 in Hgs by done.
      destruct parts as [|p parts _] using rev_ind; [by destruct (closed st)|].
      rewrite with_overlap_snoc in Hgs. apply app_inj_tail in Hgs as [Hclosed Hlast].
      exists (parts ++ [p ++ [sentence]]). split_and!.
      * rewrite concat_app in Hcat |- *. simpl in Hcat |- *.
        rewrite app_nil_r in Hcat |- *. by rewrite <- Hcat, !app_assoc.
      * apply Forall_app in Hne as [Hne _]. apply Forall_app. split; [done|].
        apply Forall_singleton. by destruct p.
      * unfold all_groups. simpl.
        rewrite bool_decide_eq_false_2 by (by destruct (open st)).
        rewrite with_overlap_snoc, Hclosed, Hlast. by rewrite app_assoc.
      * simpl. intros H. by destruct (open st).
Qed.

Lemma parts_inv_fold sentences :
  parts_inv sentences (fold_left group_step sentences (mkGroups [] [])).
Proof.
  induction sentences as [|sentence sentences IH] using rev_ind.
  - exists []. split_and!; done.
  - rewrite fold_left_app. simpl. by apply parts_inv_step.
Qed.

Lemma chunk_groups_parts sentences :
  exists parts,
    concat parts = sentences
    /\ Forall (fun p => p <> []) parts
    /\ chunk_groups sentences = with_overlap [] parts.
Proof.
  destruct (parts_inv_fold sentences) as (parts & ? & ? & ? & _). by exists parts.
Qed.

(** Without room for an overlap no sentence is taken over. *)
Lemma overlap_seed_none g :
  overlap <= 0 -> Forall (fun s => s <> EmptyString) g -> overlap_seed overlap g = [].
Proof.
  intros Ho Hg.
  pose proof (overlap_seed_sum overlap g) as Hsum.
  destruct (overlap_seed_suffix overlap g) as [k Hk].
  destruct (overlap_seed overlap g) as [|s seed]; [done|].
  rewrite Hk in Hg. apply Forall_app in Hg as [_ Hg]. apply Forall_cons in Hg as [Hs _].
  simpl in Hsum. pose proof (sum_len_nonneg seed).
  assert (0 < len s) by (apply truthy_len; by destruct s). lia.
Qed.

Lemma with_overlap_none previous parts :
  overlap <= 0 ->
  Forall (fun s => s <> EmptyString) previous ->
  Forall (Forall (fun s => s <> EmptyString)) parts ->
  with_overlap previous parts = parts.
Proof.
  intros Ho Hprev Hparts. revert previous Hprev.
  induction Hparts as [|p parts Hp _ IH]; intros previous Hprev; [done|].
  simpl. rewrite overlap_seed_none by done. simpl. by rewrite IH.
Qed.

Lemma Forall_concat_parts {A} (P : A -> Prop) (parts : list (list A)) :
  Forall P (concat parts) -> Forall (Forall P) parts.
Proof.
  induction parts as [|p parts IH]; simpl; [done|].
  intros H. apply Forall_app in H as [? ?]. apply Forall_cons. split; [done|by apply IH].
Qed.

(** When everything fits, the loop closes no group. *)
Lemma fold_group_step_fits sentences acc :
  sum_len acc + sum_len sentences <= chunk_size ->
  fold_left group_step sentences (mkGroups [] acc) = mkGroups [] (acc ++ sentences).
Proof.
  revert acc. induction sentences as [|s l IH]; intros acc Hfit.
  - by rewrite app_nil_r.
  - simpl in Hfit. pose proof (sum_len_nonneg l) as Hl.
    simpl. unfold Chunker.group_step at 2. simpl.
    replace (sum_len acc + len s >? chunk_size) with false
      by (symmetry; rewrite Z.gtb_ltb; apply Z.ltb_ge; lia).
    simpl. rewrite IH by (rewrite sum_len_app; simpl; lia).
    by rewrite <- app_assoc.
Qed.

(** What the callers that validate the chunks rely on. *)
Lemma create_chunks_nil_iff text :
  create_chunks text chunk_size overlap = [] <-> all_space text = true.
Proof.
  rewrite create_chunks_groups. split.
  - intros H. apply map_eq_nil, chunk_groups_nil in H. by apply sentences_of_nil.
  - intros H. apply sentences_of_nil in H. by rewrite H.
Qed.

Lemma create_chunks_filter text :
  filter (fun chunk => truthy (strip chunk)) (create_chunks text chunk_size overlap)
  = create_chunks text chunk_size overlap.
Proof.
  assert (H : Forall (fun chunk => strip chunk = chunk /\ chunk <> EmptyString)
                (create_chunks text chunk_size overlap)).
  { rewrite create_chunks_groups. apply Forall_forall. intros c Hc.
    apply list_elem_of_In, in_map_iff in Hc as (g & <- & Hg).
    apply list_elem_of_In, chunk_groups_sentences in Hg as [Hne Hg].
    by apply strip_join. }
  induction H as [|c l [Hc Hne] _ IH]; [done|].
  rewrite filter_cons_True; [by rewrite IH|].
  rewrite Hc. by destruct c.
Qed.

End Chunker_more.

Section Chunker_more_claims.

Import Chunker.

(** X1.  [create_chunks] returns no chunk exactly for a blank text: the
    empty text and the texts made of whitespace only.  A text with a
    character that is not whitespace gives at least one chunk, whatever
    the chunk size and the overlap. *)
Theorem create_chunks_blank (text : string) (chunk_size overlap : Z) :
  create_chunks text chunk_size overlap = [] <-> all_space text = true.
Proof.
  rewrite create_chunks_groups. split.
  - intros H. apply map_eq_nil, chunk_groups_nil in H. by apply sentences_of_nil.
  - intros H. apply sentences_of_nil in H. by rewrite H.
Qed.

(** X2.  No chunk is empty and no chunk starts or ends with
    whitespace: [chunk.strip()] is the chunk itself, so a filter that
    keeps the chunks with a non-empty [strip] keeps them all. *)
Theorem create_chunks_stripped (text : string) (chunk_size overlap : Z) :
  Forall (fun chunk => strip chunk = chunk /\ chunk <> EmptyString)
    (create_chunks text chunk_size overlap)
  /\ filter (fun chunk => truthy (strip chunk)) (create_chunks text chunk_size overlap)
     = create_chunks text chunk_size overlap.
Proof.
  assert (H : Forall (fun chunk => strip chunk = chunk /\ chunk <> EmptyString)
                (create_chunks text chunk_size overlap)).
  { rewrite create_chunks_groups. apply Forall_forall. intros c Hc.
    apply list_elem_of_In, in_map_iff in Hc as (g & <- & Hg).
    apply list_elem_of_In, chunk_groups_sentences in Hg as [Hne Hg].
    by apply strip_join. }
  split; [done|].
  induction H as [|c l [Hc Hne] _ IH]; [done|].
  rewrite filter_cons_True; [by rewrite IH|].
  rewrite Hc. by destruct c.
Qed.

(** X3.  The chunks divide the sentences of the text: there are parts,
    none empty, that put one after the other give the sentences in
    their order, and every chunk joins one part, preceded by the
    overlap seed of the chunk before it.  So no sentence is lost or
    invented, and there are at most as many chunks as sentences. *)
Theorem create_chunks_parts (text : string) (chunk_size overlap : Z) :
  exists parts : list (list string),
    concat parts = sentences_of text
    /\ Forall (fun part => part <> []) parts
    /\ create_chunks text chunk_size overlap
       = map (join " ") (with_overlap overlap [] parts)
    /\ (length (create_chunks text chunk_size overlap)
        <= length (sentences_of text))%nat.
Proof.
  destruct (chunk_groups_parts chunk_size overlap (sentences_of text))
    as (parts & Hcat & Hne & Hgs).
  exists parts. rewrite create_chunks_groups, Hgs. split_and!; try done.
  rewrite length_map, length_with_overlap, <- Hcat. by apply length_concat_parts.
Qed.

(** X4.  With an overlap of zero (or less) no sentence is repeated: the
    chunks join the parts of a division of the sentences, and the
    characters of the chunks that are not whitespace are those of the
    text, in the order of the text. *)
Theorem create_chunks_no_overlap (text : string) (chunk_size overlap : Z) :
  overlap <= 0 ->
  (exists parts : list (list string),
     concat parts = sentences_of text
     /\ create_chunks text chunk_size overlap = map (join " ") parts)
  /\ remove_space (join "" (create_chunks text chunk_size overlap))
     = remove_space text.
Proof.
  intros Ho.
  destruct (chunk_groups_parts chunk_size overlap (sentences_of text))
    as (parts & Hcat & Hne & Hgs).
  assert (Hparts : with_overlap overlap [] parts = parts).
  { apply with_overlap_none; [done|done|].
    apply Forall_concat_parts. rewrite Hcat.
    eapply Forall_impl; [apply sentences_of_clean|]. by intros s [_ ?]. }
  rewrite create_chunks_groups, Hgs, Hparts.
  split; [by exists parts|].
  rewrite remove_space_join_empty, map_map.
  erewrite map_ext by (intros p; apply remove_space_join_space).
  rewrite <- (map_map (map remove_space) (join "")).
  rewrite join_empty_concat, <- concat_map, Hcat.
  unfold sentences_of. rewrite remove_space_stripped.
  unfold split_sentences.
  by rewrite (proj1 (split_go_remove_space text)).
Qed.

Lemma create_chunks_no_overlap_witness :
  (exists parts : list (list string),
     concat parts = sentences_of "ab. cd.  ef."
     /\ create_chunks "ab. cd.  ef." 6 0 = map (join " ") parts)
  /\ remove_space (join "" (create_chunks "ab. cd.  ef." 6 0))
     = remove_space "ab. cd.  ef.".
Proof. apply (create_chunks_no_overlap "ab. cd.  ef." 6 0). lia. Defined.

(** X5.  A text whose sentences total at most [chunk_size] characters
    gives one chunk, its sentences joined by single spaces. *)
Theorem create_chunks_single (text : string) (chunk_size overlap : Z) :
  all_space text = false ->
  sum_len (sentences_of text) <= chunk_size ->
  create_chunks text chunk_size overlap = [join " " (sentences_of text)].
Proof.
  intros Htext Hfit.
  rewrite create_chunks_groups. unfold chunk_groups.
  rewrite fold_group_step_fits by (simpl; lia).
  unfold all_groups. simpl. case_bool_decide as Hnil; [|done].
  apply sentences_of_nil in Hnil. congruence.
Qed.

Lemma create_chunks_single_witness :
  create_chunks "Hi there.  How are you?" 1000 200 = ["Hi there. How are you?"%string].
Proof.
  apply (create_chunks_single "Hi there.  How are you?" 1000 200); [reflexivity|].
  vm_compute. discriminate.
Defined.

End Chunker_more_claims.

(** * The text normaliser: the shape of its result *)

Section Preprocess_facts.

Import Preprocess.

Lemma all_chars_append P a b : all_chars P (a +:+ b) = all_chars P a && all_chars P b.
Proof.
  induction a as [|c a IH]; [done|].
  rewrite append_cons. simpl. by rewrite IH, andb_assoc.
Qed.

Lemma all_chars_rev P s : all_chars P (String.rev s) = all_chars P s.
Proof.
  induction s as [|c s IH]; [done|].
  rewrite rev_cons, all_chars_append, IH. simpl.
  rewrite andb_true_r. apply andb_comm.
Qed.

Lemma all_chars_impl (P Q : ascii -> bool) s :
  (forall c, P c = true -> Q c = true) -> all_chars P s = true -> all_chars Q s = true.
Proof.
  intros HPQ. induction s as [|c s IH]; [done|]. simpl.
  intros [Hc Hs]%andb_true_iff. by rewrite (HPQ c Hc), IH.
Qed.

Lemma all_chars_lstrip P s : all_chars P s = true -> all_chars P (lstrip s) = true.
Proof.
  induction s as [|c s IH]; [done|]. simpl.
  intros [Hc Hs]%andb_true_iff. destruct (isspace c); [by apply IH|].
  simpl. by rewrite Hc, Hs.
Qed.

Lemma all_chars_rstrip P s : all_chars P s = true -> all_chars P (rstrip s) = true.
Proof.
  induction s as [|c s IH]; [done|]. simpl.
  intros [Hc Hs]%andb_true_iff. specialize (IH Hs).
  destruct (rstrip s) as [|x r].
  - destruct (isspace c); [done|]. simpl. by rewrite Hc.
  - change (all_chars P (String c (String x r))) with (P c && all_chars P (String x r)).
    by rewrite Hc, IH.
Qed.

(** After the first substitution the only whitespace is the space. *)
Lemma all_chars_collapse in_run s :
  all_chars (fun c => negb (isspace c) || (N_of_ascii c =? 32)%N) (collapse in_run s) = true.
Proof.
  revert in_run. induction s as [|c s IH]; intros in_run; [done|]. simpl.
  destruct (isspace c) eqn:Hc.
  - destruct in_run; [apply IH|]. simpl. apply IH.
  - simpl. by rewrite Hc, IH.
Qed.

Lemma all_chars_keep_allowed P s :
  all_chars P s = true -> all_chars (fun c => P c && kept c) (keep_allowed s) = true.
Proof.
  induction s as [|c s IH]; [done|]. simpl.
  intros [Hc Hs]%andb_true_iff. destruct (kept c) eqn:Hk; [|by apply IH].
  simpl. by rewrite Hc, Hk, IH.
Qed.

Lemma all_chars_tighten P pending s :
  all_chars P pending = true -> all_chars P s = true ->
  all_chars P (tighten pending s) = true.
Proof.
  revert pending. induction s as [|c s IH]; intros pending Hp Hs; simpl.
  - by rewrite all_chars_rev.
  - simpl in Hs. apply andb_true_iff in Hs as [Hc Hs].
    destruct (isspace c).
    + apply IH; [|done]. simpl. by rewrite Hc, Hp.
    + destruct (is_punctuation c).
      * simpl. rewrite Hc. by apply IH.
      * rewrite all_chars_append, all_chars_rev, Hp. simpl. rewrite Hc. by apply IH.
Qed.

Lemma kept_allowed c :
  (negb (isspace c) || (N_of_ascii c =? 32)%N) && kept c = true -> allowed c = true.
Proof.
  unfold kept, allowed. destruct (isword c), (is_punctuation c), (N_of_ascii c =? 45)%N,
    (N_of_ascii c =? 32)%N, (isspace c); simpl; done.
Qed.

Lemma punctuation_not_space c : is_punctuation c = true -> isspace c = false.
Proof.
  unfold is_punctuation, isspace. intros H.
  repeat (apply orb_true_iff in H as [H|H]); apply N.eqb_eq in H; by rewrite H.
Qed.

(** Whitespace before something that does not start with a punctuation
    mark. *)
Lemma tight_space_append a b :
  all_space a = true -> tight b = true ->
  (a = EmptyString \/ match b with
                      | EmptyString => true
                      | String p _ => negb (is_punctuation p)
                      end = true) ->
  tight (a +:+ b) = true.
Proof.
  intros Ha Hb Hhead. induction a as [|c a IH]; [done|].
  destruct Hhead as [?|Hhead]; [done|].
  simpl in Ha. apply andb_true_iff in Ha as [Hc Ha].
  rewrite append_cons.
  change (tight (String c (a +:+ b)))
    with (negb (isspace c && match a +:+ b with
                             | EmptyString => false
                             | String p _ => is_punctuation p
                             end) && tight (a +:+ b)).
  rewrite IH by (done || by right). rewrite andb_true_r.
  destruct a as [|x a].
  - rewrite append_nil_l. destruct b as [|p b]; [by rewrite andb_false_r|].
    apply negb_true_iff in Hhead. by rewrite Hhead, andb_false_r.
  - rewrite append_cons. simpl in Ha. apply andb_true_iff in Ha as [Hx _].
    destruct (is_punctuation x) eqn:Hp; [|by rewrite andb_false_r].
    apply punctuation_not_space in Hp. congruence.
Qed.

Lemma tight_tighten pending s :
  all_space pending = true -> tight (tighten pending s) = true.
Proof.
  revert pending. induction s as [|c s IH]; intros pending Hp.
  - simpl. rewrite <- (append_nil_r (String.rev pending)).
    apply tight_space_append; [by rewrite all_space_rev|done|by right].
  - simpl. destruct (isspace c) eqn:Hc.
    + apply IH. simpl. by rewrite Hc.
    + assert (Hrest : tight (String c (tighten EmptyString s)) = true).
      { change (tight (String c (tighten EmptyString s)))
          with (negb (isspace c && match tighten EmptyString s with
                                   | EmptyString => false
                                   | String p _ => is_punctuation p
                                   end) && tight (tighten EmptyString s)).
        rewrite Hc. simpl. by apply IH. }
      destruct (is_punctuation c) eqn:Hpunct; [done|].
      apply tight_space_append; [by rewrite all_space_rev|done|].
      right. by rewrite Hpunct.
Qed.

Lemma tight_tail c s : tight (String c s) = true -> tight s = true.
Proof. simpl. by intros [_ ?]%andb_true_iff. Qed.

Lemma tight_lstrip s : tight s = true -> tight (lstrip s) = true.
Proof.
  induction s as [|c s IH]; [done|]. intros H.
  change (lstrip (String c s)) with (if isspace c then lstrip s else String c s).
  destruct (isspace c); [|done]. apply IH. by apply tight_tail in H.
Qed.

Lemma rstrip_cons_head x r s : rstrip s = String x r -> exists t, s = String x t.
Proof.
  destruct s as [|c s]; [done|]. simpl.
  destruct (rstrip s); [destruct (isspace c)|]; intros H; simplify_eq; by eexists.
Qed.

Lemma tight_rstrip s : tight s = true -> tight (rstrip s) = true.
Proof.
  induction s as [|c s IH]; [done|]. intros H.
  pose proof (tight_tail _ _ H) as Hs. specialize (IH Hs).
  change (rstrip (String c s))
    with (match rstrip s with
          | EmptyString => if isspace c then EmptyString else String c EmptyString
          | r => String c r
          end).
  destruct (rstrip s) as [|x r] eqn:Hr.
  - destruct (isspace c); [done|]. simpl. by rewrite andb_false_r.
  - apply rstrip_cons_head in Hr as [t ->].
    change (tight (String c (String x r)))
      with (negb (isspace c && is_punctuation x) && tight (String x r)).
    rewrite IH, andb_true_r.
    simpl in H. by apply andb_true_iff in H as [? _].
Qed.

Lemma remove_space_collapse in_run s : remove_space (collapse in_run s) = remove_space s.
Proof.
  revert in_run. induction s as [|c s IH]; intros in_run; [done|]. simpl.
  destruct (isspace c) eqn:Hc.
  - destruct in_run; [apply IH|]. simpl. apply IH.
  - simpl. by rewrite Hc, IH.
Qed.

Lemma remove_space_keep_allowed s :
  remove_space (keep_allowed s) = keep_allowed (remove_space s).
Proof.
  induction s as [|c s IH]; [done|]. simpl.
  destruct (kept c) eqn:Hk, (isspace c) eqn:Hc; simpl; rewrite ?Hk, ?Hc, ?IH; done.
Qed.

Lemma remove_space_tighten pending s :
  all_space pending = true -> remove_space (tighten pending s) = remove_space s.
Proof.
  revert pending. induction s as [|c s IH]; intros pending Hp; simpl.
  - apply remove_space_all_space. by rewrite all_space_rev.
  - destruct (isspace c) eqn:Hc.
    + apply IH. simpl. by rewrite Hc.
    + destruct (is_punctuation c).
      * simpl. by rewrite Hc, IH.
      * rewrite remove_space_append, remove_space_all_space by by rewrite all_space_rev.
        rewrite append_nil_l. simpl. by rewrite Hc, IH.
Qed.

End Preprocess_facts.

Section Preprocess_claims.

Import Preprocess.

(** X6.  The text [preprocess_text] returns has no whitespace at its
    ends, is made of word characters, spaces, the marks
    [. , ! ?] and the hyphen only, and has no space directly before a
    mark.  Its characters other than whitespace are those of the input
    that the second substitution keeps, in their order: no such
    character is lost, moved or added. *)
Theorem preprocess_text_shape (text : string) :
  strip (preprocess_text text) = preprocess_text text
  /\ all_chars allowed (preprocess_text text) = true
  /\ tight (preprocess_text text) = true
  /\ remove_space (preprocess_text text) = keep_allowed (remove_space text).
Proof.
  unfold preprocess_text. split_and!.
  - apply strip_idem.
  - unfold strip. apply all_chars_rstrip, all_chars_lstrip, all_chars_tighten; [done|].
    eapply all_chars_impl; [apply kept_allowed|].
    apply all_chars_keep_allowed, all_chars_collapse.
  - unfold strip. by apply tight_rstrip, tight_lstrip, tight_tighten.
  - rewrite remove_space_strip, remove_space_tighten by done.
    by rewrite remove_space_keep_allowed, remove_space_collapse.
Qed.

(** Taking a character out can leave two spaces side by side, which a
    second pass makes one: the function is not idempotent. *)
Example preprocess_text_examples :
  preprocess_text "Hi  ,  you @ there !" = "Hi, you  there!"%string
  /\ preprocess_text "Hi, you  there!" = "Hi, you there!"%string
  /\ preprocess_text (String "009" " a#b .") = "ab."%string.
Proof. by vm_compute. Qed.

End Preprocess_claims.

(** * The Rate-Limited Fetcher never raises (C6) *)

Section Fetcher_claims.

Import Fetcher.

Variable time_time : nat -> PrimFloat.float.

(** The limiter only touches the module state. *)
Lemma scrape_url_async_limiter net l :
  (scrape_url_async time_time net l).2 = rate_limit time_time l.
Proof. done. Qed.

(** C6.  Whatever the network does with the request, the fetch returns
    a string and raises nothing: the body when the response has status
    200 and its text can be read; the empty string when the request
    raised (time-out, connection error), when the status is not 200, and
    when reading the text raised. *)
Theorem scrape_url_async_result (net : get_result) (l : limiter) :
  (scrape_url_async time_time net l).1
  = Ok match net with
       | GetRaises _ => EmptyString
       | GetResponse status text =>
           if status =? 200
           then match text with Ok body => body | Raise _ => EmptyString end
           else EmptyString
       end.
Proof.
  unfold scrape_url_async. simpl.
  destruct net as [e|status [body|e]]; simpl; [done| |];
    by destruct (status =? 200).
Qed.

End Fetcher_claims.

(** * The HTML Cleaner keeps the fragments of more than 10 characters (C7) *)

Section Cleaner_claims.

Import Cleaner.

Lemma len_join_elem sep (l : list string) s : s ∈ l -> len s <= len (join sep l).
Proof.
  induction l as [|s' l IH]; intros Hs; [by apply elem_of_nil in Hs|].
  rewrite len_join_cons.
  pose proof (sum_len_nonneg l). pose proof (len_nonneg sep). pose proof (len_nonneg s').
  apply elem_of_cons in Hs as [->|Hs]; [nia|].
  specialize (IH Hs). destruct l as [|s'' l]; [by apply elem_of_nil in Hs|].
  rewrite len_join_cons in IH. simpl sum_len. rewrite length_cons. nia.
Qed.

(** C7 as it is stated does not hold: a paragraph of exactly 10
    characters is dropped, the test being [len(text) > 10]. *)
Lemma clean_text_drops_ten_characters :
  ~ (forall (html_parser : string -> outcome (list node)) (html : string)
            (soup : list node) (children : list node),
       html_parser html = Ok soup ->
       Tag "p" children ∈ soup ->
       10 <= len (get_text_strip (Tag "p" children)) ->
       clean_text html_parser html <> EmptyString).
Proof.
  intros H.
  apply (H (fun _ => Ok [Tag "p" [Text "0123456789"]]) "<p>0123456789</p>"%string
           [Tag "p" [Text "0123456789"]] [Text "0123456789"]).
  - done.
  - by apply list_elem_of_singleton.
  - by vm_compute.
  - by vm_compute.
Qed.

(** C7, amended.  The output is made of the stripped texts of the
    allow-listed tags left after the removal of scripts and styles, those
    of more than 10 characters, joined by newlines: the texts of 10
    characters or less are dropped.  So a page with one such tag, a
    paragraph say, whose text has more than 10 characters gives a text
    that is not empty. *)
Theorem clean_text_fragments (html_parser : string -> outcome (list node))
    (html : string) (soup : list node) :
  html_parser html = Ok soup ->
  let texts :=
    flat_map (find_all meaningful_tags)
      (flat_map (decompose_all ["script"; "style"]%string) soup) in
  clean_text html_parser html
  = join (String "010"%char EmptyString)
      (filter (fun text => 10 <? len text) (map get_text_strip texts))
  /\ (forall element, element ∈ texts -> 10 < len (get_text_strip element) ->
        clean_text html_parser html <> EmptyString).
Proof.
  intros Hparse texts.
  assert (Hclean : clean_text html_parser html
            = join (String "010"%char EmptyString)
                (filter (fun text => 10 <? len text) (map get_text_strip texts))).
  { unfold clean_text, clean_soup. rewrite Hparse. fold texts. f_equal.
    apply list_filter_iff. intros text.
    rewrite Z.gtb_ltb. destruct text as [|c text]; [|done].
    simpl. split; [done|]. intros H. by vm_compute in H. }
  split; [done|]. intros element Hin Hlen.
  rewrite Hclean. intros Hempty.
  assert (Hkept : get_text_strip element
            ∈ filter (fun text => 10 <? len text) (map get_text_strip texts)).
  { apply list_elem_of_filter. split.
    - apply Is_true_true. by apply Z.ltb_lt.
    - by apply list_elem_of_In, in_map, list_elem_of_In. }
  apply (len_join_elem (String "010"%char EmptyString)) in Hkept.
  rewrite Hempty in Hkept. change (len EmptyString) with 0 in Hkept. lia.
Qed.

Lemma clean_text_fragments_witness :
  let html_parser := fun _ : string => Ok [Tag "p" [Text " Hello world "]] in
  let texts :=
    flat_map (find_all meaningful_tags)
      (flat_map (decompose_all ["script"; "style"]%string)
         [Tag "p" [Text " Hello world "]]) in
  clean_text html_parser "<p> Hello world </p>"
  = join (String "010"%char EmptyString)
      (filter (fun text => 10 <? len text) (map get_text_strip texts))
  /\ (forall element, element ∈ texts -> 10 < len (get_text_strip element) ->
        clean_text html_parser "<p> Hello world </p>" <> EmptyString).
Proof.
  apply (clean_text_fragments (fun _ => Ok [Tag "p" [Text " Hello world "]])
           "<p> Hello world </p>" [Tag "p" [Text " Hello world "]]).
  reflexivity.
Defined.

(** The paragraph of the witness is kept. *)
Example clean_text_hello :
  clean_text (fun _ => Ok [Tag "p" [Text " Hello world "]]) "<p> Hello world </p>"
  = "Hello world"%string.
Proof. by vm_compute. Qed.

End Cleaner_claims.

(** * The rate limiter computes in doubles *)

Section Rate_limit_examples.

Import Fetcher PrimFloat.

(** A request 0.2 s after the last one, at the readings 1.0 and 1.2
    (the double [0x1.3333333333333p+0]): the difference of the two
    readings is not the double nearest to 0.2, and the delay passed to
    [asyncio.sleep] is the double above the one nearest to 0.3
    ([0x1.3333333333333p-2]); Python prints it as
    [0.30000000000000004]. *)
Example rate_limit_delay :
  let time_time :=
    fun n : nat => match n with O => 0x1.3333333333333p+0 | _ => 1.5 end%float in
  let l := rate_limit time_time (mkLimiter 1 0 []) in
  sleeps l = [0x1.3333333333334p-2]%float
  /\ (0x1.3333333333333p-2 <? 0x1.3333333333334p-2)%float = true
  /\ last_request_time l = 1.5%float
  /\ time_reads l = 2%nat.
Proof. by vm_compute. Qed.

(** After half a second or more there is no sleep. *)
Example rate_limit_no_delay :
  let time_time := fun n : nat => match n with O => 1.5 | _ => 1.5 end%float in
  sleeps (rate_limit time_time (mkLimiter 1 0 [])) = [].
Proof. by vm_compute. Qed.

End Rate_limit_examples.

(** * The HTML Cleaner: the shape of its result *)

Section Cleaner_more.

Import Cleaner.

Lemma flat_map_nil {A B} (f : A -> list B) (l : list A) :
  flat_map f l = [] <-> Forall (fun x => f x = []) l.
Proof.
  induction l as [|x l IH]; simpl.
  - split; [by constructor|done].
  - split.
    + intros H. apply app_eq_nil in H as [? ?]. constructor; [done|by apply IH].
    + intros H. apply Forall_cons in H as [-> H]. by apply IH.
Qed.

(** What [decompose_all] leaves has no tag of the names. *)
Lemma decompose_all_find_all names n m :
  m ∈ decompose_all names n -> find_all names m = [].
Proof.
  revert m. induction n as [s|s|name children IH] using node_children_ind; intros m Hm.
  - apply list_elem_of_singleton in Hm as ->. done.
  - apply list_elem_of_singleton in Hm as ->. done.
  - simpl in Hm. case_bool_decide as Hname; [by apply elem_of_nil in Hm|].
    apply list_elem_of_singleton in Hm as ->. simpl.
    rewrite bool_decide_eq_false_2 by done. simpl.
    apply flat_map_nil, Forall_forall. intros m Hm.
    apply list_elem_of_In, in_flat_map in Hm as (child & Hchild & Hm).
    rewrite Forall_forall in IH.
    apply (IH child); by apply list_elem_of_In.
Qed.

(** The tags found in a document without tags of [names] have none
    either. *)
Lemma find_all_inside names names' n element :
  find_all names n = [] -> element ∈ find_all names' n -> find_all names element = [].
Proof.
  revert element.
  induction n as [s|s|name children IH] using node_children_ind; intros element Hn He.
  - by apply elem_of_nil in He.
  - by apply elem_of_nil in He.
  - simpl in He. apply elem_of_app in He as [He|He].
    + case_bool_decide; [|by apply elem_of_nil in He].
      by apply list_elem_of_singleton in He as ->.
    + simpl in Hn. apply app_eq_nil in Hn as [_ Hn].
      rewrite flat_map_nil in Hn.
      apply list_elem_of_In, in_flat_map in He as (child & Hchild & He).
      apply list_elem_of_In in Hchild, He.
      rewrite Forall_forall in IH, Hn. apply (IH child Hchild); [by apply Hn|done].
Qed.

Lemma flat_map_twice {A} (f : A -> list A) (l : list A) :
  Forall (fun x => flat_map f (f x) = f x) l ->
  flat_map f (flat_map f l) = flat_map f l.
Proof.
  induction 1 as [|x l Hx _ IH]; [done|].
  simpl. by rewrite flat_map_app, Hx, IH.
Qed.

(** Taking the tags out a second time changes nothing. *)
Lemma decompose_all_idem names n :
  flat_map (decompose_all names) (decompose_all names n) = decompose_all names n.
Proof.
  induction n as [s|s|name children IH] using node_children_ind; [done|done|].
  simpl. case_bool_decide as Hname; [done|].
  simpl. rewrite bool_decide_eq_false_2 by done.
  by rewrite app_nil_r, flat_map_twice.
Qed.

Lemma decompose_all_twice names soup :
  flat_map (decompose_all names) (flat_map (decompose_all names) soup)
  = flat_map (decompose_all names) soup.
Proof.
  apply flat_map_twice, Forall_forall. intros n _. apply decompose_all_idem.
Qed.

(** A fragment, the text of one tag, has no whitespace at its ends. *)
Lemma get_text_strip_clean n :
  get_text_strip n <> EmptyString -> clean (get_text_strip n).
Proof.
  unfold get_text_strip. intros Hne.
  apply clean_join; [|apply stripped_clean].
  intros Hnil. by rewrite Hnil in Hne.
Qed.

Lemma clean_soup_clean soup :
  strip (clean_soup soup) = clean_soup soup
  /\ (clean_soup soup = EmptyString \/ 10 < len (clean_soup soup)).
Proof.
  unfold clean_soup.
  set (texts := flat_map (find_all meaningful_tags)
                  (flat_map (decompose_all ["script"; "style"]%string) soup)).
  set (clean_texts := filter (fun text => truthy text && (len text >? 10))
                        (map get_text_strip texts)).
  destruct clean_texts as [|text rest] eqn:Hfragments; [by split; [|left]|].
  assert (Hall : Forall (fun s => clean s /\ s <> EmptyString) clean_texts).
  { apply Forall_forall. intros s Hs.
    apply list_elem_of_filter in Hs as [Hkeep Hs].
    apply Is_true_true, andb_true_iff in Hkeep as [Htruthy _].
    apply list_elem_of_In, in_map_iff in Hs as (n & <- & _).
    assert (get_text_strip n <> EmptyString) by (intros H; by rewrite H in Htruthy).
    split; [by apply get_text_strip_clean|done]. }
  rewrite Hfragments in Hall.
  destruct (strip_join (String "010"%char EmptyString) (text :: rest)) as [Hstrip _];
    [done|done|].
  split; [done|]. right.
  assert (Htext : text ∈ clean_texts) by (rewrite Hfragments; by left).
  apply list_elem_of_filter in Htext as [Hkeep _].
  apply Is_true_true, andb_true_iff in Hkeep as [_ Hlen].
  rewrite Z.gtb_ltb in Hlen. apply Z.ltb_lt in Hlen.
  pose proof (len_join_elem (String "010"%char EmptyString) (text :: rest) text) as Hle.
  specialize (Hle ltac:(by left)). lia.
Qed.

End Cleaner_more.

Section Cleaner_more_claims.

Import Cleaner.

(** X8.  The cleaned text has no whitespace at its ends, and it is
    empty or longer than 10 characters: [cleaned_text.strip()] is the
    cleaned text itself, so the test [if cleaned_text.strip()] of a caller
    is the test that the cleaned text is not empty.  This holds whatever
    the parser makes of the page, also when it raises. *)
Theorem clean_text_stripped (html_parser : string -> outcome (list node))
    (html : string) :
  strip (clean_text html_parser html) = clean_text html_parser html
  /\ (clean_text html_parser html = EmptyString
      \/ 10 < len (clean_text html_parser html))
  /\ truthy (strip (clean_text html_parser html))
     = truthy (clean_text html_parser html).
Proof.
  assert (H : strip (clean_text html_parser html) = clean_text html_parser html
              /\ (clean_text html_parser html = EmptyString
                  \/ 10 < len (clean_text html_parser html))).
  { unfold clean_text. destruct (html_parser html) as [soup|e].
    - apply clean_soup_clean.
    - split; [done|by left]. }
  destruct H as [Hstrip Hlen]. split_and!; [done|done|by rewrite Hstrip].
Qed.

(** X9.  Scripts and styles are taken out before the text is
    collected: none of the elements whose text the cleaner collects
    contains a [script] or a [style] tag, at any depth. *)
Theorem clean_text_no_script (html_parser : string -> outcome (list node))
    (html : string) (soup : list node) (element : node) :
  html_parser html = Ok soup ->
  element ∈ flat_map (find_all meaningful_tags)
              (flat_map (decompose_all ["script"; "style"]%string) soup) ->
  find_all ["script"; "style"]%string element = []
  /\ clean_text html_parser html
     = clean_soup (flat_map (decompose_all ["script"; "style"]%string) soup).
Proof.
  intros Hparse He. split.
  - apply list_elem_of_In, in_flat_map in He as (n & Hn & He).
    apply in_flat_map in Hn as (top & _ & Hn).
    apply list_elem_of_In in Hn, He.
    eapply find_all_inside; [|exact He].
    by eapply decompose_all_find_all.
  - unfold clean_text. rewrite Hparse. unfold clean_soup.
    by rewrite decompose_all_twice.
Qed.

Lemma clean_text_no_script_witness :
  let soup := [Tag "div" [Tag "script" [Text "var x = 1;"]; Tag "p" [Text "Hello world!"]]] in
  find_all ["script"; "style"]%string
    (Tag "div" [Tag "p" [Text "Hello world!"]]) = []
  /\ clean_text (fun _ => Ok soup) "page"
     = clean_soup (flat_map (decompose_all ["script"; "style"]%string) soup).
Proof.
  apply (clean_text_no_script
           (fun _ => Ok [Tag "div" [Tag "script" [Text "var x = 1;"];
                                     Tag "p" [Text "Hello world!"]]])
           "page"
           [Tag "div" [Tag "script" [Text "var x = 1;"]; Tag "p" [Text "Hello world!"]]]
           (Tag "div" [Tag "p" [Text "Hello world!"]])).
  - reflexivity.
  - vm_compute. by left.
Defined.

End Cleaner_more_claims.

(** * Facts about the progress store *)

Section Store_facts.

Import Tasks.

Lemma lookup_task_Some user_id task_id w snap :
  lookup_task user_id task_id w = Some snap <->
  exists tasks, scraping_progress w !! user_id = Some tasks /\ tasks !! task_id = Some snap.
Proof.
  unfold lookup_task. destruct (scraping_progress w !! user_id) as [tasks|]; simpl.
  - split; [by exists tasks|]. by intros (? & [= <-] & ?).
  - split; [done|]. by intros (? & ? & ?).
Qed.

Lemma progress_of_lookup user_id task_id w :
  (progress_of user_id w).1 !! task_id = lookup_task user_id task_id w.
Proof.
  unfold progress_of, lookup_task.
  by destruct (scraping_progress w !! user_id).
Qed.

Lemma progress_of_known user_id w tasks :
  scraping_progress w !! user_id = Some tasks -> progress_of user_id w = (tasks, w).
Proof. intros H. unfold progress_of. by rewrite H. Qed.

Lemma progress_of_lookup_task user_id w user_id' task_id' :
  lookup_task user_id' task_id' (progress_of user_id w).2 = lookup_task user_id' task_id' w.
Proof.
  unfold progress_of, lookup_task.
  destruct (scraping_progress w !! user_id) eqn:Hu; [done|]. simpl.
  destruct (decide (user_id = user_id')) as [<-|Hne].
  - by rewrite lookup_insert_eq, Hu.
  - by rewrite lookup_insert_ne.
Qed.

Lemma progress_of_active user_id w :
  active_tasks (progress_of user_id w).2 = active_tasks w.
Proof. unfold progress_of. by destruct (scraping_progress w !! user_id). Qed.

Lemma progress_of_clock user_id w :
  clock_reads (progress_of user_id w).2 = clock_reads w.
Proof. unfold progress_of. by destruct (scraping_progress w !! user_id). Qed.

Lemma store_snapshot_lookup user_id task_id snap w user_id' task_id' :
  lookup_task user_id' task_id' (store_snapshot user_id task_id snap w)
  = if decide (user_id' = user_id /\ task_id' = task_id) then Some snap
    else lookup_task user_id' task_id' w.
Proof.
  unfold store_snapshot.
  destruct (progress_of user_id w) as [tasks w1] eqn:Hp.
  assert (Htasks : forall t, tasks !! t = lookup_task user_id t w).
  { intros t. by rewrite <- (progress_of_lookup user_id t w), Hp. }
  assert (Hw1 : forall u t, lookup_task u t w1 = lookup_task u t w).
  { intros u t. by rewrite <- (progress_of_lookup_task user_id w u t), Hp. }
  unfold lookup_task at 1. simpl.
  destruct (decide (user_id' = user_id)) as [->|Hu].
  - rewrite lookup_insert_eq. simpl.
    destruct (decide (task_id' = task_id)) as [->|Ht].
    + rewrite lookup_insert_eq. by rewrite decide_True.
    + rewrite lookup_insert_ne by done. rewrite decide_False by tauto. apply Htasks.
  - rewrite lookup_insert_ne by done. rewrite decide_False by tauto.
    apply (Hw1 user_id' task_id').
Qed.

Lemma store_snapshot_active user_id task_id snap w :
  active_tasks (store_snapshot user_id task_id snap w) = active_tasks w.
Proof.
  unfold store_snapshot.
  destruct (progress_of user_id w) as [tasks w1] eqn:Hp. simpl.
  by rewrite <- (progress_of_active user_id w), Hp.
Qed.

(** Storing again what is stored changes nothing. *)
Lemma store_snapshot_same user_id task_id snap w :
  lookup_task user_id task_id w = Some snap ->
  scraping_progress (store_snapshot user_id task_id snap w) = scraping_progress w.
Proof.
  intros H. apply lookup_task_Some in H as (tasks & Hu & Ht).
  unfold store_snapshot. rewrite (progress_of_known _ _ _ Hu). simpl.
  rewrite (insert_id tasks) by done. by apply insert_id.
Qed.

End Store_facts.

(** * The progress endpoint (C9, C10) *)

Section Progress_claims.

Import Tasks.

(** C9.  The progress lookup answers 404 when the user has no task of
    that id, whoever else has one; and when the user has one, it returns
    the snapshot that is stored for that user and task when it returns:
    the one found, or the one found with its [last_update] refreshed. *)
Theorem get_scraping_progress_scoped (clock : nat -> Z) (task_id user_id : string)
    (w : world) :
  let r := get_scraping_progress clock task_id user_id w in
  (lookup_task user_id task_id w = None ->
     r.1 = Raise (HTTPException 404 "Task not found"))
  /\ (forall other snap,
        other <> user_id -> lookup_task other task_id w = Some snap ->
        lookup_task user_id task_id w = None ->
        r.1 = Raise (HTTPException 404 "Task not found"))
  /\ (forall snap,
        lookup_task user_id task_id w = Some snap ->
        exists current,
          r.1 = Ok current
          /\ lookup_task user_id task_id r.2 = Some current
          /\ (current = snap
              \/ current = set_last_update (clock (clock_reads w)) snap)).
Proof.
  intros r.
  assert (Hnone : lookup_task user_id task_id w = None ->
            r.1 = Raise (HTTPException 404 "Task not found")).
  { intros H. unfold r, get_scraping_progress.
    destruct (progress_of user_id w) as [tasks w1] eqn:Hp.
    assert (tasks !! task_id = None) as ->; [|done].
    by rewrite <- H, <- progress_of_lookup, Hp. }
  split_and!; [done|by intros other snap _ _|].
  intros snap H. unfold r, get_scraping_progress.
  apply lookup_task_Some in H as Hw. destruct Hw as (tasks & Hu & Ht).
  rewrite (progress_of_known _ _ _ Hu), Ht. unfold now. simpl.
  destruct (is_completed snap || error_set snap); [by eauto|].
  destruct (clock (clock_reads w) - last_update snap <? 2 * 1000000); [by eauto|].
  eexists. split_and!; [done| |by right].
  simpl. rewrite store_snapshot_lookup. by rewrite decide_True.
Qed.

Lemma get_scraping_progress_scoped_witness :
  let w := store_snapshot "bob" "t1"
             (mkSnapshot Crawling 0 0 0 0 None false "http://a" None) empty_world in
  let r := get_scraping_progress (fun _ => 5) "t1" "alice" w in
  (lookup_task "alice" "t1" w = None ->
     r.1 = Raise (HTTPException 404 "Task not found"))
  /\ (forall other snap,
        other <> "alice"%string -> lookup_task other "t1" w = Some snap ->
        lookup_task "alice" "t1" w = None ->
        r.1 = Raise (HTTPException 404 "Task not found"))
  /\ (forall snap,
        lookup_task "alice" "t1" w = Some snap ->
        exists current,
          r.1 = Ok current
          /\ lookup_task "alice" "t1" r.2 = Some current
          /\ (current = snap
              \/ current = set_last_update ((fun _ => 5) (clock_reads w)) snap)).
Proof.
  exact (get_scraping_progress_scoped (fun _ => 5) "t1" "alice"
           (store_snapshot "bob" "t1"
              (mkSnapshot Crawling 0 0 0 0 None false "http://a" None) empty_world)).
Defined.

(** Bob's task is not found by Alice. *)
Example get_scraping_progress_cross_user :
  let w := store_snapshot "bob" "t1"
             (mkSnapshot Crawling 0 0 0 0 None false "http://a" None) empty_world in
  (get_scraping_progress (fun _ => 5) "t1" "alice" w).1
    = Raise (HTTPException 404 "Task not found")
  /\ (get_scraping_progress (fun _ => 5) "t1" "bob" w).1
    = Ok (mkSnapshot Crawling 0 0 0 0 None false "http://a" None).
Proof. by vm_compute. Qed.

(** C10.  Polling can write.  For a task that is neither completed nor
    in error, a poll 2 seconds or more after [last_update] stores the
    time of the poll as the new [last_update] and leaves the other
    fields, the other tasks and the active sets as they were; a poll of
    a completed or failed task, or one less than 2 seconds after
    [last_update], changes neither table. *)
Theorem get_scraping_progress_refresh (clock : nat -> Z) (task_id user_id : string)
    (w : world) (snap : snapshot) :
  lookup_task user_id task_id w = Some snap ->
  let current_time := clock (clock_reads w) in
  let r := get_scraping_progress clock task_id user_id w in
  if is_completed snap || error_set snap
     || (current_time - last_update snap <? 2 * 1000000)
  then r.1 = Ok snap
       /\ scraping_progress r.2 = scraping_progress w
       /\ active_tasks r.2 = active_tasks w
  else exists current,
       r.1 = Ok current
       /\ lookup_task user_id task_id r.2 = Some current
       /\ last_update current = current_time
       /\ status current = status snap
       /\ start_time current = start_time snap
       /\ pages_scraped current = pages_scraped snap
       /\ chunks_created current = chunks_created snap
       /\ error current = error snap
       /\ is_completed current = is_completed snap
       /\ url current = url snap
       /\ result current = result snap
       /\ (forall user_id' task_id',
             ~ (user_id' = user_id /\ task_id' = task_id) ->
             lookup_task user_id' task_id' r.2 = lookup_task user_id' task_id' w)
       /\ active_tasks r.2 = active_tasks w.
Proof.
  intros H current_time r. unfold r, get_scraping_progress.
  apply lookup_task_Some in H as Hw. destruct Hw as (tasks & Hu & Ht).
  rewrite (progress_of_known _ _ _ Hu), Ht. unfold now. simpl. fold current_time.
  destruct (is_completed snap || error_set snap); simpl; [done|].
  destruct (current_time - last_update snap <? 2 * 1000000); [done|].
  eexists. split; [done|]. simpl. split_and!; try done.
  - rewrite store_snapshot_lookup. by rewrite decide_True.
  - intros u t Hne. rewrite store_snapshot_lookup. by rewrite decide_False.
  - by rewrite store_snapshot_active.
Qed.

Lemma get_scraping_progress_refresh_witness :
  let w := store_snapshot "bob" "t1"
             (mkSnapshot Crawling 0 0 0 0 None false "http://a" None) empty_world in
  let snap := mkSnapshot Crawling 0 0 0 0 None false "http://a" None in
  let current_time := 2000000 in
  let r := get_scraping_progress (fun _ => 2000000) "t1" "bob" w in
  if is_completed snap || error_set snap
     || (current_time - last_update snap <? 2 * 1000000)
  then r.1 = Ok snap
       /\ scraping_progress r.2 = scraping_progress w
       /\ active_tasks r.2 = active_tasks w
  else exists current,
       r.1 = Ok current
       /\ lookup_task "bob" "t1" r.2 = Some current
       /\ last_update current = current_time
       /\ status current = status snap
       /\ start_time current = start_time snap
       /\ pages_scraped current = pages_scraped snap
       /\ chunks_created current = chunks_created snap
       /\ error current = error snap
       /\ is_completed current = is_completed snap
       /\ url current = url snap
       /\ result current = result snap
       /\ (forall user_id' task_id',
             ~ (user_id' = "bob"%string /\ task_id' = "t1"%string) ->
             lookup_task user_id' task_id' r.2 = lookup_task user_id' task_id' w)
       /\ active_tasks r.2 = active_tasks w.
Proof.
  apply (get_scraping_progress_refresh (fun _ => 2000000) "t1" "bob"
           (store_snapshot "bob" "t1"
              (mkSnapshot Crawling 0 0 0 0 None false "http://a" None) empty_world)
           (mkSnapshot Crawling 0 0 0 0 None false "http://a" None)).
  vm_compute. reflexivity.
Defined.

End Progress_claims.

(** * The Frontier Crawler (C2, C5) *)

Section Crawler_facts.

Import Crawler.

Variable scrape : nat -> string -> outcome string.
Variable hrefs : string -> list string.
Variable urljoin : string -> string -> string.
Variable netloc : string -> string.
Variable start_url : string.
Variable max_pages : option Z.

Local Abbreviation enqueue := (enqueue urljoin netloc start_url).
Local Abbreviation process_result := (process_result hrefs urljoin netloc start_url).
Local Abbreviation crawl_batch := (crawl_batch scrape hrefs urljoin netloc start_url).
Local Abbreviation crawl_loop := (crawl_loop scrape hrefs urljoin netloc start_url max_pages).
Local Abbreviation crawling := (crawling scrape hrefs urljoin netloc start_url max_pages).
Local Abbreviation same_site := (fun url : string => netloc url = netloc start_url).
Local Abbreviation crawl_inv := (crawl_inv netloc start_url).

Lemma enqueue_same_site url seen queue href :
  Forall same_site queue -> Forall same_site (enqueue url seen queue href).
Proof.
  intros H. unfold Crawler.enqueue.
  destruct (bool_decide (netloc (urljoin url href) = netloc start_url)) eqn:Hsite;
    simpl; [|done].
  destruct (bool_decide (urljoin url href ∉ seen)
            && bool_decide (urljoin url href ∉ queue)); [|done].
  destruct (negb (should_skip_url (urljoin url href))); [|done].
  apply Forall_app. split; [done|]. apply Forall_singleton.
  by apply bool_decide_eq_true in Hsite.
Qed.

Lemma enqueue_all_same_site url seen links queue :
  Forall same_site queue -> Forall same_site (fold_left (enqueue url seen) links queue).
Proof.
  revert queue. induction links as [|href links IH]; intros queue H; [done|].
  simpl. by apply IH, enqueue_same_site.
Qed.

Lemma fetches_unvisited_visit tr url :
  fetches_unvisited tr -> fetches_unvisited (tr ++ [Visit url]).
Proof.
  intros H i j u Hij Hi Hj.
  apply lookup_lt_Some in Hj as Hlen. rewrite length_app in Hlen. simpl in Hlen.
  destruct (decide (j = length tr)) as [->|Hne].
  - by rewrite list_lookup_middle in Hj.
  - rewrite lookup_app_l in Hj by lia. rewrite lookup_app_l in Hi by lia. eauto.
Qed.

Lemma fetches_unvisited_fetch tr (seen : gset string) tasks :
  fetches_unvisited tr ->
  (forall url, Visit url ∈ tr -> url ∈ seen) ->
  Forall (fun url => url ∉ seen) tasks ->
  fetches_unvisited (tr ++ map Fetch tasks).
Proof.
  intros H Hseen Htasks i j u Hij Hi Hj.
  destruct (decide (j < length tr)%nat) as [Hlt|Hge].
  - rewrite lookup_app_l in Hj by lia. rewrite lookup_app_l in Hi by lia. eauto.
  - rewrite lookup_app_r in Hj by lia.
    apply list_elem_of_lookup_2, list_elem_of_In, in_map_iff in Hj as (u' & [= ->] & Hu).
    apply list_elem_of_In in Hu. rewrite Forall_forall in Htasks.
    apply (Htasks u Hu), Hseen.
    destruct (decide (i < length tr)%nat) as [Hi'|Hi'].
    + rewrite lookup_app_l in Hi by lia. by eapply list_elem_of_lookup_2.
    + rewrite lookup_app_r in Hi by lia.
      apply list_elem_of_lookup_2, list_elem_of_In, in_map_iff in Hi as (? & ? & _).
      done.
Qed.

Lemma process_result_inv st url html :
  crawl_inv st -> same_site url -> crawl_inv (process_result st (url, html)).
Proof.
  intros (Hq & Hdom & Hvis & Hfetch & Hvisit & Htr) Hurl.
  unfold Crawler.process_result. destruct html as [html|e]; [|done].
  destruct (negb (truthy html)); [done|].
  unfold Crawler.crawl_inv. simpl. split_and!.
  - by apply enqueue_all_same_site.
  - rewrite dom_insert_L. by rewrite Hdom.
  - intros u [->%elem_of_singleton|Hu]%elem_of_union; [done|by apply Hvis].
  - intros u [Hu|Hu]%elem_of_app; [by apply Hfetch|].
    by apply list_elem_of_singleton in Hu.
  - intros u. rewrite elem_of_app, elem_of_union, list_elem_of_singleton, elem_of_singleton.
    rewrite Hvisit. split; intros [H|H]; auto; [left|right]; congruence.
  - by apply fetches_unvisited_visit.
Qed.

Lemma process_results_inv pairs st :
  crawl_inv st -> Forall (fun pair => same_site pair.1) pairs ->
  crawl_inv (fold_left process_result pairs st).
Proof.
  revert st. induction pairs as [|[url html] pairs IH]; intros st Hst Hpairs; [done|].
  apply Forall_cons in Hpairs as [Hurl Hpairs]. simpl.
  by apply IH; [apply process_result_inv|].
Qed.

Lemma crawl_batch_inv st : crawl_inv st -> crawl_inv (crawl_batch st).
Proof.
  intros (Hq & Hdom & Hvis & Hfetch & Hvisit & Htr).
  unfold Crawler.crawl_batch.
  set (batch_size := Nat.min 5 (length (urls_to_visit st))).
  set (tasks := filter (fun url => bool_decide (url ∉ visited st))
                  (firstn batch_size (urls_to_visit st))).
  assert (Hbatch : Forall same_site (firstn batch_size (urls_to_visit st))).
  { rewrite <- (firstn_skipn batch_size (urls_to_visit st)) in Hq.
    by apply Forall_app in Hq as [? _]. }
  assert (Htasks : Forall (fun url => same_site url /\ url ∉ visited st) tasks).
  { apply Forall_forall. intros u [Hu Hin]%list_elem_of_filter. split.
    - rewrite Forall_forall in Hbatch. by apply Hbatch.
    - by apply bool_decide_unpack in Hu. }
  apply process_results_inv.
  - unfold Crawler.crawl_inv. simpl. split_and!; try done.
    + rewrite <- (firstn_skipn batch_size (urls_to_visit st)) in Hq.
      by apply Forall_app in Hq as [_ ?].
    + intros u [Hu|Hu]%elem_of_app; [by apply Hfetch|].
      apply list_elem_of_In, in_map_iff in Hu as (u' & [= ->] & Hu).
      apply list_elem_of_In in Hu. rewrite Forall_forall in Htasks.
      by apply Htasks.
    + intros u. rewrite <- Hvisit, elem_of_app. split; [|by left].
      intros [Hu|Hu]; [done|].
      by apply list_elem_of_In, in_map_iff in Hu as (? & ? & _).
    + eapply fetches_unvisited_fetch; [done|by intros u Hu; apply Hvisit|].
      eapply Forall_impl; [exact Htasks|]. by intros u [_ ?].
  - apply Forall_forall. intros [u r] Hin. simpl.
    apply elem_of_zip_l in Hin. rewrite Forall_forall in Hbatch. by apply Hbatch.
Qed.

Lemma crawling_inv st : crawling st -> crawl_inv st.
Proof.
  induction 1 as [|st _ IH _ _].
  - unfold Crawler.crawl_inv, initial. simpl. split_and!.
    + by apply Forall_singleton.
    + by rewrite dom_empty_L.
    + intros u Hu. by apply elem_of_empty in Hu.
    + intros u Hu. by apply elem_of_nil in Hu.
    + intros u. split; intros Hu; [by apply elem_of_nil in Hu|by apply elem_of_empty in Hu].
    + intros i j u _ Hi. by rewrite lookup_nil in Hi.
  - by apply crawl_batch_inv.
Qed.

(** When the loop ends, it ends in one of its states. *)
Lemma crawl_loop_crawling fuel st st' :
  crawling st -> crawl_loop fuel st = Some st' -> crawling st'.
Proof.
  revert st. induction fuel as [|fuel IH]; intros st Hst Hloop; simpl in Hloop.
  - destruct (urls_to_visit st); [by injection Hloop as <-|].
    by destruct (cap_reached max_pages st); [injection Hloop as <-|].
  - destruct (urls_to_visit st) eqn:Hq; [by injection Hloop as <-|].
    destruct (cap_reached max_pages st) eqn:Hcap; [by injection Hloop as <-|].
    apply (IH (crawl_batch st)); [|done].
    apply crawling_round; [done|by rewrite Hq|done].
Qed.

Lemma process_result_size st pair :
  (size (visited (process_result st pair)) <= S (size (visited st)))%nat.
Proof.
  destruct pair as [url html].
  unfold Crawler.process_result. destruct html as [html|e]; [|lia].
  destruct (negb (truthy html)); [lia|]. simpl.
  rewrite size_union_alt, size_singleton.
  assert (size (visited st ∖ {[url]}) <= size (visited st))%nat; [|lia].
  apply subseteq_size, subseteq_difference_l. done.
Qed.

(** A round marks at most five URLs visited. *)
Lemma process_results_size pairs st :
  (size (visited (fold_left process_result pairs st))
   <= size (visited st) + length pairs)%nat.
Proof.
  revert st. induction pairs as [|pair pairs IH]; intros st; [simpl; lia|].
  change (fold_left process_result (pair :: pairs) st)
    with (fold_left process_result pairs (process_result st pair)).
  rewrite length_cons. pose proof (IH (process_result st pair)).
  pose proof (process_result_size st pair). lia.
Qed.

Lemma crawl_batch_size st :
  (size (visited (crawl_batch st)) <= size (visited st) + 5)%nat.
Proof.
  unfold Crawler.crawl_batch. etrans; [apply process_results_size|].
  cbn [visited]. rewrite length_zip_with, length_take. lia.
Qed.

(** What the page cap does bound: it is tested between the rounds, so
    the count can pass it by up to four. *)
Lemma crawling_visited_bound n st :
  max_pages = Some n -> crawling st ->
  Z.of_nat (size (visited st)) <= Z.max 0 (n + 4).
Proof.
  intros Hn. induction 1 as [|st _ IH _ Hcap].
  - change (visited (initial start_url)) with (∅ : gset string).
    rewrite size_empty. lia.
  - unfold cap_reached in Hcap. rewrite Hn in Hcap.
    rewrite Z.geb_leb in Hcap. apply Z.leb_gt in Hcap.
    pose proof (crawl_batch_size st). lia.
Qed.

End Crawler_facts.

Section Crawler_claims.

Import Crawler.

(** C2: the page cap is passed.  On the example site with a cap of 2
    pages the crawl ends with 4 pages visited and returned: the cap is
    tested before a batch of up to five URLs is fetched, and all of the
    batch is recorded. *)
Theorem crawl_exceeds_max_pages :
  exists st,
    Site.crawl (Some 2) 3 = Some st
    /\ size (visited st) = 4%nat
    /\ size (data st) = 4%nat
    /\ crawl_website_async Site.scrape Site.hrefs Site.urljoin Site.netloc
         Site.start_url (Some 2) 3 = Some (data st).
Proof.
  eexists. split; [by vm_compute|]. split_and!; by vm_compute.
Qed.

(** The scenario of the specification, with a cap of one page: one page
    is visited. *)
Example crawl_cap_one :
  exists st, Site.crawl (Some 1) 1 = Some st /\ size (visited st) = 1%nat.
Proof. eexists. split; by vm_compute. Qed.

(** C5.  In every state of the crawl, whether the crawl ends or not,
    the visited set holds the URLs the trace marks visited, a URL that
    was marked visited is not fetched afterwards, and every URL fetched
    and every key of the mapping is on the start URL's site; so is every
    key of the mapping the crawl returns. *)
Theorem crawl_same_site_no_revisit
    (scrape : nat -> string -> outcome string) (hrefs : string -> list string)
    (urljoin : string -> string -> string) (netloc : string -> string)
    (start_url : string) (max_pages : option Z) :
  (forall st,
     crawling scrape hrefs urljoin netloc start_url max_pages st ->
     (forall url, Visit url ∈ trace st <-> url ∈ visited st)
     /\ fetches_unvisited (trace st)
     /\ (forall url, Fetch url ∈ trace st -> netloc url = netloc start_url)
     /\ (forall url, url ∈ dom (data st) -> netloc url = netloc start_url))
  /\ (forall fuel pages,
        crawl_website_async scrape hrefs urljoin netloc start_url max_pages fuel
          = Some pages ->
        forall url, url ∈ dom pages -> netloc url = netloc start_url).
Proof.
  split.
  - intros st Hst. apply crawling_inv in Hst as (_ & Hdom & Hvis & Hfetch & Hvisit & Htr).
    split_and!; try done. intros url Hurl. rewrite Hdom in Hurl. by apply Hvis.
  - intros fuel pages Hpages url Hurl. unfold crawl_website_async in Hpages.
    destruct (Crawler.crawl_loop _ _ _ _ _ _ fuel _) as [st|] eqn:Hloop; [|done].
    injection Hpages as <-.
    apply crawl_loop_crawling in Hloop; [|apply crawling_initial].
    apply crawling_inv in Hloop as (_ & Hdom & Hvis & _). rewrite Hdom in Hurl.
    by apply Hvis.
Qed.

(** The state of the example site's crawl after its first round. *)
Lemma crawl_same_site_no_revisit_witness :
  let st := crawl_batch Site.scrape Site.hrefs Site.urljoin Site.netloc Site.start_url
              (initial Site.start_url) in
  (forall url, Visit url ∈ trace st <-> url ∈ visited st)
  /\ fetches_unvisited (trace st)
  /\ (forall url, Fetch url ∈ trace st -> Site.netloc url = Site.netloc Site.start_url)
  /\ (forall url, url ∈ dom (data st) -> Site.netloc url = Site.netloc Site.start_url).
Proof.
  apply (proj1 (crawl_same_site_no_revisit Site.scrape Site.hrefs Site.urljoin
                  Site.netloc Site.start_url None)).
  apply crawling_round; [apply crawling_initial|discriminate|reflexivity].
Defined.

(** The example site's crawl ends, and fetches each page once. *)
Example crawl_site_trace :
  trace <$> Site.crawl None 3
  = Some [Fetch "http://site.test/"; Visit "http://site.test/";
          Fetch "http://site.test/a"; Fetch "http://site.test/b";
          Fetch "http://site.test/c"; Visit "http://site.test/a";
          Visit "http://site.test/b"; Visit "http://site.test/c"]%string.
Proof. by vm_compute. Qed.

End Crawler_claims.

(** * The Frontier Crawler: the queue, the pages and the page cap *)

Section Crawler_more.

Import Crawler.

Variable scrape : nat -> string -> outcome string.
Variable hrefs : string -> list string.
Variable urljoin : string -> string -> string.
Variable netloc : string -> string.
Variable start_url : string.
Variable max_pages : option Z.

Local Abbreviation enqueue := (enqueue urljoin netloc start_url).
Local Abbreviation process_result := (process_result hrefs urljoin netloc start_url).
Local Abbreviation crawl_batch := (crawl_batch scrape hrefs urljoin netloc start_url).
Local Abbreviation crawl_loop := (crawl_loop scrape hrefs urljoin netloc start_url max_pages).
Local Abbreviation crawling := (crawling scrape hrefs urljoin netloc start_url max_pages).
Local Abbreviation gather := (gather scrape).
Local Abbreviation passes := (passes start_url).
Local Abbreviation queue_inv := (queue_inv start_url).
Local Abbreviation from_fetch := (from_fetch scrape).
Local Abbreviation data_inv := (data_inv scrape).

Lemma enqueue_queue_inv url seen queue href :
  NoDup queue /\ Forall passes queue ->
  NoDup (enqueue url seen queue href) /\ Forall passes (enqueue url seen queue href).
Proof.
  intros [Hnd Hpass]. unfold Crawler.enqueue.
  destruct (bool_decide (netloc (urljoin url href) = netloc start_url)); simpl; [|done].
  destruct (bool_decide (urljoin url href ∉ seen)); simpl; [|done].
  case_bool_decide as Hnew; simpl; [|done].
  destruct (should_skip_url (urljoin url href)) eqn:Hskip; simpl; [done|].
  split.
  - apply NoDup_app. split_and!; [done| |apply NoDup_singleton].
    intros u Hu ->%list_elem_of_singleton. done.
  - apply Forall_app. split; [done|]. apply Forall_singleton. by right.
Qed.

Lemma enqueue_all_queue_inv url seen links queue :
  NoDup queue /\ Forall passes queue ->
  NoDup (fold_left (enqueue url seen) links queue)
  /\ Forall passes (fold_left (enqueue url seen) links queue).
Proof.
  revert queue. induction links as [|href links IH]; intros queue H; [done|].
  simpl. by apply IH, enqueue_queue_inv.
Qed.

Lemma process_result_queue_inv st pair :
  queue_inv st -> queue_inv (process_result st pair).
Proof.
  intros (Hnd & Hpass & Hfetch). destruct pair as [url html].
  unfold Crawler.process_result. destruct html as [html|e]; [|done].
  destruct (negb (truthy html)); [done|].
  destruct (enqueue_all_queue_inv url ({[url]} ∪ visited st) (hrefs html)
              (urls_to_visit st)) as [Hnd' Hpass']; [done|].
  unfold queue_inv. simpl. split_and!; [done|done|].
  intros u [Hu|Hu]%elem_of_app; [by apply Hfetch|].
  by apply list_elem_of_singleton in Hu.
Qed.

Lemma process_results_queue_inv pairs st :
  queue_inv st -> queue_inv (fold_left process_result pairs st).
Proof.
  revert st. induction pairs as [|pair pairs IH]; intros st Hst; [done|].
  simpl. by apply IH, process_result_queue_inv.
Qed.

Lemma crawl_batch_queue_inv st : queue_inv st -> queue_inv (crawl_batch st).
Proof.
  intros (Hnd & Hpass & Hfetch). unfold Crawler.crawl_batch.
  set (batch_size := Nat.min 5 (length (urls_to_visit st))).
  apply process_results_queue_inv. unfold queue_inv. simpl.
  rewrite <- (firstn_skipn batch_size (urls_to_visit st)) in Hnd, Hpass.
  apply NoDup_app in Hnd as (_ & _ & Hnd). apply Forall_app in Hpass as [Hbatch Hrest].
  split_and!; [done|done|].
  intros u [Hu|Hu]%elem_of_app; [by apply Hfetch|].
  apply list_elem_of_In, in_map_iff in Hu as (u' & [= ->] & Hu).
  apply list_elem_of_In, list_elem_of_filter in Hu as [_ Hu].
  rewrite Forall_forall in Hbatch. by apply Hbatch.
Qed.

Lemma crawling_queue_inv st : crawling st -> queue_inv st.
Proof.
  induction 1 as [|st _ IH _ _]; [|by apply crawl_batch_queue_inv].
  unfold queue_inv, initial. simpl. split_and!.
  - apply NoDup_singleton.
  - apply Forall_singleton. by left.
  - intros u Hu. by apply elem_of_nil in Hu.
Qed.

(** *** Where the stored pages come from *)

(** The [i]-th result of a round is the outcome of its [i]-th fetch. *)
Lemma gather_lookup n tasks i r :
  gather n tasks !! i = Some r <->
  exists url, tasks !! i = Some url /\ r = scrape (n + i) url.
Proof.
  revert n i. induction tasks as [|u tasks IH]; intros n i; simpl.
  - rewrite lookup_nil. split; [done|]. by intros (? & ? & _).
  - destruct i as [|i]; simpl.
    + rewrite Nat.add_0_r. split.
      * intros [= <-]. by exists u.
      * by intros (? & [= <-] & ->).
    + rewrite IH. by replace (S n + i)%nat with (n + S i)%nat by lia.
Qed.

Lemma fetched_app tr1 tr2 : fetched (tr1 ++ tr2) = fetched tr1 ++ fetched tr2.
Proof. apply omap_app. Qed.

Lemma fetched_map_Fetch urls : fetched (map Fetch urls) = urls.
Proof. induction urls as [|u l IH]; [done|]. simpl. by rewrite IH. Qed.

Lemma process_result_data_inv urls st url r :
  data_inv urls st -> from_fetch urls r -> data_inv urls (process_result st (url, r)).
Proof.
  intros (Htr & Hlen & Hdata) Hr.
  unfold Crawler.process_result. destruct r as [html|e]; [|done].
  destruct (truthy html) eqn:Hhtml; simpl; [|done].
  unfold data_inv. simpl. split_and!.
  - rewrite fetched_app. simpl. by rewrite app_nil_r.
  - done.
  - intros u h. rewrite lookup_insert_Some.
    intros [[_ <-]|[_ Hu]]; [by split|by apply (Hdata u)].
Qed.

Lemma process_results_data_inv urls pairs st :
  data_inv urls st -> Forall (fun pair => from_fetch urls pair.2) pairs ->
  data_inv urls (fold_left process_result pairs st).
Proof.
  revert st. induction pairs as [|[url r] pairs IH]; intros st Hst Hpairs; [done|].
  apply Forall_cons in Hpairs as [Hr Hpairs]. simpl.
  by apply IH; [apply process_result_data_inv|].
Qed.

Lemma crawl_batch_data_inv st :
  data_inv (fetched (trace st)) st ->
  data_inv (fetched (trace (crawl_batch st))) (crawl_batch st).
Proof.
  intros (_ & Hlen & Hdata). unfold Crawler.crawl_batch.
  set (batch_size := Nat.min 5 (length (urls_to_visit st))).
  set (current_batch := firstn batch_size (urls_to_visit st)).
  set (tasks := filter (fun url => bool_decide (url ∉ visited st)) current_batch).
  set (st1 := mkState _ _ _ _ _).
  assert (Hst1 : data_inv (fetched (trace st) ++ tasks) st1
                 /\ Forall (fun pair => from_fetch (fetched (trace st) ++ tasks) pair.2)
                      (zip current_batch (gather (fetches st) tasks))).
  { split.
    - unfold data_inv, st1. simpl. split_and!.
      + by rewrite fetched_app, fetched_map_Fetch.
      + rewrite length_app. lia.
      + intros u h Hu. destruct (Hdata u h Hu) as [Hh Hfrom]. split; [done|].
        intros h' [= <-]. destruct (Hfrom h eq_refl) as (n & u' & Hn & Hs).
        exists n, u'. split; [|done]. by apply lookup_app_l_Some.
    - apply Forall_forall. intros [u r] Hin%elem_of_zip_r.
      apply list_elem_of_lookup in Hin as [i Hi].
      apply gather_lookup in Hi as (u' & Hu' & ->). simpl.
      intros html Hhtml. exists (fetches st + i)%nat, u'. split; [|done].
      rewrite lookup_app_r by lia. rewrite <- Hu'. f_equal. lia. }
  destruct Hst1 as [Hst1 Hpairs].
  pose proof (process_results_data_inv _ _ _ Hst1 Hpairs) as Hend.
  destruct Hend as (Htr & Hend). rewrite Htr. by split.
Qed.

Lemma crawling_data_inv st : crawling st -> data_inv (fetched (trace st)) st.
Proof.
  induction 1 as [|st _ IH _ _]; [|by apply crawl_batch_data_inv].
  unfold data_inv, initial. simpl. split_and!; [done|done|].
  intros u h Hu. by rewrite lookup_empty in Hu.
Qed.

Lemma fetched_elem_of tr url : url ∈ fetched tr <-> Fetch url ∈ tr.
Proof.
  unfold fetched. rewrite list_elem_of_omap. split.
  - intros (e & He & Hurl). destruct e; by simplify_eq.
  - intros H. by exists (Fetch url).
Qed.

(** *** One round, pair by pair *)

Lemma process_results_data pairs st url html :
  data (fold_left process_result pairs st) !! url = Some html ->
  data st !! url = Some html \/ ((url, Ok html) ∈ pairs /\ truthy html = true).
Proof.
  revert st. induction pairs as [|[u r] pairs IH]; intros st H; [by left|].
  simpl in H. apply IH in H as [H|[H Hh]]; [|right; split; [by right|done]].
  unfold Crawler.process_result in H. destruct r as [h|e]; [|by left].
  destruct (truthy h) eqn:Hh; simpl in H; [|by left].
  apply lookup_insert_Some in H as [[<- <-]|[_ H]]; [|by left].
  right. split; [by left|done].
Qed.

Lemma filter_all {A} (P : A -> Prop) `{forall x, Decision (P x)} (l : list A) :
  Forall P l -> filter P l = l.
Proof.
  induction 1 as [|x l Hx _ IH]; [done|]. by rewrite filter_cons_True, IH.
Qed.

End Crawler_more.

Section Crawler_more_claims.

Import Crawler.

(** X10.  With a page cap of zero or less the crawl stops before its
    first round: it fetches nothing and returns the empty mapping,
    whatever the site. *)
Theorem crawl_cap_not_positive
    (scrape : nat -> string -> outcome string) (hrefs : string -> list string)
    (urljoin : string -> string -> string) (netloc : string -> string)
    (start_url : string) (n : Z) (fuel : nat) :
  n <= 0 ->
  crawl_loop scrape hrefs urljoin netloc start_url (Some n) fuel (initial start_url)
    = Some (initial start_url)
  /\ crawl_website_async scrape hrefs urljoin netloc start_url (Some n) fuel = Some ∅.
Proof.
  intros Hn.
  assert (H : crawl_loop scrape hrefs urljoin netloc start_url (Some n) fuel
                (initial start_url) = Some (initial start_url)).
  { assert (Hcap : cap_reached (Some n) (initial start_url) = true).
    { unfold cap_reached.
      change (visited (initial start_url)) with (∅ : gset string).
      rewrite size_empty, Z.geb_leb. by apply Z.leb_le. }
    destruct fuel; cbn -[cap_reached]; by rewrite Hcap. }
  split; [done|]. unfold crawl_website_async. by rewrite H.
Qed.

Lemma crawl_cap_not_positive_witness :
  crawl_loop Site.scrape Site.hrefs Site.urljoin Site.netloc Site.start_url (Some 0) 0
    (initial Site.start_url)
    = Some (initial Site.start_url)
  /\ crawl_website_async Site.scrape Site.hrefs Site.urljoin Site.netloc
       Site.start_url (Some 0) 0 = Some ∅.
Proof.
  apply (crawl_cap_not_positive Site.scrape Site.hrefs Site.urljoin Site.netloc
           Site.start_url 0 0).
  lia.
Defined.

(** X11.  What a page cap [n >= 1] does bound: the cap is tested between
    the rounds and a round records up to five pages, so the crawl never
    holds more than [n + 4] visited URLs, and returns at most [n + 4]
    pages. *)
Theorem crawl_page_bound
    (scrape : nat -> string -> outcome string) (hrefs : string -> list string)
    (urljoin : string -> string -> string) (netloc : string -> string)
    (start_url : string) (n : Z) (fuel : nat) (pages : gmap string string) :
  0 < n ->
  crawl_website_async scrape hrefs urljoin netloc start_url (Some n) fuel = Some pages ->
  Z.of_nat (size pages) <= n + 4.
Proof.
  intros Hn Hcrawl. unfold crawl_website_async in Hcrawl.
  destruct (crawl_loop _ _ _ _ _ _ _ _) as [st|] eqn:Hloop; [|done].
  injection Hcrawl as <-.
  apply crawl_loop_crawling in Hloop; [|apply crawling_initial].
  pose proof (crawling_visited_bound _ _ _ _ _ _ n st eq_refl Hloop) as Hbound.
  destruct (crawling_inv _ _ _ _ _ _ st Hloop) as (_ & Hdom & _).
  rewrite <- size_dom, Hdom. lia.
Qed.

Lemma crawl_page_bound_witness :
  Z.of_nat (size (data (default (initial Hub.start_url) (Hub.crawl (Some 2) 3)))) <= 2 + 4.
Proof.
  apply (crawl_page_bound Hub.scrape Hub.hrefs Site.urljoin Site.netloc Hub.start_url
           2 3); [lia|].
  by vm_compute.
Defined.

(** The bound is reached: with a cap of 2, the home page and its five
    links make 6 pages. *)
Example crawl_bound_reached :
  (fun st => size (visited st)) <$> Hub.crawl (Some 2) 3 = Some 6%nat.
Proof. by vm_compute. Qed.

(** X12.  Every page of the returned mapping is a non-empty body that
    one of the fetches of the crawl returned, and that fetch went to
    the site of the start URL. *)
Theorem crawl_pages_fetched
    (scrape : nat -> string -> outcome string) (hrefs : string -> list string)
    (urljoin : string -> string -> string) (netloc : string -> string)
    (start_url : string) (max_pages : option Z) (fuel : nat)
    (pages : gmap string string) (url html : string) :
  crawl_website_async scrape hrefs urljoin netloc start_url max_pages fuel
    = Some pages ->
  pages !! url = Some html ->
  html <> EmptyString
  /\ exists st n fetched_url,
       crawl_loop scrape hrefs urljoin netloc start_url max_pages fuel
         (initial start_url) = Some st
       /\ fetched (trace st) !! n = Some fetched_url
       /\ scrape n fetched_url = Ok html
       /\ netloc fetched_url = netloc start_url.
Proof.
  intros Hcrawl Hpage. unfold crawl_website_async in Hcrawl.
  destruct (crawl_loop _ _ _ _ _ _ _ _) as [st|] eqn:Hloop; [|done].
  injection Hcrawl as <-.
  apply crawl_loop_crawling in Hloop as Hst; [|apply crawling_initial].
  destruct (crawling_data_inv _ _ _ _ _ _ st Hst) as (_ & _ & Hdata).
  destruct (Hdata url html Hpage) as [Hhtml Hfrom].
  destruct (Hfrom html eq_refl) as (n & u & Hn & Hs).
  split; [by destruct html|].
  exists st, n, u. split_and!; try done.
  destruct (crawling_inv _ _ _ _ _ _ st Hst) as (_ & _ & _ & Hfetch & _).
  apply Hfetch, fetched_elem_of. by eapply list_elem_of_lookup_2.
Qed.

Lemma crawl_pages_fetched_witness :
  "page"%string <> EmptyString
  /\ exists st n fetched_url,
       crawl_loop Site.scrape Site.hrefs Site.urljoin Site.netloc Site.start_url None 3
         (initial Site.start_url) = Some st
       /\ fetched (trace st) !! n = Some fetched_url
       /\ Site.scrape n fetched_url = Ok "page"%string
       /\ Site.netloc fetched_url = Site.netloc Site.start_url.
Proof.
  apply (crawl_pages_fetched Site.scrape Site.hrefs Site.urljoin Site.netloc
           Site.start_url None 3
           (data (default (initial Site.start_url) (Site.crawl None 3)))
           "http://site.test/a" "page").
  - by vm_compute.
  - by vm_compute.
Defined.

(** X13.  The queue never holds a URL twice, and apart from the start
    URL, which is fetched as it is given, every URL that is queued or
    fetched has passed the skip filter. *)
Theorem crawl_queue_filtered
    (scrape : nat -> string -> outcome string) (hrefs : string -> list string)
    (urljoin : string -> string -> string) (netloc : string -> string)
    (start_url : string) (max_pages : option Z) (st : state) :
  crawling scrape hrefs urljoin netloc start_url max_pages st ->
  NoDup (urls_to_visit st)
  /\ (forall url, url ∈ urls_to_visit st \/ Fetch url ∈ trace st ->
        url = start_url \/ should_skip_url url = false).
Proof.
  intros Hst.
  destruct (crawling_queue_inv _ _ _ _ _ _ st Hst) as (Hnd & Hpass & Hfetch).
  split; [done|]. intros url [Hq|Hf]; [|by apply Hfetch].
  rewrite Forall_forall in Hpass. by apply Hpass.
Qed.

Lemma crawl_queue_filtered_witness :
  let st := crawl_batch Site.scrape Site.hrefs Site.urljoin Site.netloc Site.start_url
              (initial Site.start_url) in
  NoDup (urls_to_visit st)
  /\ (forall url, url ∈ urls_to_visit st \/ Fetch url ∈ trace st ->
        url = Site.start_url \/ should_skip_url url = false).
Proof.
  apply (crawl_queue_filtered Site.scrape Site.hrefs Site.urljoin Site.netloc
           Site.start_url None).
  apply crawling_round; [apply crawling_initial|discriminate|reflexivity].
Defined.

(** The mail link of the home page is not queued. *)
Example crawl_site_queue :
  urls_to_visit (crawl_batch Site.scrape Site.hrefs Site.urljoin Site.netloc
                   Site.start_url (initial Site.start_url))
  = ["http://site.test/a"; "http://site.test/b"; "http://site.test/c"]%string.
Proof. by vm_compute. Qed.

(** X14.  In a round whose batch holds no URL that is visited already,
    every page the round stores under a URL is the non-empty body that
    the fetch of this URL returned.  (The results are paired with the
    batch by position, while the fetches are issued for the unvisited
    URLs of the batch only: see [crawl_shifted_pairing] for a batch with
    a visited URL.) *)
Theorem crawl_batch_aligned
    (scrape : nat -> string -> outcome string) (hrefs : string -> list string)
    (urljoin : string -> string -> string) (netloc : string -> string)
    (start_url : string) (st : state) (url html : string) :
  let current_batch :=
    firstn (Nat.min 5 (length (urls_to_visit st))) (urls_to_visit st) in
  Forall (fun u => u ∉ visited st) current_batch ->
  data (crawl_batch scrape hrefs urljoin netloc start_url st) !! url = Some html ->
  data st !! url = Some html
  \/ (html <> EmptyString
      /\ exists i, current_batch !! i = Some url
                   /\ scrape (fetches st + i)%nat url = Ok html).
Proof.
  intros current_batch Hfresh Hdata. unfold crawl_batch in Hdata.
  fold current_batch in Hdata.
  rewrite (filter_all (fun u => bool_decide (u ∉ visited st)) current_batch) in Hdata.
  2:{ eapply Forall_impl; [exact Hfresh|]. intros u Hu. by apply bool_decide_pack. }
  apply process_results_data in Hdata as [Hdata|[Hin Hhtml]]; [by left|].
  right. split; [by destruct html|].
  apply list_elem_of_lookup in Hin as [i Hi].
  apply lookup_zip_Some in Hi as [Hu Hr].
  apply gather_lookup in Hr as (u' & Hu' & Hs).
  exists i. split; [done|]. congruence.
Qed.

Lemma crawl_batch_aligned_witness :
  let st := initial Site.start_url in
  data st !! "http://site.test/"%string = Some "home"%string
  \/ ("home"%string <> EmptyString
      /\ exists i, firstn (Nat.min 5 (length (urls_to_visit st))) (urls_to_visit st) !! i
                   = Some "http://site.test/"%string
                   /\ Site.scrape (fetches st + i)%nat "http://site.test/" = Ok "home"%string).
Proof.
  apply (crawl_batch_aligned Site.scrape Site.hrefs Site.urljoin Site.netloc
           Site.start_url (initial Site.start_url) "http://site.test/" "home").
  - apply Forall_singleton. apply not_elem_of_empty.
  - by vm_compute.
Defined.

(** A batch with a visited URL: on the site [Linked] the page [/b] is
    queued a second time while it waits in its batch, so the third batch
    is [/b], [/g] with [/b] visited.  One fetch is issued, for [/g], and
    its body is paired with [/b]: the mapping ends with the page of [/g]
    under the URL of [/b], and without [/g]. *)
Example crawl_shifted_pairing :
  (fun st => (data st !! "http://site.test/b"%string,
              data st !! "http://site.test/g"%string,
              fetched (trace st)))
    <$> Linked.crawl None 5
  = Some (Some "http://site.test/g"%string, None,
          ["http://site.test/"; "http://site.test/a"; "http://site.test/b";
           "http://site.test/g"]%string).
Proof. by vm_compute. Qed.

End Crawler_more_claims.

(** * The skip filter of the crawler *)

Section Skip_filter.

Import Crawler.

Lemma prefix_spec a b : String.prefix a b = true <-> exists rest, b = a +:+ rest.
Proof.
  revert b. induction a as [|x a IH]; intros b.
  - destruct b; simpl; (split; [intros _; by eexists|done]).
  - destruct b as [|y b]; simpl.
    + split; [done|]. by intros [rest ?].
    + destruct (ascii_dec x y) as [->|Hne].
      * rewrite IH. split; intros [rest H]; exists rest.
        -- by rewrite append_cons, H.
        -- rewrite append_cons in H. by injection H.
      * split; [done|]. intros [rest H]. rewrite append_cons in H.
        injection H as ? _. by subst.
Qed.

Lemma rev_append a b : String.rev (a +:+ b) = String.rev b +:+ String.rev a.
Proof.
  induction a as [|x a IH].
  - by rewrite append_nil_l, append_nil_r.
  - by rewrite append_cons, !rev_cons, IH, append_assoc.
Qed.

Lemma rev_involutive s : String.rev (String.rev s) = s.
Proof.
  induction s as [|x s IH]; [done|].
  rewrite rev_cons, rev_append, IH. done.
Qed.

(** [s.endswith(suffix)]: [s] ends with [suffix]. *)
Lemma endswith_spec s suffix :
  endswith s suffix = true <-> exists pre, s = pre +:+ suffix.
Proof.
  unfold endswith. rewrite prefix_spec. split.
  - intros [rest H]. exists (String.rev rest).
    by rewrite <- (rev_involutive s), H, rev_append, rev_involutive.
  - intros [pre ->]. exists (String.rev pre). by rewrite rev_append.
Qed.

(** [pattern in s]: [pattern] occurs in [s]. *)
Lemma contains_spec pattern s :
  contains pattern s = true <-> exists pre post, s = pre +:+ pattern +:+ post.
Proof.
  induction s as [|x s IH].
  - cbn [contains]. rewrite orb_false_r, prefix_spec. split.
    + intros [rest H]. by exists EmptyString, rest.
    + intros (pre & post & H). symmetry in H.
      apply append_empty in H as [-> H]. apply append_empty in H as [-> ->].
      by exists EmptyString.
  - cbn [contains]. rewrite orb_true_iff, prefix_spec, IH. split.
    + intros [[rest H]|(pre & post & ->)].
      * by exists EmptyString, rest.
      * by exists (String x pre), post.
    + intros (pre & post & H). destruct pre as [|y pre].
      * left. by exists post.
      * right. rewrite append_cons in H. injection H as -> ->. by exists pre, post.
Qed.

Lemma lower_append a b : lower (a +:+ b) = lower a +:+ lower b.
Proof.
  induction a as [|x a IH]; [done|]. rewrite append_cons. simpl.
  by rewrite append_cons, IH.
Qed.

Lemma lower_char_idem c : lower_char (lower_char c) = lower_char c.
Proof.
  destruct c as [[] [] [] [] [] [] [] []]; by vm_compute.
Qed.

Lemma lower_idem s : lower (lower s) = lower s.
Proof.
  induction s as [|x s IH]; [done|]. simpl. by rewrite lower_char_idem, IH.
Qed.

End Skip_filter.

Section Skip_filter_claims.

Import Crawler.

(** X15.  [should_skip_url] skips a URL exactly when its lower-case
    form ends with one of the twelve file extensions or contains one of
    the five patterns, anywhere.  So the test does not depend on the
    case of the letters, every URL with a fragment ([#]) is skipped, and
    an extension counts only at the very end of the URL. *)
Theorem should_skip_url_spec (url : string) :
  (should_skip_url url = true <->
     (exists ext pre, ext ∈ skip_extensions /\ lower url = pre +:+ ext)
     \/ (exists pattern pre post,
           pattern ∈ skip_patterns /\ lower url = pre +:+ pattern +:+ post))
  /\ should_skip_url (lower url) = should_skip_url url
  /\ (forall fragment, should_skip_url (url +:+ "#" +:+ fragment) = true).
Proof.
  assert (Hspec : forall u,
    should_skip_url u = true <->
      (exists ext pre, ext ∈ skip_extensions /\ lower u = pre +:+ ext)
      \/ (exists pattern pre post,
            pattern ∈ skip_patterns /\ lower u = pre +:+ pattern +:+ post)).
  { intros u. unfold should_skip_url.
    rewrite orb_true_iff, !existsb_exists. split.
    - intros [(ext & Hin & H)|(pattern & Hin & H)].
      + left. apply endswith_spec in H as [pre H]. exists ext, pre.
        split; [by apply list_elem_of_In|done].
      + right. apply contains_spec in H as (pre & post & H). exists pattern, pre, post.
        split; [by apply list_elem_of_In|done].
    - intros [(ext & pre & Hin & H)|(pattern & pre & post & Hin & H)].
      + left. exists ext. split; [by apply list_elem_of_In|].
        apply endswith_spec. by exists pre.
      + right. exists pattern. split; [by apply list_elem_of_In|].
        apply contains_spec. by exists pre, post. }
  split_and!.
  - apply Hspec.
  - unfold should_skip_url. by rewrite lower_idem.
  - intros fragment. apply Hspec. right.
    exists "#"%string, (lower url), (lower fragment).
    split; [by left|]. by rewrite !lower_append.
Qed.

(** An extension in the middle of a URL does not count, an upper-case
    one at its end does. *)
Example should_skip_url_examples :
  should_skip_url "http://site.test/a.pdf?download=1" = false
  /\ should_skip_url "http://site.test/A.PDF" = true
  /\ should_skip_url "http://site.test/page#top" = true
  /\ should_skip_url "http://site.test/hotel:rooms" = true.
Proof. by vm_compute. Qed.

End Skip_filter_claims.

(** * Facts about the operations on the globals *)

Section Store_ops.

Import Tasks.

Variable clock : nat -> Z.

Lemma active_of_fst user_id w : (active_of user_id w).1 = active_set user_id w.
Proof. unfold active_of, active_set. by destruct (active_tasks w !! user_id). Qed.

Lemma active_of_active_set user_id w user_id' :
  active_set user_id' (active_of user_id w).2 = active_set user_id' w.
Proof.
  unfold active_of, active_set.
  destruct (active_tasks w !! user_id) eqn:Hu; [done|]. simpl.
  destruct (decide (user_id = user_id')) as [<-|Hne].
  - by rewrite lookup_insert_eq, Hu.
  - by rewrite lookup_insert_ne.
Qed.

Lemma active_of_progress user_id w :
  scraping_progress (active_of user_id w).2 = scraping_progress w.
Proof. unfold active_of. by destruct (active_tasks w !! user_id). Qed.

Lemma active_of_lookup_task user_id w user_id' task_id' :
  lookup_task user_id' task_id' (active_of user_id w).2 = lookup_task user_id' task_id' w.
Proof. unfold lookup_task. by rewrite active_of_progress. Qed.

(** A user with a task in the active set has an entry: the read
    changes nothing. *)
Lemma active_of_known user_id w :
  active_set user_id w <> ∅ -> (active_of user_id w).2 = w.
Proof.
  unfold active_of, active_set. by destruct (active_tasks w !! user_id).
Qed.

Lemma store_active_active_set user_id tasks w user_id' :
  active_set user_id' (store_active user_id tasks w)
  = if decide (user_id' = user_id) then tasks else active_set user_id' w.
Proof.
  unfold store_active, active_set. simpl. case_decide as Hu.
  - subst. by rewrite lookup_insert_eq.
  - by rewrite lookup_insert_ne.
Qed.

Lemma store_active_lookup_task user_id tasks w user_id' task_id' :
  lookup_task user_id' task_id' (store_active user_id tasks w)
  = lookup_task user_id' task_id' w.
Proof. done. Qed.

Lemma store_snapshot_active_set user_id task_id snap w user_id' :
  active_set user_id' (store_snapshot user_id task_id snap w) = active_set user_id' w.
Proof. unfold active_set. by rewrite store_snapshot_active. Qed.

Lemma progress_of_active_set user_id w user_id' :
  active_set user_id' (progress_of user_id w).2 = active_set user_id' w.
Proof. unfold active_set. by rewrite progress_of_active. Qed.

(** [update_progress] on a task that is there. *)
Lemma update_progress_lookup user_id task_id s kw w snap user_id' task_id' :
  lookup_task user_id task_id w = Some snap ->
  lookup_task user_id' task_id' (update_progress clock user_id task_id s kw w)
  = if decide (user_id' = user_id /\ task_id' = task_id)
    then Some (let snap' := apply_update s (clock (clock_reads w)) kw snap in
               if is_terminal s then set_completed snap' else snap')
    else lookup_task user_id' task_id' w.
Proof.
  intros H. apply lookup_task_Some in H as (tasks & Hu & Ht).
  unfold update_progress. rewrite (progress_of_known _ _ _ Hu), Ht.
  unfold now. simpl. rewrite store_snapshot_lookup. done.
Qed.

(** [update_progress] on a task that is not there. *)
Lemma update_progress_unknown user_id task_id s kw w user_id' task_id' :
  lookup_task user_id task_id w = None ->
  lookup_task user_id' task_id' (update_progress clock user_id task_id s kw w)
  = lookup_task user_id' task_id' w.
Proof.
  intros H. unfold update_progress.
  destruct (progress_of user_id w) as [tasks w1] eqn:Hp.
  assert (tasks !! task_id = None) as ->.
  { by rewrite <- H, <- progress_of_lookup, Hp. }
  by rewrite <- (progress_of_lookup_task user_id w), Hp.
Qed.

Lemma update_progress_active_set user_id task_id s kw w user_id' :
  active_set user_id' (update_progress clock user_id task_id s kw w)
  = active_set user_id' w.
Proof.
  unfold update_progress.
  destruct (progress_of user_id w) as [tasks w1] eqn:Hp.
  assert (Hw1 : active_set user_id' w1 = active_set user_id' w).
  { by rewrite <- (progress_of_active_set user_id w), Hp. }
  destruct (tasks !! task_id); [|done].
  unfold now. simpl. by rewrite store_snapshot_active_set.
Qed.

Lemma discard_active_lookup_task user_id task_id w user_id' task_id' :
  lookup_task user_id' task_id' (discard_active user_id task_id w)
  = lookup_task user_id' task_id' w.
Proof.
  unfold discard_active.
  destruct (active_of user_id w) as [tasks w1] eqn:Ha.
  rewrite store_active_lookup_task.
  by rewrite <- (active_of_lookup_task user_id w), Ha.
Qed.

Lemma discard_active_active_set user_id task_id w user_id' :
  active_set user_id' (discard_active user_id task_id w)
  = if decide (user_id' = user_id) then active_set user_id w ∖ {[task_id]}
    else active_set user_id' w.
Proof.
  unfold discard_active.
  destruct (active_of user_id w) as [tasks w1] eqn:Ha.
  rewrite store_active_active_set.
  assert (tasks = active_set user_id w) as ->.
  { by rewrite <- active_of_fst, Ha. }
  case_decide; [done|].
  by rewrite <- (active_of_active_set user_id w), Ha.
Qed.

Lemma get_scraping_progress_active_set task_id user_id w user_id' :
  active_set user_id' (get_scraping_progress clock task_id user_id w).2
  = active_set user_id' w.
Proof.
  unfold get_scraping_progress.
  destruct (progress_of user_id w) as [tasks w1] eqn:Hp.
  assert (Hw1 : active_set user_id' w1 = active_set user_id' w).
  { by rewrite <- (progress_of_active_set user_id w), Hp. }
  destruct (tasks !! task_id) as [snap|]; [|done].
  unfold now. simpl.
  destruct (is_completed snap || error_set snap); [done|].
  destruct (_ <? _); [done|]. simpl. by rewrite store_snapshot_active_set.
Qed.

(** A poll leaves the status and the flag of every task. *)
Lemma get_scraping_progress_view task_id user_id w user_id' task_id' :
  task_view user_id' task_id' (get_scraping_progress clock task_id user_id w).2
  = task_view user_id' task_id' w.
Proof.
  unfold task_view, get_scraping_progress.
  destruct (progress_of user_id w) as [tasks w1] eqn:Hp.
  assert (Htasks : tasks !! task_id = lookup_task user_id task_id w).
  { by rewrite <- progress_of_lookup, Hp. }
  assert (Hw1 : forall u t, lookup_task u t w1 = lookup_task u t w).
  { intros u t. by rewrite <- (progress_of_lookup_task user_id w), Hp. }
  destruct (tasks !! task_id) as [snap|]; [|simpl; by rewrite Hw1].
  unfold now. simpl.
  destruct (is_completed snap || error_set snap); [by rewrite <- Hw1|].
  destruct (_ <? _); [by rewrite <- Hw1|]. cbn [snd].
  rewrite store_snapshot_lookup. case_decide as Heq; [|by rewrite <- Hw1].
  destruct Heq as [-> ->]. by rewrite <- Htasks.
Qed.

Section WithEnvironment.

Variable task_id_of : string -> Z -> string -> string.
Variable html_parser : string -> outcome (list Cleaner.node).

Local Abbreviation scrape_and_ingest := (scrape_and_ingest clock task_id_of html_parser).

(** At the cap, the request is rejected and nothing is touched. *)
Lemma scrape_and_ingest_rejected req_url user_id w :
  MAX_CONCURRENT_TASKS <= Z.of_nat (size (active_set user_id w)) ->
  scrape_and_ingest req_url user_id w = (Raise too_many_tasks, w, None).
Proof.
  intros Hcap. unfold Tasks.scrape_and_ingest.
  destruct (active_of user_id w) as [tasks w1] eqn:Ha.
  assert (tasks = active_set user_id w) as ->.
  { by rewrite <- active_of_fst, Ha. }
  assert (w1 = w) as ->.
  { rewrite <- (active_of_known user_id w), Ha; [done|].
    intros Hempty. rewrite Hempty, size_empty in Hcap. unfold MAX_CONCURRENT_TASKS in Hcap.
    lia. }
  destruct (Z.geb_spec (Z.of_nat (size (active_set user_id w))) MAX_CONCURRENT_TASKS);
    [done|lia].
Qed.

(** Below the cap, the request is admitted: a fresh snapshot in state
    [crawling] is stored, the task joins the active set and its
    coroutine is handed over. *)
Lemma scrape_and_ingest_admitted req_url user_id w :
  Z.of_nat (size (active_set user_id w)) < MAX_CONCURRENT_TASKS ->
  exists task_id t1 t2 w1,
    scrape_and_ingest req_url user_id w
    = (Ok (task_id, "started"%string), w1,
       Some (process_scraping html_parser req_url task_id user_id user_id))
    /\ lookup_task user_id task_id w1
       = Some (mkSnapshot Crawling t1 t2 0 0 None false req_url None)
    /\ (forall user_id' task_id',
          ~ (user_id' = user_id /\ task_id' = task_id) ->
          lookup_task user_id' task_id' w1 = lookup_task user_id' task_id' w)
    /\ active_set user_id w1 = {[task_id]} ∪ active_set user_id w
    /\ (forall user_id', user_id' <> user_id ->
          active_set user_id' w1 = active_set user_id' w).
Proof.
  intros Hcap. unfold Tasks.scrape_and_ingest.
  destruct (active_of user_id w) as [tasks w1] eqn:Ha.
  assert (tasks = active_set user_id w) as ->.
  { by rewrite <- active_of_fst, Ha. }
  assert (Hw1 : forall u t, lookup_task u t w1 = lookup_task u t w).
  { intros u t. by rewrite <- (active_of_lookup_task user_id w), Ha. }
  assert (Hw1' : forall u, active_set u w1 = active_set u w).
  { intros u. by rewrite <- (active_of_active_set user_id w), Ha. }
  destruct (Z.geb_spec (Z.of_nat (size (active_set user_id w))) MAX_CONCURRENT_TASKS);
    [lia|].
  unfold now. simpl.
  set (task_id := task_id_of req_url (clock (clock_reads w1)) user_id).
  set (snap := mkSnapshot Crawling _ _ 0 0 None false req_url None).
  set (w2 := store_snapshot user_id task_id snap _).
  destruct (active_of user_id w2) as [tasks2 w3] eqn:Ha2.
  assert (Hw2 : forall u, active_set u w2 = active_set u w).
  { intros u. unfold w2. rewrite store_snapshot_active_set. apply Hw1'. }
  assert (tasks2 = active_set user_id w) as ->.
  { by rewrite <- Hw2, <- active_of_fst, Ha2. }
  assert (Hw3 : forall u t, lookup_task u t w3 = lookup_task u t w2).
  { intros u t. by rewrite <- (active_of_lookup_task user_id w2), Ha2. }
  assert (Hw3' : forall u, active_set u w3 = active_set u w).
  { intros u. by rewrite <- Hw2, <- (active_of_active_set user_id w2), Ha2. }
  eexists task_id, _, _, _. split; [done|]. split_and!.
  - rewrite store_active_lookup_task, Hw3. unfold w2.
    rewrite store_snapshot_lookup. by rewrite decide_True.
  - intros u t Hne. rewrite store_active_lookup_task, Hw3. unfold w2.
    rewrite store_snapshot_lookup. rewrite decide_False by done. apply Hw1.
  - rewrite store_active_active_set. by rewrite decide_True.
  - intros u Hne. rewrite store_active_active_set. rewrite decide_False by done.
    apply Hw3'.
Qed.

End WithEnvironment.

End Store_ops.

(** * Batches: [for i in range(0, len(l), size): l[i:i + size]] *)

Section Batches.

Import Tasks.

Lemma range_step_0 step : (0 < step)%nat -> range_step 0 step = [].
Proof.
  intros H. unfold range_step.
  by rewrite Nat.div_small by lia.
Qed.

Lemma range_step_pos stop step :
  (0 < step)%nat -> (0 < stop)%nat ->
  range_step stop step
  = 0%nat :: map (fun i => i + step)%nat (range_step (stop - step) step).
Proof.
  intros Hstep Hstop. unfold range_step.
  assert (Hcount : ((stop + step - 1) / step
                    = S ((stop - step + step - 1) / step))%nat).
  { destruct (decide (step <= stop)%nat) as [Hle|Hlt].
    - replace (stop + step - 1)%nat with ((stop - step + step - 1) + 1 * step)%nat by lia.
      rewrite Nat.div_add by lia. lia.
    - replace (stop - step + step - 1)%nat with (step - 1)%nat by lia.
      rewrite (Nat.div_small (step - 1)) by lia.
      symmetry. apply (Nat.div_unique _ _ _ (stop - 1)%nat); lia. }
  rewrite Hcount. cbn [seq map]. f_equal.
  rewrite <- seq_shift, !map_map. apply map_ext. intros j. lia.
Qed.

Context {A : Type}.
Implicit Types l : list A.

Lemma batches_of_nil size : (0 < size)%nat -> batches_of (@nil A) size = [].
Proof. intros H. unfold batches_of. simpl. by rewrite range_step_0. Qed.

(** The first batch is cut off, the rest is batched in the same way. *)
Lemma batches_of_step l size :
  (0 < size)%nat -> l <> [] ->
  batches_of l size = firstn size l :: batches_of (skipn size l) size.
Proof.
  intros Hsize Hl. unfold batches_of.
  rewrite range_step_pos by (done || by destruct l; simpl; [|lia]).
  cbn [map]. f_equal.
  - unfold slice. simpl. by rewrite Nat.sub_0_r.
  - rewrite length_skipn, map_map. apply map_ext. intros i.
    unfold slice. rewrite drop_drop. f_equal; [lia|f_equal; lia].
Qed.

Lemma batches_of_ind size (Hsize : (0 < size)%nat) (P : list A -> Prop) :
  P [] -> (forall l, l <> [] -> P (skipn size l) -> P l) -> forall l, P l.
Proof.
  intros Hnil Hstep l.
  assert (H : forall k l, (length l <= k)%nat -> P l); [|by apply (H (length l))].
  clear l. induction k as [|k IH]; intros l Hk.
  - by destruct l; [|simpl in Hk; lia].
  - destruct (decide (l = [])) as [->|Hl]; [done|].
    apply Hstep; [done|]. apply IH. rewrite length_skipn.
    destruct l; [done|]. simpl in *. lia.
Qed.

Lemma concat_batches_of l size : (0 < size)%nat -> concat (batches_of l size) = l.
Proof.
  intros Hsize. induction l as [|l Hl IH] using (batches_of_ind size Hsize).
  - by rewrite batches_of_nil.
  - rewrite batches_of_step by done. simpl. by rewrite IH, firstn_skipn.
Qed.

Lemma batches_of_sizes l size :
  (0 < size)%nat ->
  Forall (fun batch => batch <> [] /\ (length batch <= size)%nat) (batches_of l size).
Proof.
  intros Hsize. induction l as [|l Hl IH] using (batches_of_ind size Hsize).
  - rewrite batches_of_nil by done. by apply Forall_nil.
  - rewrite batches_of_step by done. apply Forall_cons. split; [|done]. split.
    + destruct l; [done|]. destruct size; [lia|done].
    + rewrite length_firstn. lia.
Qed.

Lemma batches_of_nonempty l size :
  (0 < size)%nat -> l <> [] -> batches_of l size <> [].
Proof. intros Hsize Hl. by rewrite batches_of_step. Qed.

End Batches.

Section Batches_aligned.

Import Tasks.

Context {A B : Type}.

(** Lists that come in batches of the lengths of the batches of [l]
    are the batches of their concatenation. *)
Lemma batches_of_concat (l : list A) (rs : list (list B)) size :
  (0 < size)%nat ->
  Forall2 (fun (batch : list A) (r : list B) => length r = length batch)
    (batches_of l size) rs ->
  batches_of (concat rs) size = rs.
Proof.
  intros Hsize. revert rs.
  induction l as [|l Hl IH] using (batches_of_ind size Hsize); intros rs Hrs.
  - rewrite batches_of_nil in Hrs by done. apply Forall2_nil_inv_l in Hrs as ->.
    by apply batches_of_nil.
  - rewrite batches_of_step in Hrs by done.
    apply Forall2_cons_inv_l in Hrs as (r & rs' & Hr & Hrs' & ->).
    rewrite length_firstn in Hr.
    assert (Hrne : r <> []).
    { destruct r; [|done]. destruct l; [done|]. simpl in Hr. lia. }
    simpl. rewrite batches_of_step by (by destruct r).
    destruct (decide (size <= length l)%nat) as [Hle|Hlt].
    + rewrite take_app_length', drop_app_length' by lia.
      f_equal. by apply IH.
    + rewrite (drop_ge l) in Hrs' by lia.
      rewrite batches_of_nil in Hrs' by done. apply Forall2_nil_inv_l in Hrs' as ->.
      simpl. rewrite app_nil_r.
      rewrite take_ge, drop_ge by lia. by rewrite batches_of_nil.
Qed.

End Batches_aligned.

Section Batches_claims.

Import Tasks.

(** X16.  The batches of a list, [l[i:i + size]] for
    [i in range(0, len(l), size)], put one after the other give the list:
    every element is in one batch, in its place.  No batch is empty and
    none has more than [size] elements. *)
Theorem batches_of_partition {A : Type} (l : list A) (size : nat) :
  (0 < size)%nat ->
  concat (batches_of l size) = l
  /\ Forall (fun batch => batch <> [] /\ (length batch <= size)%nat) (batches_of l size).
Proof.
  intros Hsize. split; [by apply concat_batches_of|by apply batches_of_sizes].
Qed.

Lemma batches_of_partition_witness :
  concat (batches_of [1; 2; 3; 4; 5; 6; 7] 3) = [1; 2; 3; 4; 5; 6; 7]
  /\ Forall (fun batch => batch <> [] /\ (length batch <= 3)%nat)
       (batches_of [1; 2; 3; 4; 5; 6; 7] 3).
Proof. apply (batches_of_partition [1; 2; 3; 4; 5; 6; 7] 3). lia. Defined.

Example batches_of_seven :
  batches_of [1; 2; 3; 4; 5; 6; 7] 3 = [[1; 2; 3]; [4; 5; 6]; [7]].
Proof. reflexivity. Qed.

End Batches_claims.

(** * The coroutine of a task is accepted by its monitor *)

Section Monitor_facts.

Import Tasks.

Variables user_id task_id : string.

Local Abbreviation accepted := (accepted user_id task_id).
Local Abbreviation monitor_step := (monitor_step user_id task_id).

Lemma accepted_mono {A} (p : coro A) (Q Q' : outcome A -> monitor -> Prop) m :
  (forall o m', Q o m' -> Q' o m') -> accepted p Q m -> accepted p Q' m.
Proof.
  intros HQ. revert m. induction p as [o|op k IH|c k IH]; intros m; simpl.
  - apply HQ.
  - destruct (monitor_step op m); [apply IH|done].
  - intros H r. apply IH, H.
Qed.

Lemma accepted_bind {A B} (p : coro A) (f : A -> coro B) Q m :
  accepted p (fun o m' => match o with
                          | Ok a => accepted (f a) Q m'
                          | Raise e => Q (Raise e) m'
                          end) m ->
  accepted (bind p f) Q m.
Proof.
  revert m. induction p as [[a|e]|op k IH|c k IH]; intros m; simpl; try done.
  - destruct (monitor_step op m); [apply IH|done].
  - intros H r. apply IH, H.
Qed.

Lemma accepted_try_except {A} (p : coro A) (handler : exn -> coro A) Q m :
  accepted p (fun o m' => match o with
                          | Ok a => Q (Ok a) m'
                          | Raise e => accepted (handler e) Q m'
                          end) m ->
  accepted (try_except_coro p handler) Q m.
Proof.
  revert m. induction p as [[a|e]|op k IH|c k IH]; intros m; simpl; try done.
  - destruct (monitor_step op m); [apply IH|done].
  - intros H r. apply IH, H.
Qed.

Lemma accepted_try_finally {A} (p : coro A) (final : coro unit) Q m :
  accepted p (fun o m' =>
                accepted final (fun o' m'' => match o' with
                                              | Ok _ => Q o m''
                                              | Raise e => Q (Raise e) m''
                                              end) m') m ->
  accepted (try_finally p final) Q m.
Proof.
  revert m. induction p as [o|op k IH|c k IH]; intros m; simpl.
  - intros H. apply accepted_bind. eapply accepted_mono; [|exact H].
    intros [[]|e] m'; done.
  - destruct (monitor_step op m); [apply IH|done].
  - intros H r. apply IH, H.
Qed.

Lemma accepted_do op (Q : outcome unit -> monitor -> Prop) m m' :
  monitor_step op m = Some m' -> Q (Ok tt) m' -> accepted (do op) Q m.
Proof. intros Hstep HQ. simpl. by rewrite Hstep. Qed.

Lemma accepted_do_bind {B} op (f : unit -> coro B) Q m m' :
  monitor_step op m = Some m' -> accepted (f tt) Q m' -> accepted (bind (do op) f) Q m.
Proof. intros Hstep HQ. simpl. by rewrite Hstep. Qed.

Lemma accepted_await_bind {B} c (f : answer c -> coro B) Q m :
  (forall e, Q (Raise e) (monitor_await m)) ->
  (forall a, accepted (f a) Q (monitor_await m)) ->
  accepted (bind (await c) f) Q m.
Proof. intros Hraise Hok. simpl. intros [a|e]; simpl; [apply Hok|apply Hraise]. Qed.

Lemma monitor_step_update s kw m :
  is_terminal (last_status m) = false ->
  s = Error \/ (rank (last_status m) <= rank s)%nat ->
  monitor_step (UpdateProgress user_id task_id s kw) m
  = Some (mkMonitor s (terminal_written m || is_terminal s)).
Proof.
  intros Hlast Hs. unfold Tasks.monitor_step.
  rewrite bool_decide_eq_true_2 by done. rewrite Hlast. simpl.
  destruct Hs as [->|Hs]; [done|].
  apply Nat.leb_le in Hs. rewrite Hs. by rewrite orb_true_r.
Qed.

Lemma monitor_step_discard m :
  terminal_written m = true ->
  monitor_step (DiscardActive user_id task_id) m = Some m.
Proof.
  intros H. unfold Tasks.monitor_step. rewrite bool_decide_eq_true_2 by done.
  by rewrite H.
Qed.

Section WithParser.

Variable html_parser : string -> outcome (list Cleaner.node).

Lemma accepted_process_pages batches all_chunks Q m :
  last_status m = Processing ->
  (forall chunks m', last_status m' = Processing ->
                     terminal_written m' = terminal_written m -> Q (Ok chunks) m') ->
  accepted (process_pages html_parser user_id task_id batches all_chunks) Q m.
Proof.
  revert all_chunks m. induction batches as [|page_chunk batches IH];
    intros all_chunks m Hm HQ.
  - by apply HQ.
  - cbn [process_pages]. eapply accepted_do_bind.
    + apply monitor_step_update; [by rewrite Hm|right; by rewrite Hm].
    + apply IH; [done|]. intros chunks m' Hlast Hw. apply HQ; [done|].
      rewrite Hw. simpl. by rewrite orb_false_r.
Qed.

Lemma accepted_embed_chunks batches all_embeddings Q m :
  (forall r m', last_status m' = last_status m -> Q r m') ->
  accepted (embed_chunks batches all_embeddings) Q m.
Proof.
  revert all_embeddings m. induction batches as [|chunk batches IH];
    intros all_embeddings m HQ.
  - by apply HQ.
  - cbn [embed_chunks]. apply accepted_await_bind.
    + intros e. by apply HQ.
    + intros embeddings. apply IH. intros r m' Hm'. by apply HQ.
Qed.

Lemma accepted_ingest_chunks collection all_chunks all_embeddings starts size Q m :
  (forall r m', last_status m' = last_status m -> Q r m') ->
  accepted (ingest_chunks collection all_chunks all_embeddings starts size) Q m.
Proof.
  revert m. induction starts as [|i starts IH]; intros m HQ.
  - by apply HQ.
  - cbn [ingest_chunks]. apply accepted_await_bind.
    + intros e. by apply HQ.
    + intros []. apply IH. intros r m' Hm'. by apply HQ.
Qed.

(** The coroutine of a task is accepted: the body of its [try] block
    ends after a terminal status or raises from a state that is not
    terminal, in which case the handler writes [error]; then the task
    leaves the active set. *)
Lemma process_scraping_accepted url collection :
  accepted (process_scraping html_parser url task_id collection user_id)
    (fun _ _ => True) (mkMonitor Crawling false).
Proof.
  unfold process_scraping.
  apply accepted_try_finally, accepted_try_except.
  eapply (accepted_mono _
            (fun o m => match o with
                        | Ok _ => terminal_written m = true
                        | Raise _ => is_terminal (last_status m) = false
                        end)).
  { intros [[]|e] m Hm.
    - eapply accepted_do; [by apply monitor_step_discard|done].
    - eapply accepted_do; [apply monitor_step_update; [done|by left]|].
      eapply accepted_do; [|done].
      apply monitor_step_discard. simpl. by rewrite ?orb_true_r. }
  eapply accepted_do_bind; [apply monitor_step_update; [done|right; simpl; lia]|].
  apply accepted_await_bind; [done|]. intros pages.
  case_bool_decide.
  { eapply accepted_do; [apply monitor_step_update; [done|by left]|].
    simpl. by rewrite ?orb_true_r. }
  eapply accepted_do_bind; [apply monitor_step_update; [done|right; simpl; lia]|].
  eapply accepted_do_bind; [apply monitor_step_update; [done|right; simpl; lia]|].
  apply accepted_bind, accepted_process_pages; [done|].
  intros all_chunks m Hlast Hw.
  case_bool_decide.
  { eapply accepted_do; [apply monitor_step_update; [by rewrite Hlast|by left]|].
    simpl. by rewrite ?orb_true_r. }
  eapply accepted_do_bind;
    [apply monitor_step_update; [by rewrite Hlast|right; rewrite Hlast; simpl; lia]|].
  apply accepted_bind, accepted_embed_chunks. intros [all_embeddings|e] m1 Hm1; [|by rewrite Hm1].
  eapply accepted_do_bind;
    [apply monitor_step_update; [by rewrite Hm1|right; rewrite Hm1; simpl; lia]|].
  apply accepted_bind, accepted_ingest_chunks. intros [[]|e] m2 Hm2; [|by rewrite Hm2].
  eapply accepted_do; [apply monitor_step_update; [by rewrite Hm2|right; rewrite Hm2; simpl; lia]|].
  simpl. by rewrite ?orb_true_r.
Qed.

End WithParser.

End Monitor_facts.

(** * The states of a task come in order *)

Section Status_order.

Import Tasks.

Variable clock : nat -> Z.
Variables user_id task_id : string.

Lemma stored_status_undisturbed s w w1 :
  undisturbed user_id task_id w w1 ->
  stored_status user_id task_id s w -> stored_status user_id task_id s w1.
Proof.
  unfold undisturbed, task_view. intros Hview (snap & Hsnap & Hs & Hflag).
  rewrite Hsnap in Hview. simpl in Hview.
  destruct (lookup_task user_id task_id w1) as [snap1|] eqn:Hsnap1; simpl in Hview;
    [|done].
  injection Hview as Hs1 Hflag1. exists snap1. unfold flag_agrees in *.
  split_and!; [done|congruence|congruence].
Qed.

(** Along a run that its monitor accepts, each status written follows
    the one before, and each snapshot written has a flag that agrees
    with its status. *)
Lemma run_accepted p w tr w' :
  run clock user_id task_id p w tr w' ->
  forall Q m,
    accepted user_id task_id p Q m ->
    stored_status user_id task_id (last_status m) w ->
    consecutive status_follows (last_status m :: map status tr)
    /\ Forall flag_agrees tr.
Proof.
  induction 1 as [p w|op k w tr w' _ IH|c k r w w1 tr w' Hview _ IH];
    intros Q m Hacc Hstored.
  - simpl. split; [apply consecutive_singleton|by apply Forall_nil].
  - simpl in Hacc.
    destruct (monitor_step user_id task_id op m) as [m'|] eqn:Hstep; [|done].
    destruct op as [u t s kw|u t]; simpl in Hstep.
    + destruct (bool_decide (u = user_id /\ t = task_id)) eqn:Hown; [|done].
      apply bool_decide_eq_true in Hown as [-> ->].
      destruct (is_terminal (last_status m)) eqn:Hlast; [done|].
      destruct (bool_decide (s = Error) || (rank (last_status m) <=? rank s)%nat)
        eqn:Hs; [|done].
      injection Hstep as <-.
      destruct Hstored as (snap & Hsnap & Hstatus & Hflag).
      assert (Hnew : lookup_task user_id task_id
                       (update_progress clock user_id task_id s kw w)
                     = Some (let snap' := apply_update s (clock (clock_reads w)) kw snap in
                             if is_terminal s then set_completed snap' else snap')).
      { rewrite (update_progress_lookup _ _ _ _ _ _ snap) by done.
        by rewrite decide_True. }
      simpl. rewrite bool_decide_eq_true_2 by done. rewrite Hnew. simpl.
      set (new := if is_terminal s then _ else _) in *.
      assert (Hnew_status : status new = s).
      { unfold new. by destruct (is_terminal s). }
      assert (Hnew_flag : flag_agrees new).
      { unfold flag_agrees, new in *. rewrite Hstatus, Hlast in Hflag.
        destruct (is_terminal s) eqn:Hterm; simpl; by rewrite ?Hterm. }
      destruct (IH Q (mkMonitor s (terminal_written m || is_terminal s)))
        as [Hchain Hflags]; [done|by exists new|].
      split; [|by apply Forall_cons].
      rewrite Hnew_status. apply consecutive_cons; [|done].
      split; [done|]. apply orb_true_iff in Hs as [Herr|Hrank].
      * left. by apply bool_decide_eq_true in Herr.
      * destruct (decide (s = Error)); [by left|right]. split; [done|].
        by apply Nat.leb_le.
    + destruct (bool_decide (u = user_id /\ t = task_id) && terminal_written m); [|done].
      injection Hstep as <-. simpl. apply (IH Q m); [done|].
      destruct Hstored as (snap & Hsnap & ?). exists snap.
      change (exec clock (DiscardActive u t) w) with (discard_active u t w).
      by rewrite discard_active_lookup_task.
  - simpl in Hacc. apply (IH Q (monitor_await m)); [apply Hacc|].
    by apply (stored_status_undisturbed _ w).
Qed.

(** Every coroutine has a run to its end, for every choice of
    answers. *)
Lemma play_run answers (p : coro unit) w :
  run clock user_id task_id p w
    (play clock user_id task_id answers p w).1
    (play clock user_id task_id answers p w).2.
Proof.
  revert w. induction p as [o|op k IH|c k IH]; intros w; simpl.
  - apply run_stop.
  - apply run_do, IH.
  - eapply run_await; [done|apply IH].
Qed.

End Status_order.

Section Status_order_claim.

Import Tasks.

(** X29.  A request is admitted and its task runs, to its end or to any
    point before, whatever the collaborators answer, while nothing else
    writes the status or the flag of its snapshot, before its start or
    while it waits: no other task has its id.  Then the
    snapshot stored at admission
    has status [crawling]; in the sequence made of it and of the
    snapshots written by [update_progress], each status follows the one
    before: it is the same or a later one in the order [crawling],
    [processing], [generating_embeddings], [storing], [completed], or it
    is [error], and nothing follows [completed] or [error]; and in each
    of these snapshots [is_completed] is true exactly when the status is
    [completed] or [error]. *)
Theorem process_scraping_status_order
    (clock : nat -> Z) (task_id_of : string -> Z -> string -> string)
    (html_parser : string -> outcome (list Cleaner.node))
    (req_url user_id : string) (w w1 w1' w2 : world)
    (response : string * string) (task : coro unit) (tr : list snapshot) :
  scrape_and_ingest clock task_id_of html_parser req_url user_id w
    = (Ok response, w1, Some task) ->
  undisturbed user_id response.1 w1 w1' ->
  run clock user_id response.1 task w1' tr w2 ->
  exists created,
    lookup_task user_id response.1 w1 = Some created
    /\ status created = Crawling
    /\ consecutive status_follows (map status (created :: tr))
    /\ Forall flag_agrees (created :: tr).
Proof.
  intros Hreq Hview Hrun.
  destruct (Z.ltb_spec (Z.of_nat (size (active_set user_id w))) MAX_CONCURRENT_TASKS)
    as [Hcap|Hcap].
  - destruct (scrape_and_ingest_admitted clock task_id_of html_parser req_url user_id w
                Hcap) as (task_id & t1 & t2 & w1_ & Heq & Hsnap & _).
    rewrite Heq in Hreq. injection Hreq as <- <- <-. simpl in *.
    eexists. split; [exact Hsnap|]. split; [done|].
    destruct (run_accepted clock user_id task_id _ _ _ _ Hrun (fun _ _ => True)
                (mkMonitor Crawling false)) as [Hchain Hflags].
    + apply process_scraping_accepted.
    + apply (stored_status_undisturbed _ _ _ w1_); [done|].
      eexists. split; [exact Hsnap|]. done.
    + split; [done|]. by apply Forall_cons.
  - rewrite scrape_and_ingest_rejected in Hreq by done. done.
Qed.

Lemma process_scraping_status_order_witness :
  let clock := fun n : nat => Z.of_nat n in
  let task_id_of := fun (url : string) (_ : Z) (_ : string) => url in
  let html_parser := fun _ : string => Ok [] in
  let r := scrape_and_ingest clock task_id_of html_parser "http://a" "alice" empty_world in
  let w1 := r.1.2 in
  let failed := "No pages could be scraped from the provided URL"%string in
  let tr := [mkSnapshot Crawling 1 3 0 0 None false "http://a" None;
             mkSnapshot Error 1 4 0 0 (Some failed) true "http://a" None] in
  exists created,
    lookup_task "alice" "http://a" w1 = Some created
    /\ status created = Crawling
    /\ consecutive status_follows (map status (created :: tr))
    /\ Forall flag_agrees (created :: tr).
Proof.
  intros clock task_id_of html_parser r w1 failed tr.
  apply (process_scraping_status_order clock task_id_of html_parser
           "http://a" "alice" empty_world w1 w1
           (discard_active "alice" "http://a"
              (update_progress clock "alice" "http://a" Error
                 (mkKwargs None None (Some failed) None)
                 (update_progress clock "alice" "http://a" Crawling no_kwargs w1)))
           ("http://a", "started")%string
           (process_scraping html_parser "http://a" "http://a" "alice" "alice") tr).
  - vm_compute. reflexivity.
  - reflexivity.
  - set (op1 := UpdateProgress "alice" "http://a" Crawling no_kwargs).
    set (op2 := UpdateProgress "alice" "http://a" Error
                  (mkKwargs None None (Some failed) None)).
    set (op3 := DiscardActive "alice" "http://a").
    change tr with
      (written "alice" "http://a" op1 (exec clock op1 w1)
       ++ written "alice" "http://a" op2 (exec clock op2 (exec clock op1 w1))
       ++ written "alice" "http://a" op3
            (exec clock op3 (exec clock op2 (exec clock op1 w1)))
       ++ []).
    apply run_do.
    apply (run_await clock "alice" "http://a" (CrawlWebsite "http://a") _ (Ok []) _
             (exec clock op1 w1)); [reflexivity|].
    apply run_do. apply run_do. apply run_stop.
Defined.

(** A run to completion: one page is crawled, gives one chunk, and the
    collaborators answer. *)
Example process_scraping_completes :
  let clock := fun n : nat => Z.of_nat n in
  let task_id_of := fun (url : string) (_ : Z) (_ : string) => url in
  let html_parser :=
    fun html : string => Ok [Cleaner.Tag "p" [Cleaner.Text html]] in
  let answers := fun c : call =>
    match c return outcome (answer c) with
    | CrawlWebsite url => Ok [(url, "Hello world. This is the page."%string)]
    | GetEmbeddings chunk => Ok (map (fun _ => [1 # 2]%Q) chunk)
    | IngestToQdrant _ _ _ => Ok tt
    end in
  let r := scrape_and_ingest clock task_id_of html_parser "http://a" "alice" empty_world in
  let tr := (play clock "alice" "http://a" answers
               (process_scraping html_parser "http://a" "http://a" "alice" "alice")
               r.1.2).1 in
  map (fun snap => (status snap, chunks_created snap, is_completed snap)) tr
  = [(Crawling, 0, false); (Crawling, 0, false); (Processing, 0, false);
     (Processing, 1, false); (GeneratingEmbeddings, 1, false); (Storing, 1, false);
     (Completed, 1, true)].
Proof. by vm_compute. Qed.

End Status_order_claim.

(** * Admission control *)

Section Admission.

Import Tasks.

Variable clock : nat -> Z.
Variable task_id_of : string -> Z -> string -> string.
Variable html_parser : string -> outcome (list Cleaner.node).

Local Abbreviation scrape_and_ingest := (scrape_and_ingest clock task_id_of html_parser).
Local Abbreviation step := (step clock task_id_of html_parser).
Local Abbreviation reachable := (reachable clock task_id_of html_parser).
Local Abbreviation fresh_request := (fresh_request clock task_id_of html_parser).

Lemma world_inv_update user_id task_id s kw w :
  world_inv w -> world_inv (update_progress clock user_id task_id s kw w).
Proof.
  intros [Hcap Hactive]. split.
  - intros u. rewrite update_progress_active_set. apply Hcap.
  - intros u t snap' Hsnap' Hflag. rewrite update_progress_active_set.
    destruct (lookup_task user_id task_id w) as [snap|] eqn:Hsnap.
    + rewrite (update_progress_lookup _ _ _ _ _ _ snap) in Hsnap' by done.
      case_decide as Heq; [|by eapply Hactive].
      destruct Heq as [-> ->]. injection Hsnap' as <-.
      apply (Hactive _ _ snap); [done|].
      by destruct (is_terminal s).
    + rewrite update_progress_unknown in Hsnap' by done. by eapply Hactive.
Qed.

Lemma flagged_update user_id task_id s kw w :
  flagged user_id task_id w \/ is_terminal s = true ->
  flagged user_id task_id (update_progress clock user_id task_id s kw w).
Proof.
  intros H snap' Hsnap'.
  destruct (lookup_task user_id task_id w) as [snap|] eqn:Hsnap.
  - rewrite (update_progress_lookup _ _ _ _ _ _ snap) in Hsnap' by done.
    rewrite decide_True in Hsnap' by done. injection Hsnap' as <-.
    destruct (is_terminal s) eqn:Hs; [done|].
    destruct H as [H|H]; [|done]. simpl. by apply H.
  - rewrite update_progress_unknown in Hsnap' by done. congruence.
Qed.

Lemma world_inv_discard user_id task_id w :
  world_inv w -> flagged user_id task_id w ->
  world_inv (discard_active user_id task_id w).
Proof.
  intros [Hcap Hactive] Hflagged. split.
  - intros u. rewrite discard_active_active_set. case_decide as Hu; [|apply Hcap].
    subst u. etrans; [|apply (Hcap user_id)].
    apply inj_le, subseteq_size, subseteq_difference_l. done.
  - intros u t snap Hsnap Hflag. rewrite discard_active_lookup_task in Hsnap.
    rewrite discard_active_active_set. case_decide as Hu; [|by eapply Hactive].
    subst u. apply elem_of_difference. split; [by eapply Hactive|].
    intros ->%elem_of_singleton. rewrite (Hflagged _ Hsnap) in Hflag. done.
Qed.

Lemma world_inv_poll task_id user_id w :
  world_inv w -> world_inv (get_scraping_progress clock task_id user_id w).2.
Proof.
  intros [Hcap Hactive]. split.
  - intros u. rewrite get_scraping_progress_active_set. apply Hcap.
  - intros u t snap Hsnap Hflag. rewrite get_scraping_progress_active_set.
    pose proof (get_scraping_progress_view clock task_id user_id w u t) as Hview.
    unfold task_view in Hview. rewrite Hsnap in Hview. simpl in Hview.
    destruct (lookup_task u t w) as [snap0|] eqn:Hsnap0; simpl in Hview; [|done].
    injection Hview as _ Hflag0. apply (Hactive _ _ snap0); [done|congruence].
Qed.

Lemma world_inv_request req_url user_id w :
  world_inv w -> world_inv (scrape_and_ingest req_url user_id w).1.2.
Proof.
  intros [Hcap Hactive].
  destruct (Z.ltb_spec (Z.of_nat (size (active_set user_id w))) MAX_CONCURRENT_TASKS)
    as [Hlt|Hge].
  - destruct (scrape_and_ingest_admitted clock task_id_of html_parser req_url user_id w
                Hlt) as (task_id & t1 & t2 & w1 & -> & Hsnap & Hothers & Hset & Hsets).
    simpl. split.
    + intros u. destruct (decide (u = user_id)) as [->|Hu]; [|rewrite Hsets by done; apply Hcap].
      rewrite Hset.
      assert (size ({[task_id]} ∪ active_set user_id w) <= 1 + size (active_set user_id w))%nat.
      { rewrite size_union_alt, size_singleton.
        assert (size (active_set user_id w ∖ {[task_id]}) <= size (active_set user_id w))%nat;
          [|lia].
        apply subseteq_size, subseteq_difference_l. done. }
      lia.
    + intros u t snap Hlook Hflag.
      destruct (decide (u = user_id /\ t = task_id)) as [[-> ->]|Hne].
      * rewrite Hset. apply elem_of_union. left. by apply elem_of_singleton.
      * rewrite Hothers in Hlook by done.
        destruct (decide (u = user_id)) as [->|Hu].
        -- rewrite Hset. apply elem_of_union. right. by eapply Hactive.
        -- rewrite Hsets by done. by eapply Hactive.
  - by rewrite scrape_and_ingest_rejected.
Qed.

(** A turn of a background task keeps the invariant: when it removes
    its task from the active set, it has just flagged it completed. *)
Lemma run_sync_inv user_id task_id (p : coro unit) w m :
  accepted user_id task_id p (fun _ _ => True) m ->
  world_inv w ->
  (terminal_written m = true -> flagged user_id task_id w) ->
  world_inv (run_sync clock p w).2
  /\ exists m', terminal_written m' = false
                /\ accepted user_id task_id (run_sync clock p w).1 (fun _ _ => True) m'.
Proof.
  revert w m. induction p as [o|op k IH|c k _]; intros w m Hacc Hinv Hflagged.
  - split; [done|]. by exists (mkMonitor Crawling false).
  - simpl in Hacc.
    destruct (monitor_step user_id task_id op m) as [m'|] eqn:Hstep; [|done].
    simpl. apply (IH _ m'); [done| |].
    + destruct op as [u t s kw|u t]; simpl in Hstep |- *.
      * by apply world_inv_update.
      * destruct (bool_decide (u = user_id /\ t = task_id)) eqn:Hown; [|done].
        apply bool_decide_eq_true in Hown as [-> ->].
        destruct (terminal_written m) eqn:Hw; [|done].
        by apply world_inv_discard; [|apply Hflagged].
    + destruct op as [u t s kw|u t]; simpl in Hstep |- *.
      * destruct (bool_decide (u = user_id /\ t = task_id)) eqn:Hown; [|done].
        apply bool_decide_eq_true in Hown as [-> ->].
        destruct (is_terminal (last_status m)); simpl in Hstep; [done|].
        destruct (bool_decide (s = Error) || (rank (last_status m) <=? rank s)%nat);
          [|done].
        injection Hstep as <-. simpl. intros Hw. apply flagged_update.
        apply orb_true_iff in Hw as [Hw|Hw]; [left; by apply Hflagged|by right].
      * destruct (bool_decide (u = user_id /\ t = task_id) && terminal_written m)
          eqn:Hown; [|done].
        injection Hstep as <-. intros Hw snap Hsnap.
        rewrite discard_active_lookup_task in Hsnap. by apply Hflagged.
  - split; [done|]. exists (monitor_await m). split; [done|]. simpl in *.
    intros r. apply Hacc.
Qed.

Lemma system_inv_initial : system_inv initial_system.
Proof.
  split; [|by apply Forall_nil]. split.
  - intros u. assert (active_set u (sys_world initial_system) = ∅) as ->.
    { unfold active_set. simpl. by rewrite lookup_empty. }
    rewrite size_empty. unfold MAX_CONCURRENT_TASKS. lia.
  - intros u t snap H. unfold lookup_task in H. simpl in H.
    by rewrite lookup_empty in H.
Qed.

Lemma system_inv_turn i p sys user_id task_id m :
  system_inv sys ->
  (i < length (background sys))%nat ->
  terminal_written m = false ->
  accepted user_id task_id p (fun _ _ => True) m ->
  system_inv (after_turn clock i p sys).
Proof.
  intros [Hworld Hpool] Hi Hw Hacc.
  destruct (run_sync_inv user_id task_id p (sys_world sys) m) as [Hworld' Hp'];
    [done|done|by rewrite Hw|].
  split; [done|]. simpl.
  apply Forall_insert; [done|]. by exists user_id, task_id.
Qed.

Lemma step_inv unique_ids sys sys' :
  step unique_ids sys sys' -> system_inv sys -> system_inv sys'.
Proof.
  intros Hstep Hinv. destruct Hstep as [req_url user_id sys _|task_id user_id sys
                                       |i p sys Hp|i c k r sys Hp].
  - destruct Hinv as [Hworld Hpool]. split; [by apply world_inv_request|]. simpl.
    apply Forall_app. split; [done|].
    destruct (Z.ltb_spec (Z.of_nat (size (active_set user_id (sys_world sys))))
                MAX_CONCURRENT_TASKS) as [Hlt|Hge].
    + destruct (scrape_and_ingest_admitted clock task_id_of html_parser req_url user_id
                  (sys_world sys) Hlt) as (task_id & t1 & t2 & w1 & -> & _).
      simpl. apply Forall_singleton.
      exists user_id, task_id, (mkMonitor Crawling false). split; [done|].
      apply process_scraping_accepted.
    + rewrite scrape_and_ingest_rejected by done. by apply Forall_nil.
  - destruct Hinv as [Hworld Hpool]. split; [by apply world_inv_poll|done].
  - pose proof Hinv as [_ Hpool]. rewrite Forall_lookup in Hpool.
    destruct (Hpool i p Hp) as (user_id & task_id & m & Hw & Hacc).
    apply (system_inv_turn i p sys user_id task_id m);
      [done|by eapply lookup_lt_Some|done|done].
  - pose proof Hinv as [_ Hpool]. rewrite Forall_lookup in Hpool.
    destruct (Hpool i _ Hp) as (user_id & task_id & m & Hw & Hacc).
    apply (system_inv_turn i (k r) sys user_id task_id (monitor_await m));
      [done|by eapply lookup_lt_Some|done|apply Hacc].
Qed.

Lemma reachable_inv unique_ids sys : reachable unique_ids sys -> system_inv sys.
Proof.
  unfold Tasks.reachable. intros H.
  assert (Hgen : forall x z, rtc (step unique_ids) x z -> system_inv x -> system_inv z).
  { induction 1 as [|x y z Hstep _ IH]; [done|].
    intros Hx. apply IH. by apply (step_inv unique_ids x). }
  apply (Hgen _ _ H), system_inv_initial.
Qed.

Lemma started_reachable unique_ids i sys :
  reachable unique_ids sys -> reachable unique_ids (started clock i sys).
Proof.
  intros H. unfold started.
  destruct (background sys !! i) as [p|] eqn:Hp; [|done].
  eapply rtc_r; [exact H|]. by apply step_start.
Qed.

Lemma resumed_reachable unique_ids answers i sys :
  reachable unique_ids sys -> reachable unique_ids (resumed clock answers i sys).
Proof.
  intros H. unfold resumed.
  destruct (background sys !! i) as [[o|op k|c k]|] eqn:Hp; try done.
  eapply rtc_r; [exact H|]. by apply step_resume.
Qed.

Lemma requested_reachable req_url user_id sys :
  reachable false sys ->
  reachable false (after_request clock task_id_of html_parser req_url user_id sys).
Proof. intros H. eapply rtc_r; [exact H|]. by apply step_request. Qed.

(** The tasks that are not completed are in the active set. *)
Lemma non_terminal_active user_id w :
  world_inv w -> non_terminal_tasks user_id w ⊆ active_set user_id w.
Proof.
  intros [_ Hactive] t Ht. unfold non_terminal_tasks in Ht.
  apply elem_of_dom in Ht as [snap Hsnap].
  apply map_lookup_filter_Some in Hsnap as [Hsnap Hflag]. simpl in Hflag.
  apply (Hactive _ _ snap); [|done]. unfold lookup_task.
  destruct (scraping_progress w !! user_id); simpl in *; [done|].
  by rewrite lookup_empty in Hsnap.
Qed.

End Admission.


(** * With unique ids, status and flag agree across the service *)

Section Ownership.

Import Tasks.

Variable clock : nat -> Z.
Variable task_id_of : string -> Z -> string -> string.
Variable html_parser : string -> outcome (list Cleaner.node).

Local Abbreviation scrape_and_ingest := (scrape_and_ingest clock task_id_of html_parser).
Local Abbreviation step := (step clock task_id_of html_parser).
Local Abbreviation reachable := (reachable clock task_id_of html_parser).

Lemma stored_status_same_lookup user_id task_id s w w' :
  lookup_task user_id task_id w' = lookup_task user_id task_id w ->
  stored_status user_id task_id s w -> stored_status user_id task_id s w'.
Proof. intros Heq (snap & Hsnap & ?). exists snap. by rewrite Heq. Qed.

(** A turn of a background task moves its own snapshot along with its
    monitor and leaves the other snapshots. *)
Lemma run_sync_owned user_id task_id (p : coro unit) w m :
  accepted user_id task_id p (fun _ _ => True) m ->
  stored_status user_id task_id (last_status m) w ->
  exists m',
    accepted user_id task_id (run_sync clock p w).1 (fun _ _ => True) m'
    /\ terminal_written m' = false
    /\ stored_status user_id task_id (last_status m') (run_sync clock p w).2
    /\ (forall user_id' task_id',
          ~ (user_id' = user_id /\ task_id' = task_id) ->
          lookup_task user_id' task_id' (run_sync clock p w).2
          = lookup_task user_id' task_id' w).
Proof.
  revert w m. induction p as [o|op k IH|c k _]; intros w m Hacc Hstored.
  - by exists (mkMonitor (last_status m) false).
  - simpl in Hacc.
    destruct (monitor_step user_id task_id op m) as [m'|] eqn:Hstep; [|done].
    simpl.
    assert (Hop : stored_status user_id task_id (last_status m') (exec clock op w)
                  /\ forall user_id' task_id',
                       ~ (user_id' = user_id /\ task_id' = task_id) ->
                       lookup_task user_id' task_id' (exec clock op w)
                       = lookup_task user_id' task_id' w).
    { destruct op as [u t s kw|u t]; simpl in Hstep |- *.
      - destruct (bool_decide (u = user_id /\ t = task_id)) eqn:Hown; [|done].
        apply bool_decide_eq_true in Hown as [-> ->].
        destruct (is_terminal (last_status m)) eqn:Hlast; simpl in Hstep; [done|].
        destruct (bool_decide (s = Error) || (rank (last_status m) <=? rank s)%nat);
          [|done].
        injection Hstep as <-. simpl.
        destruct Hstored as (snap & Hsnap & Hstatus & Hflag). split.
        + eexists. split; [|split].
          * rewrite (update_progress_lookup _ _ _ _ _ _ snap) by done.
            by rewrite decide_True.
          * by destruct (is_terminal s).
          * unfold flag_agrees in *. rewrite Hstatus, Hlast in Hflag.
            destruct (is_terminal s) eqn:Hterm; simpl; by rewrite ?Hterm.
        + intros u t Hne.
          rewrite (update_progress_lookup _ _ _ _ _ _ snap) by done.
          by rewrite decide_False.
      - destruct (bool_decide (u = user_id /\ t = task_id) && terminal_written m);
          [|done].
        injection Hstep as <-. split.
        + apply (stored_status_same_lookup _ _ _ w); [|done].
          apply discard_active_lookup_task.
        + intros u' t' _. apply discard_active_lookup_task. }
    destruct Hop as [Hstored' Hothers].
    destruct (IH (exec clock op w) m' Hacc Hstored') as (m2 & ? & ? & ? & Hothers2).
    exists m2. split_and!; try done.
    intros u t Hne. rewrite Hothers2 by done. by apply Hothers.
  - exists (mkMonitor (last_status m) false). by split_and!.
Qed.

Lemma owned_inv_initial : owned_inv initial_system.
Proof.
  exists []. split_and!; [done|by apply NoDup_nil|by intros i p o Hp|].
  intros u t snap H. unfold lookup_task in H. simpl in H. by rewrite lookup_empty in H.
Qed.

Lemma owned_inv_poll task_id user_id sys :
  owned_inv sys -> owned_inv (after_poll clock task_id user_id sys).
Proof.
  intros (owners & Hlen & Hnodup & Howns & Hcover).
  pose proof (get_scraping_progress_view clock task_id user_id (sys_world sys)) as Hview.
  exists owners. split_and!; try done.
  - intros i p o Hp Ho. destruct (Howns i p o Hp Ho) as (? & ? & ?).
    split_and!; try done. eapply stored_status_undisturbed; [|done]. apply Hview.
  - intros u t snap Hsnap. specialize (Hview u t). unfold task_view in Hview.
    simpl in Hsnap. rewrite Hsnap in Hview.
    destruct (lookup_task u t (sys_world sys)) as [snap0|] eqn:Hsnap0; [|done].
    by apply (Hcover u t snap0).
Qed.

Lemma owned_inv_request req_url user_id sys :
  fresh_request clock task_id_of html_parser req_url user_id (sys_world sys) ->
  owned_inv sys -> owned_inv (after_request clock task_id_of html_parser req_url user_id sys).
Proof.
  intros Hfresh (owners & Hlen & Hnodup & Howns & Hcover).
  unfold after_request.
  destruct (Z.ltb_spec (Z.of_nat (size (active_set user_id (sys_world sys))))
              MAX_CONCURRENT_TASKS) as [Hlt|Hge].
  - destruct (scrape_and_ingest_admitted clock task_id_of html_parser req_url user_id
                (sys_world sys) Hlt)
      as (task_id & t1 & t2 & w1 & Heq & Hsnap & Hothers & _).
    assert (Hnew : lookup_task user_id task_id (sys_world sys) = None).
    { apply (Hfresh task_id "started"%string). by rewrite Heq. }
    assert (Hkey : (user_id, task_id) ∉ fst <$> owners).
    { intros Hin. apply list_elem_of_fmap in Hin as (o & Ho & Hin).
      apply list_elem_of_lookup in Hin as [i Hi].
      destruct (lookup_lt_is_Some_2 (background sys) i) as [p Hp].
      { rewrite <- Hlen. by eapply lookup_lt_Some. }
      destruct (Howns i p o Hp Hi) as (_ & _ & snap & Hstored & _).
      rewrite <- Ho in Hstored. simpl in Hstored. congruence. }
    rewrite Heq. simpl.
    exists (owners ++ [(user_id, task_id, mkMonitor Crawling false)]).
    cbn [background sys_world]. split_and!.
    + rewrite !length_app. simpl. lia.
    + rewrite fmap_app. apply NoDup_app. split_and!; [done| |by apply NoDup_singleton].
      intros key Hin [= ->]%list_elem_of_singleton. done.
    + intros i p o Hp Ho.
      destruct (decide (i < length owners)%nat) as [Hi|Hi].
      * rewrite lookup_app_l in Hp by lia. rewrite lookup_app_l in Ho by lia.
        destruct (Howns i p o Hp Ho) as (? & ? & Hstored). split_and!; try done.
        apply (stored_status_same_lookup _ _ _ (sys_world sys)); [|done].
        apply Hothers. intros [Hu Ht]. apply Hkey.
        apply list_elem_of_fmap. exists o. split; [|by eapply list_elem_of_lookup_2].
        destruct o as [[u t] m]. simpl in *. by subst.
      * rewrite lookup_app_r in Hp by lia. rewrite lookup_app_r in Ho by lia.
        rewrite <- Hlen in Hp.
        destruct (i - length owners)%nat; simpl in Hp, Ho; [|done].
        injection Hp as <-. injection Ho as <-. split_and!; try done.
        -- apply process_scraping_accepted.
        -- eexists. split; [exact Hsnap|]. done.
    + intros u t snap Hlook. rewrite fmap_app. apply elem_of_app.
      destruct (decide (u = user_id /\ t = task_id)) as [[-> ->]|Hne].
      * right. by apply list_elem_of_singleton.
      * left. rewrite Hothers in Hlook by done. by eapply Hcover.
  - rewrite scrape_and_ingest_rejected by done. simpl. rewrite app_nil_r.
    by exists owners.
Qed.

Lemma owned_inv_turn i p0 p sys :
  owned_inv sys ->
  background sys !! i = Some p0 ->
  (forall o, owns (sys_world sys) p0 o ->
     exists m, accepted o.1.1 o.1.2 p (fun _ _ => True) m
               /\ last_status m = last_status o.2) ->
  owned_inv (after_turn clock i p sys).
Proof.
  intros (owners & Hlen & Hnodup & Howns & Hcover) Hp0 Hp.
  destruct (lookup_lt_is_Some_2 owners i) as [o Ho].
  { rewrite Hlen. by eapply lookup_lt_Some. }
  pose proof (Howns i p0 o Hp0 Ho) as Hown.
  destruct (Hp o Hown) as (m & Hacc & Hlast).
  destruct Hown as (_ & _ & Hstored). rewrite <- Hlast in Hstored.
  destruct (run_sync_owned o.1.1 o.1.2 p (sys_world sys) m Hacc Hstored)
    as (m' & Hacc' & Hw' & Hstored' & Hothers).
  assert (Hkeys : fst <$> <[i := (o.1, m')]> owners = fst <$> owners).
  { assert (Hki : (fst <$> owners) !! i = Some o.1).
    { by rewrite list_lookup_fmap, Ho. }
    rewrite list_fmap_insert. by apply list_insert_id. }
  exists (<[i := (o.1, m')]> owners). unfold after_turn. simpl. split_and!.
  - by rewrite !length_insert.
  - by rewrite Hkeys.
  - intros j q oj Hq Hoj.
    destruct (decide (j = i)) as [->|Hne].
    + rewrite list_lookup_insert_eq in Hq by by eapply lookup_lt_Some.
      rewrite list_lookup_insert_eq in Hoj by by eapply lookup_lt_Some.
      injection Hq as <-. injection Hoj as <-. done.
    + rewrite list_lookup_insert_ne in Hq by done.
      rewrite list_lookup_insert_ne in Hoj by done.
      destruct (Howns j q oj Hq Hoj) as (? & ? & Hstored_j). split_and!; try done.
      apply (stored_status_same_lookup _ _ _ (sys_world sys)); [|done].
      apply Hothers. intros [Hu Ht]. apply Hne.
      apply (NoDup_lookup (fst <$> owners) j i oj.1); [done| |].
      * by rewrite list_lookup_fmap, Hoj.
      * rewrite list_lookup_fmap, Ho. simpl. f_equal.
        destruct o as [[u t] mo], oj as [[uj tj] mj]. simpl in *. by subst.
  - intros u t snap Hlook. rewrite Hkeys.
    destruct (decide (u = o.1.1 /\ t = o.1.2)) as [[-> ->]|Hne].
    + apply list_elem_of_fmap. exists o. split; [by destruct o as [[] ?]|].
      by eapply list_elem_of_lookup_2.
    + rewrite Hothers in Hlook by done. by eapply Hcover.
Qed.

Lemma step_owned sys sys' : step true sys sys' -> owned_inv sys -> owned_inv sys'.
Proof.
  intros Hstep Hinv. destruct Hstep as [req_url user_id sys Hfresh|task_id user_id sys
                                       |i p sys Hp|i c k r sys Hp].
  - by apply owned_inv_request; [apply Hfresh|].
  - by apply owned_inv_poll.
  - apply (owned_inv_turn i p p sys); [done|done|].
    intros o (Hacc & _). by exists o.2.
  - apply (owned_inv_turn i (Await c k) (k r) sys); [done|done|].
    intros o (Hacc & _). exists (monitor_await o.2). split; [apply Hacc|done].
Qed.

Lemma reachable_owned sys : reachable true sys -> owned_inv sys.
Proof.
  unfold Tasks.reachable. intros H.
  assert (Hgen : forall x z, rtc (step true) x z -> owned_inv x -> owned_inv z).
  { induction 1 as [|x y z Hstep _ IH]; [done|].
    intros Hx. apply IH. by apply (step_owned x). }
  apply (Hgen _ _ H), owned_inv_initial.
Qed.

(** So every stored snapshot is flagged completed exactly when its
    status is terminal. *)
Lemma owned_flag_agrees sys user_id task_id snap :
  owned_inv sys ->
  lookup_task user_id task_id (sys_world sys) = Some snap -> flag_agrees snap.
Proof.
  intros (owners & Hlen & _ & Howns & Hcover) Hsnap.
  pose proof (Hcover _ _ _ Hsnap) as Hin.
  apply list_elem_of_fmap in Hin as (o & Ho & Hin).
  apply list_elem_of_lookup in Hin as [i Hi].
  destruct (lookup_lt_is_Some_2 (background sys) i) as [p Hp].
  { rewrite <- Hlen. by eapply lookup_lt_Some. }
  destruct (Howns i p o Hp Hi) as (_ & _ & snap' & Hstored & _ & Hflag).
  rewrite <- Ho in Hstored. simpl in Hstored. congruence.
Qed.

Lemma owned_running_tasks sys user_id :
  owned_inv sys ->
  running_tasks user_id (sys_world sys) = non_terminal_tasks user_id (sys_world sys).
Proof.
  intros Hinv. unfold running_tasks, non_terminal_tasks. f_equal.
  apply map_filter_ext. intros t snap Hsnap. simpl.
  assert (Hflag : flag_agrees snap).
  { apply (owned_flag_agrees sys user_id t); [done|]. unfold lookup_task.
    destruct (scraping_progress (sys_world sys) !! user_id); simpl in *; [done|].
    by rewrite lookup_empty in Hsnap. }
  unfold flag_agrees in Hflag. by rewrite Hflag.
Qed.

End Ownership.

(** * With unique ids, the active set holds the running tasks *)

Section Releasing.

Import Tasks.

Lemma releasing_mono {A} (p : coro A) (Q Q' : outcome A -> bool -> Prop) pending :
  (forall o b, Q o b -> Q' o b) -> releasing p Q pending -> releasing p Q' pending.
Proof.
  intros HQ. revert pending. induction p as [o|op k IH|c k IH]; intros pending; simpl.
  - apply HQ.
  - destruct op; apply IH.
  - intros [Hp Hk]. split; [done|]. intros r. by apply IH.
Qed.

Lemma releasing_bind {A B} (p : coro A) (f : A -> coro B) Q pending :
  releasing p (fun o b => match o with
                          | Ok a => releasing (f a) Q b
                          | Raise e => Q (Raise e) b
                          end) pending ->
  releasing (bind p f) Q pending.
Proof.
  revert pending. induction p as [[a|e]|op k IH|c k IH]; intros pending; simpl; try done.
  - destruct op; apply IH.
  - intros [Hp Hk]. split; [done|]. intros r. by apply IH.
Qed.

Lemma releasing_try_except {A} (p : coro A) (handler : exn -> coro A) Q pending :
  releasing p (fun o b => match o with
                          | Ok a => Q (Ok a) b
                          | Raise e => releasing (handler e) Q b
                          end) pending ->
  releasing (try_except_coro p handler) Q pending.
Proof.
  revert pending. induction p as [[a|e]|op k IH|c k IH]; intros pending; simpl; try done.
  - destruct op; apply IH.
  - intros [Hp Hk]. split; [done|]. intros r. by apply IH.
Qed.

Lemma releasing_try_finally {A} (p : coro A) (final : coro unit) Q pending :
  releasing p (fun o b =>
                 releasing final (fun o' b' => match o' with
                                               | Ok _ => Q o b'
                                               | Raise e => Q (Raise e) b'
                                               end) b) pending ->
  releasing (try_finally p final) Q pending.
Proof.
  revert pending. induction p as [o|op k IH|c k IH]; intros pending; simpl.
  - intros H. apply releasing_bind. eapply releasing_mono; [|exact H].
    by intros [[]|e] b.
  - destruct op; apply IH.
  - intros [Hp Hk]. split; [done|]. intros r. by apply IH.
Qed.

Lemma releasing_await_bind {B} c (f : answer c -> coro B) Q :
  (forall e, Q (Raise e) false) ->
  (forall a, releasing (f a) Q false) ->
  releasing (bind (await c) f) Q false.
Proof. intros Hraise Hok. simpl. split; [done|]. intros [a|e]; simpl; auto. Qed.

Section WithParser.

Variable html_parser : string -> outcome (list Cleaner.node).
Variables user_id task_id : string.

Lemma releasing_process_pages batches all_chunks Q :
  (forall chunks, Q (Ok chunks) false) ->
  releasing (process_pages html_parser user_id task_id batches all_chunks) Q false.
Proof.
  intros HQ. revert all_chunks. induction batches as [|page_chunk batches IH];
    intros all_chunks; [apply HQ|].
  cbn [process_pages]. simpl. apply IH.
Qed.

Lemma releasing_embed_chunks batches all_embeddings Q :
  (forall r, Q r false) -> releasing (embed_chunks batches all_embeddings) Q false.
Proof.
  intros HQ. revert all_embeddings. induction batches as [|chunk batches IH];
    intros all_embeddings; [apply HQ|].
  cbn [embed_chunks]. apply releasing_await_bind; [intros e; apply HQ|].
  intros embeddings. apply IH.
Qed.

Lemma releasing_ingest_chunks collection all_chunks all_embeddings starts size Q :
  (forall r, Q r false) ->
  releasing (ingest_chunks collection all_chunks all_embeddings starts size) Q false.
Proof.
  intros HQ. induction starts as [|i starts IH]; [apply HQ|].
  cbn [ingest_chunks]. apply releasing_await_bind; [intros e; apply HQ|].
  intros []. apply IH.
Qed.

(** The coroutine of a task writes a terminal status only at the end
    of its [try] block or in its handler, and the [finally] clause
    follows at once. *)
Lemma process_scraping_releasing url collection :
  releasing (process_scraping html_parser url task_id collection user_id)
    (fun _ pending => pending = false) false.
Proof.
  unfold process_scraping.
  apply releasing_try_finally, releasing_try_except.
  eapply (releasing_mono _ (fun _ _ => True)).
  { by intros [[]|e] b _. }
  simpl. split; [done|]. intros [pages|e]; simpl; [|done].
  case_bool_decide; [done|]. simpl.
  apply releasing_bind, releasing_process_pages. intros all_chunks.
  case_bool_decide; [done|]. simpl.
  apply releasing_bind, releasing_embed_chunks. intros [all_embeddings|e]; [|done]. simpl.
  apply releasing_bind, releasing_ingest_chunks. by intros [[]|e].
Qed.

End WithParser.

End Releasing.

Section Slots.

Import Tasks.

Variable clock : nat -> Z.
Variable task_id_of : string -> Z -> string -> string.
Variable html_parser : string -> outcome (list Cleaner.node).

Local Abbreviation scrape_and_ingest := (scrape_and_ingest clock task_id_of html_parser).
Local Abbreviation step := (step clock task_id_of html_parser).
Local Abbreviation reachable := (reachable clock task_id_of html_parser).

(** A turn of a background task: what [run_sync_owned] tells, and the
    slot of the task. *)
Lemma run_sync_slot user_id task_id (p : coro unit) w m pending :
  accepted user_id task_id p (fun _ _ => True) m ->
  releasing p (fun _ b => b = false) pending ->
  stored_status user_id task_id (last_status m) w ->
  (terminal_written m = true -> is_terminal (last_status m) = true) ->
  (pending = true -> terminal_written m = true) ->
  (pending = false ->
   (task_id ∈ active_set user_id w <-> is_terminal (last_status m) = false)) ->
  exists m',
    accepted user_id task_id (run_sync clock p w).1 (fun _ _ => True) m'
    /\ releasing (run_sync clock p w).1 (fun _ b => b = false) false
    /\ terminal_written m' = false
    /\ stored_status user_id task_id (last_status m') (run_sync clock p w).2
    /\ (task_id ∈ active_set user_id (run_sync clock p w).2
        <-> is_terminal (last_status m') = false)
    /\ (forall user_id' task_id',
          ~ (user_id' = user_id /\ task_id' = task_id) ->
          lookup_task user_id' task_id' (run_sync clock p w).2
          = lookup_task user_id' task_id' w)
    /\ (forall user_id' task_id',
          ~ (user_id' = user_id /\ task_id' = task_id) ->
          task_id' ∈ active_set user_id' (run_sync clock p w).2
          <-> task_id' ∈ active_set user_id' w)
    /\ (forall user_id' task_id',
          task_id' ∈ active_set user_id' (run_sync clock p w).2 ->
          task_id' ∈ active_set user_id' w).
Proof.
  revert w m pending.
  induction p as [o|op k IH|c k _]; intros w m pending Hacc Hrel Hstored Hmon Hpend Hslot.
  - simpl in Hrel. subst pending. exists (mkMonitor (last_status m) false).
    simpl. split_and!; try done. by apply Hslot.
  - simpl in Hacc.
    destruct (monitor_step user_id task_id op m) as [m'|] eqn:Hstep; [|done].
    destruct op as [u t s kw|u t]; simpl in Hstep, Hrel.
    + destruct (bool_decide (u = user_id /\ t = task_id)) eqn:Hown; [|done].
      apply bool_decide_eq_true in Hown as [-> ->].
      destruct (is_terminal (last_status m)) eqn:Hlast; simpl in Hstep; [done|].
      destruct (bool_decide (s = Error) || (rank (last_status m) <=? rank s)%nat);
        [|done].
      injection Hstep as <-.
      assert (Hw : terminal_written m = false).
      { destruct (terminal_written m); [|done]. by specialize (Hmon eq_refl). }
      assert (Hp : pending = false).
      { destruct pending; [|done]. specialize (Hpend eq_refl). congruence. }
      subst pending. rewrite Hw in *. simpl in Hrel |- *.
      destruct Hstored as (snap & Hsnap & Hstatus & Hflag).
      destruct (IH (update_progress clock user_id task_id s kw w)
                  (mkMonitor s (is_terminal s)) (is_terminal s) Hacc Hrel)
        as (m2 & ? & ? & ? & ? & ? & Hothers & Hactive & Hsub).
      * eexists. split; [|split].
        -- rewrite (update_progress_lookup _ _ _ _ _ _ snap) by done.
           by rewrite decide_True.
        -- by destruct (is_terminal s).
        -- unfold flag_agrees in *. rewrite Hstatus, Hlast in Hflag.
           destruct (is_terminal s) eqn:Hterm; simpl; by rewrite ?Hterm.
      * done.
      * done.
      * simpl. intros Hs. rewrite update_progress_active_set, Hs.
        by apply Hslot.
      * exists m2. split_and!; try done.
        -- intros u t Hne. rewrite Hothers by done.
           rewrite (update_progress_lookup _ _ _ _ _ _ snap) by done.
           by rewrite decide_False.
        -- intros u t Hne. rewrite Hactive by done.
           by rewrite update_progress_active_set.
        -- intros u t Hin. apply Hsub in Hin.
           by rewrite update_progress_active_set in Hin.
    + destruct (bool_decide (u = user_id /\ t = task_id)) eqn:Hown; [|done].
      apply bool_decide_eq_true in Hown as [-> ->].
      destruct (terminal_written m) eqn:Hw; simpl in Hstep; [|done].
      injection Hstep as <-. specialize (Hmon eq_refl).
      change (exec clock (DiscardActive user_id task_id) w)
        with (discard_active user_id task_id w).
      destruct (IH (discard_active user_id task_id w) m false Hacc Hrel)
        as (m2 & ? & ? & ? & ? & ? & Hothers & Hactive & Hsub).
      * apply (stored_status_same_lookup _ _ _ w); [|done].
        apply discard_active_lookup_task.
      * done.
      * done.
      * intros _. rewrite discard_active_active_set, decide_True by done.
        rewrite Hmon. split; [|done].
        intros [_ Hin]%elem_of_difference. exfalso. apply Hin.
        by apply elem_of_singleton.
      * exists m2. split_and!; try done.
        -- intros u t Hne. rewrite Hothers by done. apply discard_active_lookup_task.
        -- intros u t Hne. rewrite Hactive by done.
           rewrite discard_active_active_set. case_decide as Hu; [|done]. subst u.
           rewrite elem_of_difference, elem_of_singleton.
           split; [by intros [? _]|]. intros Hin. split; [done|].
           intros ->. by apply Hne.
        -- intros u t Hin. apply Hsub in Hin.
           rewrite discard_active_active_set in Hin. case_decide as Hu; [|done].
           subst u. by apply elem_of_difference in Hin as [? _].
  - simpl in Hrel. destruct Hrel as [-> Hrel].
    exists (mkMonitor (last_status m) false). simpl. split_and!; try done.
    by apply Hslot.
Qed.

Lemma exact_inv_initial : exact_inv initial_system.
Proof.
  exists []. split_and!; [done|by apply NoDup_nil|by intros i p o Hp| |].
  - intros u t snap H. unfold lookup_task in H. simpl in H. by rewrite lookup_empty in H.
  - intros u t H. unfold active_set in H. simpl in H. rewrite lookup_empty in H.
    by apply elem_of_empty in H.
Qed.

Lemma exact_inv_poll task_id user_id sys :
  exact_inv sys -> exact_inv (after_poll clock task_id user_id sys).
Proof.
  intros (owners & Hlen & Hnodup & Howns & Hcover & Hactive).
  pose proof (get_scraping_progress_view clock task_id user_id (sys_world sys)) as Hview.
  exists owners. unfold after_poll. cbn [background sys_world]. split_and!; try done.
  - intros i p o Hp Ho. destruct (Howns i p o Hp Ho) as ((? & ? & ?) & ? & ?).
    split; [split_and!; [done|done|]|split; [done|]].
    + eapply stored_status_undisturbed; [|done]. apply Hview.
    + by rewrite get_scraping_progress_active_set.
  - intros u t snap Hsnap. specialize (Hview u t). unfold task_view in Hview.
    rewrite Hsnap in Hview.
    destruct (lookup_task u t (sys_world sys)) as [snap0|] eqn:Hsnap0; [|done].
    by apply (Hcover u t snap0).
  - intros u t. rewrite get_scraping_progress_active_set. apply Hactive.
Qed.

Lemma exact_inv_request req_url user_id sys :
  fresh_request clock task_id_of html_parser req_url user_id (sys_world sys) ->
  exact_inv sys -> exact_inv (after_request clock task_id_of html_parser req_url user_id sys).
Proof.
  intros Hfresh (owners & Hlen & Hnodup & Howns & Hcover & Hactive).
  unfold after_request.
  destruct (Z.ltb_spec (Z.of_nat (size (active_set user_id (sys_world sys))))
              MAX_CONCURRENT_TASKS) as [Hlt|Hge].
  - destruct (scrape_and_ingest_admitted clock task_id_of html_parser req_url user_id
                (sys_world sys) Hlt)
      as (task_id & t1 & t2 & w1 & Heq & Hsnap & Hothers & Hadd & Hrest).
    assert (Hnew : lookup_task user_id task_id (sys_world sys) = None).
    { apply (Hfresh task_id "started"%string). by rewrite Heq. }
    assert (Hkey : (user_id, task_id) ∉ fst <$> owners).
    { intros Hin. apply list_elem_of_fmap in Hin as (o & Ho & Hin).
      apply list_elem_of_lookup in Hin as [i Hi].
      destruct (lookup_lt_is_Some_2 (background sys) i) as [p Hp].
      { rewrite <- Hlen. by eapply lookup_lt_Some. }
      destruct (Howns i p o Hp Hi) as ((_ & _ & snap & Hstored & _) & _).
      rewrite <- Ho in Hstored. simpl in Hstored. congruence. }
    assert (Hmember : forall u t,
              (u, t) ∈ fst <$> owners ->
              t ∈ active_set u w1 <-> t ∈ active_set u (sys_world sys)).
    { intros u t Hin. destruct (decide (u = user_id)) as [->|Hu].
      - rewrite Hadd, elem_of_union, elem_of_singleton. split; [|by right].
        intros [->|?]; [done|done].
      - by rewrite Hrest. }
    rewrite Heq. simpl.
    exists (owners ++ [(user_id, task_id, mkMonitor Crawling false)]).
    cbn [background sys_world]. split_and!.
    + rewrite !length_app. simpl. lia.
    + rewrite fmap_app. apply NoDup_app. split_and!; [done| |by apply NoDup_singleton].
      intros key Hin [= ->]%list_elem_of_singleton. done.
    + intros i p o Hp Ho.
      destruct (decide (i < length owners)%nat) as [Hi|Hi].
      * rewrite lookup_app_l in Hp by lia. rewrite lookup_app_l in Ho by lia.
        assert (Hin : (o.1.1, o.1.2) ∈ fst <$> owners).
        { apply list_elem_of_fmap. exists o.
          split; [by destruct o as [[] ?]|by eapply list_elem_of_lookup_2]. }
        destruct (Howns i p o Hp Ho) as ((? & ? & Hstored) & ? & Hslot).
        split; [split_and!; [done|done|]|split; [done|]].
        -- apply (stored_status_same_lookup _ _ _ (sys_world sys)); [|done].
           apply Hothers. intros [Hu Ht]. apply Hkey. by rewrite <- Hu, <- Ht.
        -- by rewrite Hmember.
      * rewrite lookup_app_r in Hp by lia. rewrite lookup_app_r in Ho by lia.
        rewrite <- Hlen in Hp.
        destruct (i - length owners)%nat; simpl in Hp, Ho; [|done].
        injection Hp as <-. injection Ho as <-.
        split; [split_and!; [|done|]|split].
        -- apply process_scraping_accepted.
        -- eexists. split; [exact Hsnap|]. done.
        -- apply process_scraping_releasing.
        -- simpl. rewrite Hadd, elem_of_union, elem_of_singleton. split; [done|by left].
    + intros u t snap Hlook. rewrite fmap_app. apply elem_of_app.
      destruct (decide (u = user_id /\ t = task_id)) as [[-> ->]|Hne].
      * right. by apply list_elem_of_singleton.
      * left. rewrite Hothers in Hlook by done. by eapply Hcover.
    + intros u t Hin. rewrite fmap_app. apply elem_of_app.
      destruct (decide (u = user_id)) as [->|Hu].
      * rewrite Hadd, elem_of_union, elem_of_singleton in Hin.
        destruct Hin as [->|Hin]; [right; by apply list_elem_of_singleton|].
        left. by apply Hactive.
      * left. rewrite Hrest in Hin by done. by apply Hactive.
  - rewrite scrape_and_ingest_rejected by done. simpl. rewrite app_nil_r.
    by exists owners.
Qed.

Lemma exact_inv_turn i p0 p sys :
  exact_inv sys ->
  background sys !! i = Some p0 ->
  (forall o, holds_slot (sys_world sys) p0 o ->
     exists m, accepted o.1.1 o.1.2 p (fun _ _ => True) m
               /\ last_status m = last_status o.2
               /\ terminal_written m = false
               /\ releasing p (fun _ b => b = false) false) ->
  exact_inv (after_turn clock i p sys).
Proof.
  intros (owners & Hlen & Hnodup & Howns & Hcover & Hactive) Hp0 Hp.
  destruct (lookup_lt_is_Some_2 owners i) as [o Ho].
  { rewrite Hlen. by eapply lookup_lt_Some. }
  pose proof (Howns i p0 o Hp0 Ho) as Hown.
  destruct (Hp o Hown) as (m & Hacc & Hlast & Hw & Hrel).
  destruct Hown as ((_ & _ & Hstored) & _ & Hslot). rewrite <- Hlast in Hstored, Hslot.
  destruct (run_sync_slot o.1.1 o.1.2 p (sys_world sys) m false Hacc Hrel Hstored)
    as (m' & Hacc' & Hrel' & Hw' & Hstored' & Hslot' & Hothers & Hmember & Hsub);
    [by rewrite Hw|done|done|].
  assert (Hkeys : fst <$> <[i := (o.1, m')]> owners = fst <$> owners).
  { assert (Hki : (fst <$> owners) !! i = Some o.1).
    { by rewrite list_lookup_fmap, Ho. }
    rewrite list_fmap_insert. by apply list_insert_id. }
  exists (<[i := (o.1, m')]> owners). unfold after_turn. simpl. split_and!.
  - by rewrite !length_insert.
  - by rewrite Hkeys.
  - intros j q oj Hq Hoj.
    destruct (decide (j = i)) as [->|Hne].
    + rewrite list_lookup_insert_eq in Hq by by eapply lookup_lt_Some.
      rewrite list_lookup_insert_eq in Hoj by by eapply lookup_lt_Some.
      injection Hq as <-. injection Hoj as <-. by split_and!.
    + rewrite list_lookup_insert_ne in Hq by done.
      rewrite list_lookup_insert_ne in Hoj by done.
      assert (Hother : ~ (oj.1.1 = o.1.1 /\ oj.1.2 = o.1.2)).
      { intros [Hu Ht]. apply Hne.
        apply (NoDup_lookup (fst <$> owners) j i oj.1); [done| |].
        - by rewrite list_lookup_fmap, Hoj.
        - rewrite list_lookup_fmap, Ho. simpl. f_equal.
          destruct o as [[u t] mo], oj as [[uj tj] mj]. simpl in *. by subst. }
      destruct (Howns j q oj Hq Hoj) as ((? & ? & Hstored_j) & ? & Hslot_j).
      split; [split_and!; [done|done|]|split; [done|]].
      * apply (stored_status_same_lookup _ _ _ (sys_world sys)); [|done].
        by apply Hothers.
      * by rewrite Hmember.
  - intros u t snap Hlook. rewrite Hkeys.
    destruct (decide (u = o.1.1 /\ t = o.1.2)) as [[-> ->]|Hne].
    + apply list_elem_of_fmap. exists o. split; [by destruct o as [[] ?]|].
      by eapply list_elem_of_lookup_2.
    + rewrite Hothers in Hlook by done. by eapply Hcover.
  - intros u t Hin. rewrite Hkeys. by apply Hactive, Hsub.
Qed.

Lemma step_exact sys sys' : step true sys sys' -> exact_inv sys -> exact_inv sys'.
Proof.
  intros Hstep Hinv. destruct Hstep as [req_url user_id sys Hfresh|task_id user_id sys
                                       |i p sys Hp|i c k r sys Hp].
  - by apply exact_inv_request; [apply Hfresh|].
  - by apply exact_inv_poll.
  - apply (exact_inv_turn i p p sys); [done|done|].
    intros o ((Hacc & Hw & _) & Hrel & _). by exists o.2.
  - apply (exact_inv_turn i (Await c k) (k r) sys); [done|done|].
    intros o ((Hacc & Hw & _) & Hrel & _). exists (monitor_await o.2).
    split_and!; [apply Hacc|done|done|apply Hrel].
Qed.

Lemma reachable_exact sys : reachable true sys -> exact_inv sys.
Proof.
  unfold Tasks.reachable. intros H.
  assert (Hgen : forall x z, rtc (step true) x z -> exact_inv x -> exact_inv z).
  { induction 1 as [|x y z Hstep _ IH]; [done|].
    intros Hx. apply IH. by apply (step_exact x). }
  apply (Hgen _ _ H), exact_inv_initial.
Qed.

Lemma exact_active_running sys user_id :
  exact_inv sys ->
  active_set user_id (sys_world sys) = running_tasks user_id (sys_world sys).
Proof.
  intros (owners & Hlen & Hnodup & Howns & Hcover & Hactive).
  assert (Howner : forall t,
            (user_id, t) ∈ fst <$> owners ->
            exists snap, lookup_task user_id t (sys_world sys) = Some snap
              /\ (t ∈ active_set user_id (sys_world sys)
                  <-> is_terminal (status snap) = false)).
  { intros t Hin. apply list_elem_of_fmap in Hin as (o & Ho & Hin).
    apply list_elem_of_lookup in Hin as [i Hi].
    destruct (lookup_lt_is_Some_2 (background sys) i) as [p Hp].
    { rewrite <- Hlen. by eapply lookup_lt_Some. }
    destruct (Howns i p o Hp Hi) as ((_ & _ & snap & Hsnap & Hstatus & _) & _ & Hslot).
    rewrite <- Ho in Hsnap, Hslot. simpl in Hsnap, Hslot.
    exists snap. by rewrite Hstatus. }
  assert (Hlookup : forall t snap,
            default ∅ (scraping_progress (sys_world sys) !! user_id) !! t = Some snap
            <-> lookup_task user_id t (sys_world sys) = Some snap).
  { intros t snap. unfold lookup_task.
    destruct (scraping_progress (sys_world sys) !! user_id); simpl; [done|].
    by rewrite lookup_empty. }
  apply set_eq. intros t. unfold running_tasks.
  rewrite elem_of_dom. split.
  - intros Hin. destruct (Howner t (Hactive _ _ Hin)) as (snap & Hsnap & Hiff).
    exists snap. apply map_lookup_filter_Some. split; [by apply Hlookup|].
    by apply Hiff.
  - intros [snap [Hsnap Hrun]%map_lookup_filter_Some]. simpl in Hrun.
    apply Hlookup in Hsnap.
    destruct (Howner t (Hcover _ _ _ Hsnap)) as (snap' & Hsnap' & Hiff).
    apply Hiff. congruence.
Qed.

End Slots.

Section Slots_claim.

Import Tasks.

(** X17.  With unique task ids the active set of a user is the set of
    the tasks of this user whose status is not terminal, in every state
    the service can reach: a task takes its slot when it is admitted and
    gives it back in the turn in which it writes [completed] or [error].
    So a request is rejected exactly when three tasks of the user are
    running. *)
Theorem active_set_exact (clock : nat -> Z)
    (task_id_of : string -> Z -> string -> string)
    (html_parser : string -> outcome (list Cleaner.node))
    (sys : system) (user_id : string) :
  reachable clock task_id_of html_parser true sys ->
  active_set user_id (sys_world sys) = running_tasks user_id (sys_world sys)
  /\ (forall req_url,
        (scrape_and_ingest clock task_id_of html_parser req_url user_id
           (sys_world sys)).1.1 = Raise too_many_tasks
        <-> MAX_CONCURRENT_TASKS
            <= Z.of_nat (size (running_tasks user_id (sys_world sys)))).
Proof.
  intros Hreach. apply reachable_exact in Hreach.
  pose proof (exact_active_running sys user_id Hreach) as Heq.
  split; [done|]. intros req_url. rewrite <- Heq.
  destruct (Z.ltb_spec (Z.of_nat (size (active_set user_id (sys_world sys))))
              MAX_CONCURRENT_TASKS) as [Hlt|Hge].
  - destruct (scrape_and_ingest_admitted clock task_id_of html_parser req_url user_id
                (sys_world sys) Hlt) as (task_id & t1 & t2 & w1 & -> & _).
    simpl. split; [done|lia].
  - by rewrite scrape_and_ingest_rejected by done.
Qed.

Lemma active_set_exact_witness :
  let clock := fun n : nat => Z.of_nat n in
  let task_id_of := fun (url : string) (_ : Z) (_ : string) => url in
  let html_parser := fun _ : string => Ok [] in
  let sys := resumed clock nothing_found 0
               (started clock 0
                  (after_request clock task_id_of html_parser "http://b" "alice"
                     (after_request clock task_id_of html_parser "http://a" "alice"
                        initial_system))) in
  active_set "alice" (sys_world sys) = running_tasks "alice" (sys_world sys)
  /\ (forall req_url,
        (scrape_and_ingest clock task_id_of html_parser req_url "alice"
           (sys_world sys)).1.1 = Raise too_many_tasks
        <-> MAX_CONCURRENT_TASKS
            <= Z.of_nat (size (running_tasks "alice" (sys_world sys)))).
Proof.
  intros clock task_id_of html_parser sys.
  apply (active_set_exact clock task_id_of html_parser sys "alice").
  apply resumed_reachable, started_reachable.
  apply (rtc_l _ _ (after_request clock task_id_of html_parser "http://a" "alice"
                      initial_system)).
  { apply step_request. intros _ task_id started H.
    vm_compute in H. injection H as <- <-. vm_compute. reflexivity. }
  apply (rtc_l _ _ (after_request clock task_id_of html_parser "http://b" "alice"
                      (after_request clock task_id_of html_parser "http://a" "alice"
                         initial_system))); [|apply rtc_refl].
  apply step_request. intros _ task_id started H.
  vm_compute in H. injection H as <- <-. vm_compute. reflexivity.
Defined.

(** The first task found no page and is gone from the active set; the
    second has not started and holds its slot. *)
Example active_set_after_failure :
  let clock := fun n : nat => Z.of_nat n in
  let task_id_of := fun (url : string) (_ : Z) (_ : string) => url in
  let html_parser := fun _ : string => Ok [] in
  let sys := resumed clock nothing_found 0
               (started clock 0
                  (after_request clock task_id_of html_parser "http://b" "alice"
                     (after_request clock task_id_of html_parser "http://a" "alice"
                        initial_system))) in
  elements (active_set "alice" (sys_world sys)) = ["http://b"%string]
  /\ task_view "alice" "http://a" (sys_world sys) = Some (Error, true)
  /\ task_view "alice" "http://b" (sys_world sys) = Some (Crawling, false).
Proof. by vm_compute. Qed.

End Slots_claim.

(** * [update_progress] with any keyword arguments *)

Section Update_dict.

Import Tasks.

Context {V : Type}.
Variables (of_str : string -> V) (of_datetime : Z -> V) (of_bool : bool -> V).

Local Abbreviation update_dict := (update_dict of_str of_datetime of_bool).
Local Abbreviation update_table := (update_table of_str of_datetime of_bool).

Lemma status_name_terminal s :
  bool_decide (status_name s ∈ ["completed"; "error"]%string) = is_terminal s.
Proof. by destruct s. Qed.

(** The update before the flag is set. *)
Lemma update_dict_merged (status : string) (now : Z) (kwargs d : gmap string V)
    (key : string) :
  (kwargs ∪ <["last_update"%string := of_datetime now]>
              {["status"%string := of_str status]} ∪ d) !! key
  = match kwargs !! key with
    | Some v => Some v
    | None =>
        if decide (key = "last_update"%string) then Some (of_datetime now)
        else if decide (key = "status"%string) then Some (of_str status)
        else d !! key
    end.
Proof.
  rewrite !lookup_union. destruct (kwargs !! key) as [v|]; simpl.
  { by rewrite !union_Some_l. }
  rewrite (left_id None _).
  destruct (decide (key = "last_update"%string)) as [->|Hlast].
  { by rewrite lookup_insert_eq, union_Some_l. }
  rewrite lookup_insert_ne by done.
  destruct (decide (key = "status"%string)) as [->|Hstatus].
  { by rewrite lookup_singleton_eq, union_Some_l. }
  rewrite lookup_singleton_ne by done. by rewrite (left_id None _).
Qed.

Lemma update_dict_lookup (status : string) (now : Z) (kwargs d : gmap string V)
    (key : string) :
  update_dict status now kwargs d !! key
  = if bool_decide (status ∈ ["completed"; "error"]%string)
       && bool_decide (key = "is_completed"%string)
    then Some (of_bool true)
    else match kwargs !! key with
         | Some v => Some v
         | None =>
             if decide (key = "last_update"%string) then Some (of_datetime now)
             else if decide (key = "status"%string) then Some (of_str status)
             else d !! key
         end.
Proof.
  unfold Tasks.update_dict. cbv zeta.
  destruct (bool_decide (status ∈ ["completed"; "error"]%string)); simpl.
  - case_bool_decide as Hkey.
    + subst key. by rewrite lookup_insert_eq.
    + rewrite lookup_insert_ne by done. apply update_dict_merged.
  - apply update_dict_merged.
Qed.

Lemma update_table_other user_id task_id status now kwargs table u k :
  ~ (u = user_id /\ k = task_id) ->
  lookup_entry (update_table user_id task_id status now kwargs table) u k
  = lookup_entry table u k.
Proof.
  intros Hne. unfold lookup_entry, Tasks.update_table.
  destruct (table !! user_id) as [tasks|] eqn:Htasks.
  - destruct (tasks !! task_id) as [d|] eqn:Hd; [|done].
    destruct (decide (u = user_id)) as [->|Hu].
    + rewrite lookup_insert_eq, Htasks. simpl.
      rewrite lookup_insert_ne; [done|]. intros <-. by apply Hne.
    + by rewrite lookup_insert_ne.
  - destruct (decide (u = user_id)) as [->|Hu].
    + by rewrite lookup_insert_eq, Htasks.
    + by rewrite lookup_insert_ne.
Qed.

Lemma update_table_entry user_id task_id status now kwargs table :
  lookup_entry (update_table user_id task_id status now kwargs table) user_id task_id
  = update_dict status now kwargs <$> lookup_entry table user_id task_id.
Proof.
  unfold lookup_entry, Tasks.update_table.
  destruct (table !! user_id) as [tasks|] eqn:Htasks; simpl.
  - destruct (tasks !! task_id) as [d|] eqn:Hd.
    + rewrite lookup_insert_eq. simpl. by rewrite lookup_insert_eq.
    + rewrite Htasks. simpl. by rewrite Hd.
  - by rewrite lookup_insert_eq.
Qed.

End Update_dict.

Section Update_dict_model.

Import Tasks.

Context {V : Type}.
Variables (of_str : string -> V) (of_datetime : Z -> V) (of_bool : bool -> V).
Variables (of_int : Z -> V) (none : V) (of_summary : summary -> V).

Local Abbreviation snapshot_dict :=
  (snapshot_dict of_str of_datetime of_bool of_int none of_summary).
Local Abbreviation kwargs_dict := (kwargs_dict of_str of_int of_summary).

Ltac lookup_inserts :=
  repeat first [rewrite lookup_insert_eq | rewrite lookup_insert_ne by done];
  rewrite ?lookup_empty.

(** The dictionary of a snapshot, key by key. *)
Lemma snapshot_dict_lookup (snap : snapshot) (key : string) :
  snapshot_dict snap !! key
  = if decide (key = "result"%string) then of_summary <$> result snap
    else if decide (key = "status"%string)
         then Some (of_str (status_name (status snap)))
    else if decide (key = "start_time"%string) then Some (of_datetime (start_time snap))
    else if decide (key = "last_update"%string) then Some (of_datetime (last_update snap))
    else if decide (key = "pages_scraped"%string) then Some (of_int (pages_scraped snap))
    else if decide (key = "chunks_created"%string)
         then Some (of_int (chunks_created snap))
    else if decide (key = "error"%string)
         then Some (match error snap with Some e => of_str e | None => none end)
    else if decide (key = "is_completed"%string) then Some (of_bool (is_completed snap))
    else if decide (key = "url"%string) then Some (of_str (url snap))
    else None.
Proof.
  unfold Tasks.snapshot_dict, list_to_map. cbn [foldr fst snd].
  destruct (result snap) as [r|]; cbn [fmap option_fmap option_map];
    repeat case_decide; subst; by lookup_inserts.
Qed.

Lemma kwargs_dict_lookup (kw : kwargs) (key : string) :
  kwargs_dict kw !! key
  = if decide (key = "pages_scraped"%string) then of_int <$> kw_pages_scraped kw
    else if decide (key = "chunks_created"%string) then of_int <$> kw_chunks_created kw
    else if decide (key = "error"%string) then of_str <$> kw_error kw
    else if decide (key = "result"%string) then of_summary <$> kw_result kw
    else None.
Proof.
  unfold Tasks.kwargs_dict, list_to_map.
  destruct kw as [[p|] [c|] [e|] [r|]];
    cbn [kw_pages_scraped kw_chunks_created kw_error kw_result
         fmap option_fmap option_map];
    unfold option_list; cbn [option_rect app foldr fst snd];
    repeat case_decide; subst; by lookup_inserts.
Qed.

(** On the four keys its callers pass, the update of the snapshots of
    the model is the update of the dictionaries. *)
Lemma apply_update_dict (s : task_status) (now : Z) (kw : kwargs) (snap : snapshot) :
  snapshot_dict
    (let snap := apply_update s now kw snap in
     if is_terminal s then set_completed snap else snap)
  = update_dict of_str of_datetime of_bool (status_name s) now
      (kwargs_dict kw) (snapshot_dict snap).
Proof.
  apply map_eq. intros key.
  rewrite update_dict_lookup, status_name_terminal, kwargs_dict_lookup,
    !snapshot_dict_lookup.
  destruct kw as [[p|] [c|] [e|] [r|]], (is_terminal s);
    cbn [kw_pages_scraped kw_chunks_created kw_error kw_result
         fmap option_fmap option_map andb];
    repeat case_decide; subst; try done; by case_bool_decide.
Qed.

End Update_dict_model.

Section Update_dict_claims.

Import Tasks.

(** X19.  [update_progress], for every dictionary of keyword
    arguments.  It creates no task and touches no other: a task the
    user does not have stays absent, and every other entry of the table
    stays as it is.  In the dictionary of the task it stores the status
    and the time, and every keyword argument under its key; a terminal
    status sets [is_completed] to [True], whatever the keyword
    arguments; every other key keeps its value.  So [start_time] and
    [url] are kept unless they are passed as keywords, and
    [is_completed] is never cleared by a terminal status. *)
Theorem update_progress_merge {V : Type}
    (of_str : string -> V) (of_datetime : Z -> V) (of_bool : bool -> V)
    (user_id task_id status : string) (now : Z) (kwargs : gmap string V)
    (table : gmap string (gmap string (gmap string V))) :
  let table' :=
    update_table of_str of_datetime of_bool user_id task_id status now kwargs table in
  let terminal := bool_decide (status ∈ ["completed"; "error"]%string) in
  (forall u k, ~ (u = user_id /\ k = task_id) ->
     lookup_entry table' u k = lookup_entry table u k)
  /\ (lookup_entry table user_id task_id = None ->
      lookup_entry table' user_id task_id = None)
  /\ (forall d, lookup_entry table user_id task_id = Some d ->
        exists d',
          lookup_entry table' user_id task_id = Some d'
          /\ (kwargs !! "status"%string = None ->
              d' !! "status"%string = Some (of_str status))
          /\ (kwargs !! "last_update"%string = None ->
              d' !! "last_update"%string = Some (of_datetime now))
          /\ (terminal = true -> d' !! "is_completed"%string = Some (of_bool true))
          /\ (forall key v,
                kwargs !! key = Some v ->
                (key = "is_completed"%string -> terminal = false) ->
                d' !! key = Some v)
          /\ (forall key,
                kwargs !! key = None ->
                key <> "status"%string -> key <> "last_update"%string ->
                (key = "is_completed"%string -> terminal = false) ->
                d' !! key = d !! key)).
Proof.
  intros table' terminal. unfold table'. split_and!.
  - intros u k. apply update_table_other.
  - intros Hnone. by rewrite update_table_entry, Hnone.
  - intros d Hd. eexists. split; [by rewrite update_table_entry, Hd|].
    fold terminal.
    assert (Hflag : forall key : string,
              (key = "is_completed"%string -> terminal = false) ->
              terminal && bool_decide (key = "is_completed"%string) = false).
    { intros key Hkey. case_bool_decide; [by rewrite Hkey|apply andb_false_r]. }
    split_and!.
    + intros Hkw. rewrite update_dict_lookup. fold terminal.
      rewrite Hflag by done. by rewrite Hkw.
    + intros Hkw. rewrite update_dict_lookup. fold terminal.
      rewrite Hflag by done. by rewrite Hkw.
    + intros Hterminal. rewrite update_dict_lookup. fold terminal.
      by rewrite Hterminal.
    + intros key v Hkw Hkey. rewrite update_dict_lookup. fold terminal.
      rewrite Hflag by done. by rewrite Hkw.
    + intros key Hkw Hstatus Hlast Hkey. rewrite update_dict_lookup. fold terminal.
      rewrite Hflag by done. rewrite Hkw.
      by rewrite !decide_False.
Qed.

(** A keyword argument can overwrite [url], and [is_completed=False]
    with a status that is not terminal clears the flag; no caller in the
    source passes either. *)
Example update_dict_overwrites :
  let d : gmap string string :=
    {[ "url" := "http://a"; "is_completed" := "True"; "status" := "error" ]}%string in
  let d' := update_dict id str_int (fun b : bool => if b then "True" else "False")
              "crawling" 7
              {[ "url" := "http://b"; "is_completed" := "False" ]}%string d in
  d' !! "url"%string = Some "http://b"%string
  /\ d' !! "is_completed"%string = Some "False"%string
  /\ d' !! "status"%string = Some "crawling"%string
  /\ d' !! "last_update"%string = Some "7"%string.
Proof. by vm_compute. Qed.

End Update_dict_claims.

(** * The progress store and the task: further facts *)

Section Tasks_more.

Import Tasks.

Variable clock : nat -> Z.
Variable task_id_of : string -> Z -> string -> string.
Variable html_parser : string -> outcome (list Cleaner.node).

Local Abbreviation scrape_and_ingest := (scrape_and_ingest clock task_id_of html_parser).
Local Abbreviation step := (step clock task_id_of html_parser).
Local Abbreviation reachable := (reachable clock task_id_of html_parser).

(** What a poll finds for a stored task. *)
Lemma get_scraping_progress_found task_id user_id w snap :
  lookup_task user_id task_id w = Some snap ->
  (get_scraping_progress clock task_id user_id w).1 = Ok snap
  \/ (get_scraping_progress clock task_id user_id w).1
     = Ok (set_last_update (clock (clock_reads w)) snap).
Proof.
  intros H. unfold get_scraping_progress.
  apply lookup_task_Some in H as (tasks & Hu & Ht).
  rewrite (progress_of_known _ _ _ Hu), Ht. unfold now. simpl.
  destruct (is_completed snap || error_set snap); [by left|].
  destruct (_ <? _); [by left|by right].
Qed.

(** A poll leaves a completed snapshot as it is. *)
Lemma get_scraping_progress_completed task_id user_id w user_id' task_id' snap :
  lookup_task user_id' task_id' w = Some snap ->
  is_completed snap = true ->
  lookup_task user_id' task_id' (get_scraping_progress clock task_id user_id w).2
  = Some snap.
Proof.
  intros Hsnap Hdone. unfold get_scraping_progress.
  destruct (progress_of user_id w) as [tasks w1] eqn:Hp.
  assert (Htasks : tasks !! task_id = lookup_task user_id task_id w).
  { by rewrite <- progress_of_lookup, Hp. }
  assert (Hw1 : forall u t, lookup_task u t w1 = lookup_task u t w).
  { intros u t. by rewrite <- (progress_of_lookup_task user_id w), Hp. }
  destruct (tasks !! task_id) as [snap0|] eqn:Hsnap0; [|simpl; by rewrite Hw1].
  unfold now. simpl.
  destruct (is_completed snap0 || error_set snap0) eqn:Hend; [by rewrite <- Hw1 in Hsnap|].
  destruct (_ <? _); [by rewrite <- Hw1 in Hsnap|]. cbn [snd].
  rewrite store_snapshot_lookup. case_decide as Heq; [|by rewrite <- Hw1 in Hsnap].
  destruct Heq as [-> ->]. rewrite <- Htasks in Hsnap. injection Hsnap as ->.
  by rewrite Hdone in Hend.
Qed.

(** A coroutine whose last status is terminal writes no snapshot. *)
Lemma run_sync_terminal {A} user_id task_id (p : coro A) Q m w user_id' task_id' :
  accepted user_id task_id p Q m ->
  is_terminal (last_status m) = true ->
  lookup_task user_id' task_id' (run_sync clock p w).2 = lookup_task user_id' task_id' w.
Proof.
  revert w m. induction p as [o|op k IH|c k _]; intros w m Hacc Hlast; [done| |done].
  simpl in Hacc.
  destruct (monitor_step user_id task_id op m) as [m'|] eqn:Hstep; [|done].
  destruct op as [u t s kw|u t]; simpl in Hstep.
  - rewrite Hlast in Hstep. simpl in Hstep. rewrite andb_false_r in Hstep. done.
  - destruct (_ && _); [|done]. injection Hstep as <-.
    simpl. rewrite (IH _ m) by done. apply discard_active_lookup_task.
Qed.

(** With unique ids a step of the service leaves a completed snapshot
    as it is. *)
Lemma step_completed sys sys' user_id task_id snap :
  owned_inv sys -> step true sys sys' ->
  lookup_task user_id task_id (sys_world sys) = Some snap ->
  is_completed snap = true ->
  lookup_task user_id task_id (sys_world sys') = Some snap.
Proof.
  intros Hinv Hstep Hsnap Hdone.
  assert (Hturn : forall i p0 p,
    background sys !! i = Some p0 ->
    (forall o, owns (sys_world sys) p0 o ->
       exists m, accepted o.1.1 o.1.2 p (fun _ _ => True) m
                 /\ last_status m = last_status o.2) ->
    lookup_task user_id task_id (sys_world (after_turn clock i p sys)) = Some snap).
  { intros i p0 p Hp0 Hp.
    destruct Hinv as (owners & Hlen & Hnodup & Howns & Hcover).
    destruct (lookup_lt_is_Some_2 owners i) as [o Ho].
    { rewrite Hlen. by eapply lookup_lt_Some. }
    pose proof (Howns i p0 o Hp0 Ho) as Hown.
    destruct (Hp o Hown) as (m & Hacc & Hlast).
    destruct Hown as (_ & _ & Hstored). rewrite <- Hlast in Hstored.
    unfold after_turn. simpl. rewrite <- Hsnap.
    destruct (decide (user_id = o.1.1 /\ task_id = o.1.2)) as [[-> ->]|Hne].
    - apply (run_sync_terminal o.1.1 o.1.2 p (fun _ _ => True) m); [done|].
      destruct Hstored as (snap' & Hsnap' & Hstatus & Hflag).
      rewrite Hsnap in Hsnap'. injection Hsnap' as <-.
      unfold flag_agrees in Hflag. by rewrite <- Hstatus, <- Hflag.
    - destruct (run_sync_owned clock o.1.1 o.1.2 p (sys_world sys) m Hacc Hstored)
        as (_ & _ & _ & _ & Hothers).
      by apply Hothers. }
  destruct Hstep as [req_url user sys Hfresh|task user sys|i p sys Hp|i c k r sys Hp].
  - unfold after_request.
    destruct (Z.ltb_spec (Z.of_nat (size (active_set user (sys_world sys))))
                MAX_CONCURRENT_TASKS) as [Hlt|Hge].
    + destruct (scrape_and_ingest_admitted clock task_id_of html_parser req_url user
                  (sys_world sys) Hlt)
        as (new_id & t1 & t2 & w1 & Heq & _ & Hothers & _).
      assert (Hnew : lookup_task user new_id (sys_world sys) = None).
      { apply (Hfresh eq_refl new_id "started"%string). by rewrite Heq. }
      rewrite Heq. simpl. rewrite Hothers; [done|].
      intros [-> ->]. congruence.
    + by rewrite scrape_and_ingest_rejected by done.
  - by apply get_scraping_progress_completed.
  - apply (Hturn i p p); [done|]. intros o (Hacc & _). by exists o.2.
  - apply (Hturn i (Await c k) (k r)); [done|].
    intros o (Hacc & _). exists (monitor_await o.2). split; [apply Hacc|done].
Qed.

(** *** Runs to the end *)

Lemma finishes_inv {A} interference (p : coro A) w o w' :
  finishes clock interference p w o w' ->
  match p with
  | Return o0 => o = o0 /\ w' = w
  | Do op k => finishes clock interference k (exec clock op w) o w'
  | Await c k =>
      exists r w1, interference w w1 /\ finishes clock interference (k r) w1 o w'
  end.
Proof. destruct 1; eauto. Qed.

(** [try: ... finally: active_tasks[user_id].discard(task_id)]: a run
    to the end ends with the removal. *)
Lemma finishes_try_finally_discard {A} interference (body : coro A)
    user_id task_id w o w' :
  finishes clock interference
    (try_finally body (do (DiscardActive user_id task_id))) w o w' ->
  exists w0, w' = discard_active user_id task_id w0.
Proof.
  revert w. induction body as [o0|op k IH|c k IH]; intros w H.
  - simpl in H. apply finishes_inv in H. simpl in H.
    apply finishes_inv in H as [_ ->]. by eexists.
  - simpl in H. apply finishes_inv in H. by apply IH in H.
  - simpl in H. apply finishes_inv in H as (r & w1 & _ & H). by apply IH in H.
Qed.

(** The monitor of an accepted coroutine follows a run to the end. *)
Lemma finishes_accepted {A} user_id task_id (p : coro A) w o w' :
  finishes clock (undisturbed user_id task_id) p w o w' ->
  forall Q m,
    accepted user_id task_id p Q m ->
    stored_status user_id task_id (last_status m) w ->
    exists m', Q o m' /\ stored_status user_id task_id (last_status m') w'.
Proof.
  induction 1 as [o w|op k w o w' _ IH|c k r w w1 o w' Hview _ IH];
    intros Q m Hacc Hstored.
  - by exists m.
  - simpl in Hacc.
    destruct (monitor_step user_id task_id op m) as [m'|] eqn:Hstep; [|done].
    apply (IH Q m'); [done|].
    destruct op as [u t s kw|u t]; simpl in Hstep.
    + destruct (bool_decide (u = user_id /\ t = task_id)) eqn:Hown; [|done].
      apply bool_decide_eq_true in Hown as [-> ->].
      destruct (is_terminal (last_status m)) eqn:Hlast; [done|].
      destruct (bool_decide (s = Error) || (rank (last_status m) <=? rank s)%nat);
        [|done].
      injection Hstep as <-. simpl.
      destruct Hstored as (snap & Hsnap & Hstatus & Hflag).
      eexists. split; [|split].
      * rewrite (update_progress_lookup _ _ _ _ _ _ snap) by done.
        by rewrite decide_True.
      * by destruct (is_terminal s).
      * unfold flag_agrees in *. rewrite Hstatus, Hlast in Hflag.
        destruct (is_terminal s) eqn:Hterm; simpl; by rewrite ?Hterm.
    + destruct (bool_decide (u = user_id /\ t = task_id) && terminal_written m); [|done].
      injection Hstep as <-.
      apply (stored_status_same_lookup _ _ _ w); [|done].
      apply discard_active_lookup_task.
  - simpl in Hacc. apply (IH Q (monitor_await m)); [apply Hacc|].
    by apply (stored_status_undisturbed _ _ _ w).
Qed.

(** The outcome of an accepted coroutine, whatever goes on while it
    waits. *)
Lemma finishes_outcome {A} interference user_id task_id (p : coro A) w o w' :
  finishes clock interference p w o w' ->
  forall Q m, accepted user_id task_id p Q m -> exists m', Q o m'.
Proof.
  induction 1 as [o w|op k w o w' _ IH|c k r w w1 o w' _ _ IH]; intros Q m Hacc.
  - by exists m.
  - simpl in Hacc.
    destruct (monitor_step user_id task_id op m) as [m'|] eqn:Hstep; [|done].
    by apply (IH Q m').
  - simpl in Hacc. apply (IH Q (monitor_await m)), Hacc.
Qed.

(** The coroutine of a task ends without an exception, after a
    terminal status. *)
Lemma process_scraping_accepted_end user_id task_id url collection :
  accepted user_id task_id (process_scraping html_parser url task_id collection user_id)
    (fun o m => o = Ok tt /\ is_terminal (last_status m) = true)
    (mkMonitor Crawling false).
Proof.
  unfold process_scraping.
  apply accepted_try_finally, accepted_try_except.
  eapply (accepted_mono _ _ _
            (fun o m => match o with
                        | Ok _ => terminal_written m = true
                                  /\ is_terminal (last_status m) = true
                        | Raise _ => is_terminal (last_status m) = false
                        end)).
  { intros [[]|e] m Hm.
    - destruct Hm as [Hw Hlast].
      eapply accepted_do; [by apply monitor_step_discard|done].
    - eapply accepted_do; [apply monitor_step_update; [done|by left]|].
      eapply accepted_do;
        [apply monitor_step_discard; simpl; by rewrite ?orb_true_r|done]. }
  eapply accepted_do_bind; [apply monitor_step_update; [done|right; simpl; lia]|].
  apply accepted_await_bind; [done|]. intros pages.
  case_bool_decide.
  { eapply accepted_do; [apply monitor_step_update; [done|by left]|].
    simpl. by rewrite ?orb_true_r. }
  eapply accepted_do_bind; [apply monitor_step_update; [done|right; simpl; lia]|].
  eapply accepted_do_bind; [apply monitor_step_update; [done|right; simpl; lia]|].
  apply accepted_bind, accepted_process_pages; [done|].
  intros all_chunks m Hlast Hw.
  case_bool_decide.
  { eapply accepted_do; [apply monitor_step_update; [by rewrite Hlast|by left]|].
    simpl. by rewrite ?orb_true_r. }
  eapply accepted_do_bind;
    [apply monitor_step_update; [by rewrite Hlast|right; rewrite Hlast; simpl; lia]|].
  apply accepted_bind, accepted_embed_chunks. intros [all_embeddings|e] m1 Hm1; [|by rewrite Hm1].
  eapply accepted_do_bind;
    [apply monitor_step_update; [by rewrite Hm1|right; rewrite Hm1; simpl; lia]|].
  apply accepted_bind, accepted_ingest_chunks. intros [[]|e] m2 Hm2; [|by rewrite Hm2].
  eapply accepted_do; [apply monitor_step_update; [by rewrite Hm2|right; rewrite Hm2; simpl; lia]|].
  simpl. by rewrite ?orb_true_r.
Qed.

End Tasks_more.

Section Tasks_more_claims.

Import Tasks.

(** X18.  A task that was admitted is found: after an admitted
    [scrape_and_ingest], [get_scraping_progress] for the returned task id
    and the same user returns the snapshot of a task in state
    [crawling], with the URL of the request, no page and no chunk
    counted, no error, no result, and not completed; and the task is in
    the active set of the user. *)
Theorem started_task_found (clock : nat -> Z)
    (task_id_of : string -> Z -> string -> string)
    (html_parser : string -> outcome (list Cleaner.node))
    (req_url user_id : string) (w : world) :
  Z.of_nat (size (active_set user_id w)) < MAX_CONCURRENT_TASKS ->
  let r := scrape_and_ingest clock task_id_of html_parser req_url user_id w in
  exists task_id snap,
    r.1.1 = Ok (task_id, "started"%string)
    /\ task_id ∈ active_set user_id (r.1.2)
    /\ (get_scraping_progress clock task_id user_id (r.1.2)).1 = Ok snap
    /\ status snap = Crawling
    /\ url snap = req_url
    /\ pages_scraped snap = 0
    /\ chunks_created snap = 0
    /\ error snap = None
    /\ result snap = None
    /\ is_completed snap = false.
Proof.
  intros Hlt r.
  destruct (scrape_and_ingest_admitted clock task_id_of html_parser req_url user_id w Hlt)
    as (task_id & t1 & t2 & w1 & Heq & Hsnap & _ & Hactive & _).
  unfold r. rewrite Heq. simpl. exists task_id.
  assert (Hin : task_id ∈ active_set user_id w1).
  { rewrite Hactive. apply elem_of_union. left. by apply elem_of_singleton. }
  destruct (get_scraping_progress_found clock task_id user_id w1 _ Hsnap) as [Hr|Hr];
    rewrite Hr; eexists; by split_and!.
Qed.

Lemma started_task_found_witness :
  let clock := fun n : nat => Z.of_nat n in
  let task_id_of := fun (url : string) (_ : Z) (_ : string) => url in
  let html_parser := fun _ : string => Ok [] in
  let r := scrape_and_ingest clock task_id_of html_parser "http://a" "alice" empty_world in
  exists task_id snap,
    r.1.1 = Ok (task_id, "started"%string)
    /\ task_id ∈ active_set "alice" (r.1.2)
    /\ (get_scraping_progress clock task_id "alice" (r.1.2)).1 = Ok snap
    /\ status snap = Crawling
    /\ url snap = "http://a"%string
    /\ pages_scraped snap = 0
    /\ chunks_created snap = 0
    /\ error snap = None
    /\ result snap = None
    /\ is_completed snap = false.
Proof.
  apply (started_task_found (fun n : nat => Z.of_nat n)
           (fun (url : string) (_ : Z) (_ : string) => url) (fun _ : string => Ok [])
           "http://a" "alice" empty_world).
  vm_compute. reflexivity.
Defined.

(** On the globals of the model, with the keyword arguments the
    callers pass ([pages_scraped], [chunks_created], [error],
    [result]): [update_progress] creates no task, changes the snapshot
    of its task only and leaves the active sets; [update_progress_merge]
    is the statement for every keyword argument. *)
Lemma update_progress_frame (clock : nat -> Z) (user_id task_id : string)
    (s : task_status) (kw : kwargs) (w : world) :
  let w' := update_progress clock user_id task_id s kw w in
  (lookup_task user_id task_id w = None ->
     forall user_id' task_id',
       lookup_task user_id' task_id' w' = lookup_task user_id' task_id' w)
  /\ (forall user_id' task_id',
        ~ (user_id' = user_id /\ task_id' = task_id) ->
        lookup_task user_id' task_id' w' = lookup_task user_id' task_id' w)
  /\ (forall user_id', active_set user_id' w' = active_set user_id' w)
  /\ (forall snap,
        lookup_task user_id task_id w = Some snap ->
        exists snap',
          lookup_task user_id task_id w' = Some snap'
          /\ status snap' = s
          /\ last_update snap' = clock (clock_reads w)
          /\ start_time snap' = start_time snap
          /\ url snap' = url snap
          /\ is_completed snap' = is_completed snap || is_terminal s).
Proof.
  intros w'. unfold w'. split_and!.
  - intros Hnone u t. by apply update_progress_unknown.
  - intros u t Hne.
    destruct (lookup_task user_id task_id w) as [snap|] eqn:Hsnap.
    + rewrite (update_progress_lookup _ _ _ _ _ _ snap) by done. by rewrite decide_False.
    + by apply update_progress_unknown.
  - intros u. apply update_progress_active_set.
  - intros snap Hsnap. eexists. split.
    + rewrite (update_progress_lookup _ _ _ _ _ _ snap) by done. by rewrite decide_True.
    + destruct (is_terminal s); simpl; split_and!; try done.
      * by rewrite orb_true_r.
      * by rewrite orb_false_r.
Qed.

(** X20.  With unique task ids a task that is completed stays as it
    is: once [is_completed] is set in its snapshot, no request, no poll
    and no background task changes the snapshot again. *)
Theorem completed_snapshot_final (clock : nat -> Z)
    (task_id_of : string -> Z -> string -> string)
    (html_parser : string -> outcome (list Cleaner.node))
    (sys sys' : system) (user_id task_id : string) (snap : snapshot) :
  reachable clock task_id_of html_parser true sys ->
  rtc (step clock task_id_of html_parser true) sys sys' ->
  lookup_task user_id task_id (sys_world sys) = Some snap ->
  is_completed snap = true ->
  lookup_task user_id task_id (sys_world sys') = Some snap.
Proof.
  intros Hreach Hsteps Hsnap Hdone.
  apply reachable_owned in Hreach.
  induction Hsteps as [|x y z Hstep _ IH]; [done|].
  apply IH; [by apply (step_owned clock task_id_of html_parser x)|].
  by apply (step_completed clock task_id_of html_parser x y).
Qed.

Lemma completed_snapshot_final_witness :
  let clock := fun n : nat => Z.of_nat n in
  let task_id_of := fun (url : string) (_ : Z) (_ : string) => url in
  let html_parser := fun _ : string => Ok [] in
  let failed := "No pages could be scraped from the provided URL"%string in
  let sys := resumed clock nothing_found 0
               (started clock 0
                  (after_request clock task_id_of html_parser "http://a" "alice"
                     initial_system)) in
  lookup_task "alice" "http://a" (sys_world (after_poll clock "http://a" "alice" sys))
  = Some (mkSnapshot Error 1 4 0 0 (Some failed) true "http://a" None).
Proof.
  intros clock task_id_of html_parser failed sys.
  apply (completed_snapshot_final clock task_id_of html_parser sys
           (after_poll clock "http://a" "alice" sys)).
  - apply resumed_reachable, started_reachable.
    apply (rtc_l _ _ (after_request clock task_id_of html_parser "http://a" "alice"
                        initial_system)); [|apply rtc_refl].
    apply step_request. intros _ task_id started H.
    vm_compute in H. injection H as <- <-. vm_compute. reflexivity.
  - apply rtc_once, step_poll.
  - vm_compute. reflexivity.
  - reflexivity.
Defined.

(** X21.  The background task always gives its slot back: every run of
    [process_scraping] to its end, whatever its collaborators answer or
    raise and whatever the service does while it waits, ends without an
    exception and with the task out of the active set of its user. *)
Theorem process_scraping_releases (clock : nat -> Z)
    (html_parser : string -> outcome (list Cleaner.node))
    (url task_id collection user_id : string) (w w' : world) (o : outcome unit) :
  finishes clock (fun _ _ => True)
    (process_scraping html_parser url task_id collection user_id) w o w' ->
  o = Ok tt /\ task_id ∉ active_set user_id w'.
Proof.
  intros H. split.
  - destruct (finishes_outcome clock _ user_id task_id _ _ _ _ H _ _
                (process_scraping_accepted_end html_parser user_id task_id url collection))
      as (_ & Ho & _).
    done.
  - apply finishes_try_finally_discard in H as [w0 Hw0]. rewrite Hw0.
    rewrite discard_active_active_set, decide_True by done.
    intros [_ Hin]%elem_of_difference. apply Hin. by apply elem_of_singleton.
Qed.

Lemma process_scraping_releases_witness :
  let clock := fun n : nat => Z.of_nat n in
  let task_id_of := fun (url : string) (_ : Z) (_ : string) => url in
  let html_parser := fun _ : string => Ok [] in
  let w := (scrape_and_ingest clock task_id_of html_parser "http://a" "alice"
              empty_world).1.2 in
  let task := process_scraping html_parser "http://a" "http://a" "alice" "alice" in
  (run_to_end clock nothing_found task w).1.1 = Ok tt
  /\ "http://a"%string ∉ active_set "alice" (run_to_end clock nothing_found task w).1.2.
Proof.
  intros clock task_id_of html_parser w task.
  apply (process_scraping_releases clock html_parser "http://a" "http://a" "alice" "alice" w).
  apply finishes_do.
  apply (finishes_await clock _ (CrawlWebsite "http://a") _ (Ok []) _
           (exec clock (UpdateProgress "alice" "http://a" Crawling no_kwargs) w));
    [exact I|].
  apply finishes_do, finishes_do, finishes_return.
Defined.

(** X22.  A task ends in a terminal state: at the end of every run of
    [process_scraping] on a task that is stored in state [crawling],
    with a service that leaves the status and the flag of the task alone
    while the task waits, the snapshot of the task has the status
    [completed] or [error] and is flagged completed. *)
Theorem process_scraping_ends_terminal (clock : nat -> Z)
    (html_parser : string -> outcome (list Cleaner.node))
    (url task_id collection user_id : string) (w w' : world) (o : outcome unit)
    (created : snapshot) :
  lookup_task user_id task_id w = Some created ->
  status created = Crawling ->
  is_completed created = false ->
  finishes clock (undisturbed user_id task_id)
    (process_scraping html_parser url task_id collection user_id) w o w' ->
  exists final,
    lookup_task user_id task_id w' = Some final
    /\ (status final = Completed \/ status final = Error)
    /\ is_completed final = true.
Proof.
  intros Hcreated Hstatus Hflag H.
  destruct (finishes_accepted clock user_id task_id _ _ _ _ H _ _
              (process_scraping_accepted_end html_parser user_id task_id url collection))
    as (m' & [_ Hterm] & final & Hfinal & Hs & Hagree).
  { exists created. split_and!; [done|done|]. unfold flag_agrees. by rewrite Hstatus. }
  exists final. unfold flag_agrees in Hagree. rewrite Hs, Hterm in Hagree.
  split_and!; [done| |done].
  rewrite Hs. destruct (last_status m'); try done; [by left|by right].
Qed.

Lemma process_scraping_ends_terminal_witness :
  let clock := fun n : nat => Z.of_nat n in
  let task_id_of := fun (url : string) (_ : Z) (_ : string) => url in
  let html_parser := fun _ : string => Ok [] in
  let w := (scrape_and_ingest clock task_id_of html_parser "http://a" "alice"
              empty_world).1.2 in
  let task := process_scraping html_parser "http://a" "http://a" "alice" "alice" in
  exists final,
    lookup_task "alice" "http://a" (run_to_end clock nothing_found task w).1.2 = Some final
    /\ (status final = Completed \/ status final = Error)
    /\ is_completed final = true.
Proof.
  intros clock task_id_of html_parser w task.
  apply (process_scraping_ends_terminal clock html_parser "http://a" "http://a" "alice"
           "alice" w _ (Ok tt) (mkSnapshot Crawling 1 2 0 0 None false "http://a" None)).
  - vm_compute. reflexivity.
  - reflexivity.
  - reflexivity.
  - apply finishes_do.
    apply (finishes_await clock _ (CrawlWebsite "http://a") _ (Ok []) _
             (exec clock (UpdateProgress "alice" "http://a" Crawling no_kwargs) w));
      [reflexivity|].
    apply finishes_do, finishes_do, finishes_return.
Defined.

End Tasks_more_claims.

(** * The background task, stage by stage *)

Section Pipeline.

Import Tasks.

Variable clock : nat -> Z.
Variable html_parser : string -> outcome (list Cleaner.node).
Variable answers : forall c, outcome (answer c).
Variables user_id task_id : string.

Local Abbreviation run := (@run_to_end clock).
Local Abbreviation update s kw := (UpdateProgress user_id task_id s kw).

Lemma run_bind_ok {A B} (m : coro A) (f : A -> coro B) w a w1 cs1 o w2 cs2 :
  run answers m w = (Ok a, w1, cs1) ->
  run answers (f a) w1 = (o, w2, cs2) ->
  run answers (bind m f) w = (o, w2, cs1 ++ cs2).
Proof.
  revert w cs1. induction m as [[a'|e]|op k IH|c k IH]; intros w cs1 Hm Hf; simpl in *.
  - by simplify_eq.
  - by simplify_eq.
  - by apply IH.
  - destruct (run answers (k (answers c)) w) as [[o1 w1'] cs1'] eqn:Hk.
    simpl in Hm. simplify_eq. by rewrite (IH _ _ _ Hk Hf).
Qed.

Lemma run_bind_raise {A B} (m : coro A) (f : A -> coro B) w e w1 cs1 :
  run answers m w = (Raise e, w1, cs1) ->
  run answers (bind m f) w = (Raise e, w1, cs1).
Proof.
  revert w cs1. induction m as [[a'|e']|op k IH|c k IH]; intros w cs1 Hm; simpl in *.
  - by simplify_eq.
  - by simplify_eq.
  - by apply IH.
  - destruct (run answers (k (answers c)) w) as [[o1 w1'] cs1'] eqn:Hk.
    simpl in Hm. simplify_eq. by rewrite (IH _ _ _ Hk).
Qed.

Lemma run_try_except_ok {A} (body : coro A) handler w a w1 cs :
  run answers body w = (Ok a, w1, cs) ->
  run answers (try_except_coro body handler) w = (Ok a, w1, cs).
Proof.
  revert w cs. induction body as [[a'|e']|op k IH|c k IH]; intros w cs Hb; simpl in *.
  - by simplify_eq.
  - by simplify_eq.
  - by apply IH.
  - destruct (run answers (k (answers c)) w) as [[o1 w1'] cs1'] eqn:Hk.
    simpl in Hb. simplify_eq. by rewrite (IH _ _ _ Hk).
Qed.

Lemma run_try_except_raise {A} (body : coro A) handler w e w1 cs1 o w2 cs2 :
  run answers body w = (Raise e, w1, cs1) ->
  run answers (handler e) w1 = (o, w2, cs2) ->
  run answers (try_except_coro body handler) w = (o, w2, cs1 ++ cs2).
Proof.
  revert w cs1. induction body as [[a'|e']|op k IH|c k IH]; intros w cs1 Hb Hh; simpl in *.
  - by simplify_eq.
  - by simplify_eq.
  - by apply IH.
  - destruct (run answers (k (answers c)) w) as [[o1 w1'] cs1'] eqn:Hk.
    simpl in Hb. simplify_eq. by rewrite (IH _ _ _ Hk Hh).
Qed.

Lemma run_try_finally {A} (body : coro A) final w o w1 cs1 w2 cs2 :
  run answers body w = (o, w1, cs1) ->
  run answers final w1 = (Ok tt, w2, cs2) ->
  run answers (try_finally body final) w = (o, w2, cs1 ++ cs2).
Proof.
  revert w cs1. induction body as [o'|op k IH|c k IH]; intros w cs1 Hb Hf; simpl in *.
  - simplify_eq.
    rewrite (run_bind_ok final (fun _ => Return o) w1 tt w2 cs2 o w2 [] Hf eq_refl).
    by rewrite app_nil_r.
  - by apply IH.
  - destruct (run answers (k (answers c)) w) as [[o1 w1'] cs1'] eqn:Hk.
    simpl in Hb. simplify_eq. by rewrite (IH _ _ _ Hk Hf).
Qed.

Lemma run_do_bind {B} op (f : unit -> coro B) w :
  run answers (bind (do op) f) w = run answers (f tt) (exec clock op w).
Proof. done. Qed.

Lemma run_await_bind_ok {B} c (f : answer c -> coro B) w a o w2 cs2 :
  answers c = Ok a ->
  run answers (f a) w = (o, w2, cs2) ->
  run answers (bind (await c) f) w = (o, w2, c :: cs2).
Proof. intros Hc Hf. simpl. by rewrite Hc, Hf. Qed.

Lemma run_await_bind_raise {B} c (f : answer c -> coro B) w e :
  answers c = Raise e ->
  run answers (bind (await c) f) w = (Raise e, w, [c]).
Proof. intros Hc. simpl. by rewrite Hc. Qed.

(** *** What the updates of the task leave in its snapshot *)

Lemma update_fields s kw w snap :
  lookup_task user_id task_id w = Some snap ->
  exists snap',
    lookup_task user_id task_id (exec clock (update s kw) w) = Some snap'
    /\ fields snap'
       = (s,
          default (pages_scraped snap) (kw_pages_scraped kw),
          default (chunks_created snap) (kw_chunks_created kw),
          match kw_error kw with Some e => Some e | None => error snap end,
          is_completed snap || is_terminal s,
          url snap,
          match kw_result kw with Some r => Some r | None => result snap end,
          start_time snap)
    /\ active_set user_id (exec clock (update s kw) w) = active_set user_id w.
Proof.
  intros Hsnap. simpl. eexists. split_and!.
  - rewrite (update_progress_lookup _ _ _ _ _ _ snap) by done. by rewrite decide_True.
  - unfold fields. destruct (is_terminal s); simpl; by rewrite ?orb_true_r, ?orb_false_r.
  - apply update_progress_active_set.
Qed.

Lemma fold_left_concat {A B} (f : A -> B -> A) (ls : list (list B)) a :
  fold_left f (concat ls) a = fold_left (fun a l => fold_left f l a) ls a.
Proof.
  revert a. induction ls as [|l ls IH]; intros a; [done|].
  simpl. by rewrite fold_left_app, IH.
Qed.

(** The pages are cleaned and chunked batch by batch; after each batch
    the number of chunks so far is stored. *)
Lemma run_process_pages batches all_chunks w snap :
  lookup_task user_id task_id w = Some snap ->
  exists w' snap',
    run answers (process_pages html_parser user_id task_id batches all_chunks) w
    = (Ok (fold_left (process_page html_parser) (concat batches) all_chunks), w', [])
    /\ lookup_task user_id task_id w' = Some snap'
    /\ fields snap'
       = (match batches with [] => status snap | _ => Processing end,
          pages_scraped snap,
          match batches with
          | [] => chunks_created snap
          | _ => Z.of_nat (length (fold_left (process_page html_parser)
                                      (concat batches) all_chunks))
          end,
          error snap, is_completed snap, url snap, result snap, start_time snap)
    /\ active_set user_id w' = active_set user_id w.
Proof.
  revert all_chunks w snap.
  induction batches as [|page_chunk batches IH]; intros all_chunks w snap Hsnap.
  - by exists w, snap.
  - cbn [process_pages]. rewrite run_do_bind.
    set (chunks := fold_left (process_page html_parser) page_chunk all_chunks).
    destruct (update_fields Processing
                (mkKwargs None (Some (Z.of_nat (length chunks))) None None) w snap Hsnap)
      as (snap1 & Hsnap1 & Hfields1 & Hactive1).
    unfold fields in Hfields1. simpl in Hfields1. simplify_eq.
    destruct (IH chunks _ snap1 Hsnap1) as (w' & snap' & Hrun & Hsnap' & Hfields' & Hactive').
    exists w', snap'. split_and!.
    + rewrite Hrun. simpl concat. by rewrite fold_left_app.
    + done.
    + rewrite Hfields'. simpl concat. rewrite fold_left_app. fold chunks.
      rewrite H, H0, H1, H2, H3, H4, H5, H6, orb_false_r.
      destruct batches; [|done]. by simpl.
    + by rewrite Hactive', Hactive1.
Qed.

(** The embeddings of the batches, one call for each batch. *)
Lemma run_embed_chunks (vectors : list string -> list embedding) batches all_embeddings w :
  Forall (fun chunk => answers (GetEmbeddings chunk) = Ok (vectors chunk)) batches ->
  run answers (embed_chunks batches all_embeddings) w
  = (Ok (all_embeddings ++ concat (map vectors batches)), w, map GetEmbeddings batches).
Proof.
  revert all_embeddings. induction batches as [|chunk batches IH];
    intros all_embeddings Hall.
  - simpl. by rewrite app_nil_r.
  - apply Forall_cons in Hall as [Hchunk Hall]. cbn [embed_chunks].
    rewrite (run_await_bind_ok (GetEmbeddings chunk)
               (fun embeddings => embed_chunks batches (all_embeddings ++ embeddings))
               w (vectors chunk) _ _ _ Hchunk (IH (all_embeddings ++ vectors chunk) Hall)).
    simpl. by rewrite <- app_assoc.
Qed.

(** The store is called once for each start of a batch. *)
Lemma run_ingest_chunks collection all_chunks all_embeddings starts size w :
  (forall c e, answers (IngestToQdrant collection c e) = Ok tt) ->
  run answers (ingest_chunks collection all_chunks all_embeddings starts size) w
  = (Ok tt, w,
     map (fun i => IngestToQdrant collection (slice all_chunks i (i + size))
                     (slice all_embeddings i (i + size))) starts).
Proof.
  intros Hok. induction starts as [|i starts IH]; [done|].
  cbn [ingest_chunks].
  by rewrite (run_await_bind_ok (IngestToQdrant _ _ _)
                (fun _ => ingest_chunks collection all_chunks all_embeddings starts size)
                w tt _ _ _ (Hok _ _) IH).
Qed.

(** What the store is called with: each batch of chunks with the
    vectors the embedding service gave for it. *)
Lemma ingest_calls_aligned (vectors : list string -> list embedding) collection
    (all_chunks : list string) size :
  (0 < size)%nat ->
  Forall (fun chunk => length (vectors chunk) = length chunk) (batches_of all_chunks size) ->
  map (fun i => IngestToQdrant collection (slice all_chunks i (i + size))
                  (slice (concat (map vectors (batches_of all_chunks size))) i (i + size)))
    (range_step (length all_chunks) size)
  = map (fun chunk => IngestToQdrant collection chunk (vectors chunk))
      (batches_of all_chunks size).
Proof.
  intros Hsize Hlen.
  set (embs := concat (map vectors (batches_of all_chunks size))).
  assert (Hembs : batches_of embs size = map vectors (batches_of all_chunks size)).
  { apply (batches_of_concat all_chunks); [done|].
    apply Forall2_fmap_r, Forall_Forall2_diag. exact Hlen. }
  assert (Hsame : length embs = length all_chunks).
  { transitivity (length (concat (batches_of all_chunks size)));
      [|by rewrite concat_batches_of].
    unfold embs. clear -Hlen.
    induction Hlen as [|b bs Hb _ IH]; [done|].
    simpl. rewrite !length_app. by rewrite Hb, IH. }
  unfold batches_of in Hembs. rewrite Hsame, map_map in Hembs.
  unfold batches_of. rewrite map_map.
  apply map_ext_in. intros i Hi.
  rewrite map_ext_in_iff in Hembs. by rewrite (Hembs i Hi).
Qed.

End Pipeline.

Section Pipeline_claims.

Import Tasks.

(** X23.  The run of a task that succeeds.  When the crawl returns
    pages whose cleaned texts give chunks, the embedding service
    answers every batch with as many vectors as the batch has chunks, and
    the store accepts: the collaborators are called in this order, the
    crawl once, the embedding service once for each batch of up to 50
    chunks, then the store once for each batch, with the chunks of the
    batch and the vectors that were given for these chunks; and the task
    ends completed, its counters and its result telling the number of
    pages and of chunks, and out of the active set.  The chunks are those
    of all pages, in the order of the pages. *)
Theorem process_scraping_pipeline (clock : nat -> Z)
    (html_parser : string -> outcome (list Cleaner.node))
    (answers : forall c, outcome (answer c))
    (url task_id collection user_id : string) (w : world) (created : snapshot)
    (pages : list (string * string)) :
  let all_chunks := fold_left (process_page html_parser) pages [] in
  let batches := batches_of all_chunks 50 in
  let vectors := fun chunk =>
    match answers (GetEmbeddings chunk) with Ok v => v | Raise _ => [] end in
  lookup_task user_id task_id w = Some created ->
  answers (CrawlWebsite url) = Ok pages ->
  all_chunks <> [] ->
  Forall (fun chunk => exists v, answers (GetEmbeddings chunk) = Ok v
                                 /\ length v = length chunk) batches ->
  (forall chunk v, answers (IngestToQdrant collection chunk v) = Ok tt) ->
  let r := run_to_end clock answers
             (process_scraping html_parser url task_id collection user_id) w in
  r.1.1 = Ok tt
  /\ r.2 = CrawlWebsite url
            :: (map GetEmbeddings batches
                ++ map (fun chunk => IngestToQdrant collection chunk (vectors chunk))
                     batches)
  /\ (task_id ∉ active_set user_id (r.1.2))
  /\ exists final,
       lookup_task user_id task_id (r.1.2) = Some final
       /\ status final = Completed
       /\ is_completed final = true
       /\ pages_scraped final = Z.of_nat (length pages)
       /\ chunks_created final = Z.of_nat (length all_chunks)
       /\ result final
          = Some (mkSummary collection (Z.of_nat (length pages))
                    (Z.of_nat (length all_chunks)))
       /\ error final = error created
       /\ Tasks.url final = Tasks.url created
       /\ start_time final = start_time created.
Proof.
  intros all_chunks batches vectors Hcreated Hcrawl Hchunks Hembed Hstore r.
  assert (Hpages : pages <> []).
  { intros ->. by apply Hchunks. }
  assert (Hvectors : Forall (fun chunk => answers (GetEmbeddings chunk) = Ok (vectors chunk))
                       batches
                     /\ Forall (fun chunk => length (vectors chunk) = length chunk) batches).
  { split; (eapply Forall_impl; [exact Hembed|]); intros chunk (v & Hv & Hlen);
      unfold vectors; by rewrite Hv. }
  destruct Hvectors as [Hanswers Hlengths].
  (* the updates, one after the other *)
  destruct (update_fields clock user_id task_id Crawling no_kwargs w created Hcreated)
    as (s1 & Hs1 & Hf1 & Ha1).
  set (w1 := exec clock (UpdateProgress user_id task_id Crawling no_kwargs) w) in *.
  destruct (update_fields clock user_id task_id Crawling
              (mkKwargs (Some (Z.of_nat (length pages))) None None None) w1 s1 Hs1)
    as (s2 & Hs2 & Hf2 & Ha2).
  set (w2 := exec clock _ w1) in *.
  destruct (update_fields clock user_id task_id Processing no_kwargs w2 s2 Hs2)
    as (s3 & Hs3 & Hf3 & Ha3).
  set (w3 := exec clock _ w2) in *.
  destruct (run_process_pages clock html_parser answers user_id task_id
              (batches_of pages 5) [] w3 s3 Hs3)
    as (w4 & s4 & Hrun4 & Hs4 & Hf4 & Ha4).
  rewrite concat_batches_of in Hrun4, Hf4 by lia. fold all_chunks in Hrun4, Hf4.
  destruct (update_fields clock user_id task_id GeneratingEmbeddings no_kwargs w4 s4 Hs4)
    as (s5 & Hs5 & Hf5 & Ha5).
  set (w5 := exec clock _ w4) in *.
  destruct (update_fields clock user_id task_id Storing no_kwargs w5 s5 Hs5)
    as (s6 & Hs6 & Hf6 & Ha6).
  set (w6 := exec clock _ w5) in *.
  destruct (update_fields clock user_id task_id Completed
              (mkKwargs None None None
                 (Some (mkSummary collection (Z.of_nat (length pages))
                          (Z.of_nat (length all_chunks))))) w6 s6 Hs6)
    as (s7 & Hs7 & Hf7 & Ha7).
  set (w7 := exec clock _ w6) in *.
  (* the run of the body of the [try] block *)
  assert (Hbody : exists handler,
    process_scraping html_parser url task_id collection user_id
    = try_finally
        (try_except_coro
           (do (UpdateProgress user_id task_id Crawling no_kwargs) ;;
            pages <- await (CrawlWebsite url) ;;
            if bool_decide (pages = []) then
              do (UpdateProgress user_id task_id Error
                    (mkKwargs None None
                       (Some "No pages could be scraped from the provided URL"%string)
                       None))
            else
              do (UpdateProgress user_id task_id Crawling
                    (mkKwargs (Some (Z.of_nat (length pages))) None None None)) ;;
              do (UpdateProgress user_id task_id Processing no_kwargs) ;;
              all_chunks <- process_pages html_parser user_id task_id
                              (batches_of pages 5) [] ;;
              if bool_decide (all_chunks = []) then
                do (UpdateProgress user_id task_id Error
                      (mkKwargs None None
                         (Some "No valid text content found to ingest from the website"%string)
                         None))
              else
                do (UpdateProgress user_id task_id GeneratingEmbeddings no_kwargs) ;;
                all_embeddings <- embed_chunks (batches_of all_chunks 50) [] ;;
                do (UpdateProgress user_id task_id Storing no_kwargs) ;;
                ingest_chunks collection all_chunks all_embeddings
                  (range_step (length all_chunks) 50) 50 ;;
                do (UpdateProgress user_id task_id Completed
                      (mkKwargs None None None
                         (Some (mkSummary collection (Z.of_nat (length pages))
                                  (Z.of_nat (length all_chunks)))))))
           handler)
        (do (DiscardActive user_id task_id))).
  { by eexists. }
  destruct Hbody as [handler Hbody].
  assert (Hrun : r = (Ok tt, discard_active user_id task_id w7,
                      (CrawlWebsite url
                       :: [] ++ map GetEmbeddings batches
                          ++ map (fun chunk => IngestToQdrant collection chunk
                                                 (vectors chunk)) batches ++ [])
                      ++ [])).
  { unfold r. rewrite Hbody.
    eapply run_try_finally; [|reflexivity].
    apply run_try_except_ok. rewrite run_do_bind. fold w1.
    eapply run_await_bind_ok; [exact Hcrawl|].
    rewrite bool_decide_eq_false_2 by done.
    rewrite !run_do_bind. fold w2 w3.
    eapply run_bind_ok; [exact Hrun4|].
    rewrite bool_decide_eq_false_2 by done.
    rewrite run_do_bind. fold w5.
    eapply run_bind_ok; [by apply (run_embed_chunks clock answers vectors)|].
    rewrite run_do_bind. fold w6.
    eapply run_bind_ok; [|reflexivity].
    unfold batches.
    rewrite <- (ingest_calls_aligned vectors collection all_chunks 50) by (lia || done).
    by apply run_ingest_chunks. }
  rewrite Hrun. cbn [fst snd]. rewrite !app_nil_r. cbn [app].
  split_and!; [done|done| |].
  - rewrite discard_active_active_set, decide_True by done.
    intros [_ Hin]%elem_of_difference. apply Hin. by apply elem_of_singleton.
  - exists s7. rewrite discard_active_lookup_task. clear Hrun Hbody r.
    destruct (batches_of pages 5) eqn:Hb.
    { by apply (batches_of_nonempty pages 5) in Hb; [|lia|]. }
    unfold fields in Hf1, Hf2, Hf3, Hf4, Hf5, Hf6, Hf7.
    cbn in Hf1, Hf2, Hf3, Hf4, Hf5, Hf6, Hf7.
    injection Hf1 as ? ? ? ? ? ? ? ?. injection Hf2 as ? ? ? ? ? ? ? ?.
    injection Hf3 as ? ? ? ? ? ? ? ?. injection Hf4 as ? ? ? ? ? ? ? ?.
    injection Hf5 as ? ? ? ? ? ? ? ?. injection Hf6 as ? ? ? ? ? ? ? ?.
    injection Hf7 as ? ? ? ? ? ? ? ?.
    split_and!; try done; try congruence.
    by rewrite orb_true_r in *.
Qed.

Lemma process_scraping_pipeline_witness :
  let clock := fun n : nat => Z.of_nat n in
  let html_parser :=
    fun html : string => Ok [Cleaner.Tag "p" [Cleaner.Text html]] in
  let answers := fun c : call =>
    match c return outcome (answer c) with
    | CrawlWebsite url => Ok [(url, "Hello world. This is the page."%string)]
    | GetEmbeddings chunk => Ok (map (fun _ => [1 # 2]%Q) chunk)
    | IngestToQdrant _ _ _ => Ok tt
    end in
  let w := (scrape_and_ingest clock (fun url _ _ => url) html_parser "http://a" "alice"
              empty_world).1.2 in
  let created := mkSnapshot Crawling 1 2 0 0 None false "http://a" None in
  let pages := [("http://a"%string, "Hello world. This is the page."%string)] in
  let all_chunks := fold_left (process_page html_parser) pages [] in
  let batches := batches_of all_chunks 50 in
  let vectors := fun chunk =>
    match answers (GetEmbeddings chunk) with Ok v => v | Raise _ => [] end in
  let r := run_to_end clock answers
             (process_scraping html_parser "http://a" "http://a" "alice" "alice") w in
  r.1.1 = Ok tt
  /\ r.2 = CrawlWebsite "http://a"
            :: (map GetEmbeddings batches
                ++ map (fun chunk => IngestToQdrant "alice" chunk (vectors chunk))
                     batches)
  /\ ("http://a"%string ∉ active_set "alice" (r.1.2))
  /\ exists final,
       lookup_task "alice" "http://a" (r.1.2) = Some final
       /\ status final = Completed
       /\ is_completed final = true
       /\ pages_scraped final = Z.of_nat (length pages)
       /\ chunks_created final = Z.of_nat (length all_chunks)
       /\ result final
          = Some (mkSummary "alice" (Z.of_nat (length pages))
                    (Z.of_nat (length all_chunks)))
       /\ error final = error created
       /\ Tasks.url final = Tasks.url created
       /\ start_time final = start_time created.
Proof.
  intros clock html_parser answers w created pages.
  apply (process_scraping_pipeline clock html_parser answers "http://a" "http://a"
           "alice" "alice" w created pages).
  - vm_compute. reflexivity.
  - reflexivity.
  - vm_compute. discriminate.
  - apply Forall_forall. intros chunk _. eexists. split; [reflexivity|].
    apply length_map.
  - reflexivity.
Defined.

(** X24.  The run of a task that fails early.  When the crawl raises,
    or returns no page, or returns pages that give no chunk, the task
    ends in [error] with the message of the case ([str(e)], or the text
    that tells that no page or no content was found), keeps what it had
    for a result, and leaves the active set; the crawl is the only call:
    the embedding service and the store are not called. *)
Theorem process_scraping_fails_early (clock : nat -> Z)
    (html_parser : string -> outcome (list Cleaner.node))
    (answers : forall c, outcome (answer c))
    (url task_id collection user_id : string) (w : world) (created : snapshot)
    (message : string) :
  lookup_task user_id task_id w = Some created ->
  (exists e, answers (CrawlWebsite url) = Raise e /\ message = str_exn e)
  \/ (answers (CrawlWebsite url) = Ok []
      /\ message = "No pages could be scraped from the provided URL"%string)
  \/ (exists pages,
        answers (CrawlWebsite url) = Ok pages
        /\ pages <> []
        /\ fold_left (process_page html_parser) pages [] = []
        /\ message = "No valid text content found to ingest from the website"%string) ->
  let r := run_to_end clock answers
             (process_scraping html_parser url task_id collection user_id) w in
  r.1.1 = Ok tt
  /\ r.2 = [CrawlWebsite url]
  /\ (task_id ∉ active_set user_id (r.1.2))
  /\ exists final,
       lookup_task user_id task_id (r.1.2) = Some final
       /\ status final = Error
       /\ is_completed final = true
       /\ error final = Some message
       /\ result final = result created.
Proof.
  intros Hcreated Hcase r.
  destruct (update_fields clock user_id task_id Crawling no_kwargs w created Hcreated)
    as (s1 & Hs1 & Hf1 & Ha1).
  set (w1 := exec clock (UpdateProgress user_id task_id Crawling no_kwargs) w) in *.
  assert (Hend : exists w2 final,
            r = (Ok tt, discard_active user_id task_id w2, [CrawlWebsite url])
            /\ lookup_task user_id task_id w2 = Some final
            /\ status final = Error /\ is_completed final = true
            /\ error final = Some message /\ result final = result created).
  { unfold fields in Hf1. cbn in Hf1. injection Hf1 as ? ? ? ? ? ? ? ?.
    destruct Hcase as [(e & Hcrawl & ->)|[[Hcrawl ->]|(pages & Hcrawl & Hpages & Hnone & ->)]].
    - destruct (update_fields clock user_id task_id Error
                  (mkKwargs None None (Some (str_exn e)) None) w1 s1 Hs1)
        as (s2 & Hs2 & Hf2 & Ha2).
      unfold fields in Hf2. cbn in Hf2. injection Hf2 as ? ? ? ? ? ? ? ?.
      eexists _, s2. split_and!; [|exact Hs2|try congruence..].
      + unfold r, process_scraping.
        eapply (run_try_finally clock answers _ _ w (Ok tt) _ [CrawlWebsite url] _ []);
          [|reflexivity].
        eapply (run_try_except_raise clock answers _ _ w e w1 [CrawlWebsite url] _ _ []);
          [|reflexivity].
        rewrite run_do_bind. by apply run_await_bind_raise.
      + by rewrite orb_true_r in *.
    - destruct (update_fields clock user_id task_id Error
                  (mkKwargs None None
                     (Some "No pages could be scraped from the provided URL"%string) None)
                  w1 s1 Hs1)
        as (s2 & Hs2 & Hf2 & Ha2).
      unfold fields in Hf2. cbn in Hf2. injection Hf2 as ? ? ? ? ? ? ? ?.
      eexists _, s2. split_and!; [|exact Hs2|try congruence..].
      + unfold r, process_scraping.
        eapply (run_try_finally clock answers _ _ w (Ok tt) _ [CrawlWebsite url] _ []);
          [|reflexivity].
        apply run_try_except_ok. rewrite run_do_bind.
        eapply run_await_bind_ok; [exact Hcrawl|].
        by rewrite bool_decide_eq_true_2 by done.
      + by rewrite orb_true_r in *.
    - destruct (update_fields clock user_id task_id Crawling
                  (mkKwargs (Some (Z.of_nat (length pages))) None None None) w1 s1 Hs1)
        as (s2 & Hs2 & Hf2 & Ha2).
      set (w2 := exec clock _ w1) in *.
      destruct (update_fields clock user_id task_id Processing no_kwargs w2 s2 Hs2)
        as (s3 & Hs3 & Hf3 & Ha3).
      set (w3 := exec clock _ w2) in *.
      destruct (run_process_pages clock html_parser answers user_id task_id
                  (batches_of pages 5) [] w3 s3 Hs3)
        as (w4 & s4 & Hrun4 & Hs4 & Hf4 & Ha4).
      rewrite concat_batches_of in Hrun4, Hf4 by lia. rewrite Hnone in Hrun4, Hf4.
      destruct (update_fields clock user_id task_id Error
                  (mkKwargs None None
                     (Some "No valid text content found to ingest from the website"%string)
                     None) w4 s4 Hs4)
        as (s5 & Hs5 & Hf5 & Ha5).
      unfold fields in Hf2, Hf3, Hf4, Hf5. cbn in Hf2, Hf3, Hf4, Hf5.
      injection Hf2 as ? ? ? ? ? ? ? ?. injection Hf3 as ? ? ? ? ? ? ? ?.
      injection Hf4 as ? ? ? ? ? ? ? ?. injection Hf5 as ? ? ? ? ? ? ? ?.
      eexists _, s5. split_and!; [|exact Hs5|try congruence..].
      + unfold r, process_scraping.
        eapply (run_try_finally clock answers _ _ w (Ok tt) _ [CrawlWebsite url] _ []);
          [|reflexivity].
        apply run_try_except_ok. rewrite run_do_bind.
        eapply run_await_bind_ok; [exact Hcrawl|].
        rewrite bool_decide_eq_false_2 by done.
        rewrite !run_do_bind. fold w1 w2 w3.
        eapply (run_bind_ok clock answers _ _ w3 _ w4 [] _ _ []); [exact Hrun4|].
        by rewrite bool_decide_eq_true_2 by done.
      + by rewrite orb_true_r in *. }
  destruct Hend as (w2 & final & Hrun & Hfinal & ? & ? & ? & ?).
  rewrite Hrun. cbn [fst snd]. split_and!; [done|done| |].
  - rewrite discard_active_active_set, decide_True by done.
    intros [_ Hin]%elem_of_difference. apply Hin. by apply elem_of_singleton.
  - exists final. rewrite discard_active_lookup_task. by split_and!.
Qed.

Lemma process_scraping_fails_early_witness :
  let clock := fun n : nat => Z.of_nat n in
  let html_parser := fun _ : string => Ok [] in
  let w := (scrape_and_ingest clock (fun url _ _ => url) html_parser "http://a" "alice"
              empty_world).1.2 in
  let created := mkSnapshot Crawling 1 2 0 0 None false "http://a" None in
  let r := run_to_end clock nothing_found
             (process_scraping html_parser "http://a" "http://a" "alice" "alice") w in
  r.1.1 = Ok tt
  /\ r.2 = [CrawlWebsite "http://a"]
  /\ ("http://a"%string ∉ active_set "alice" (r.1.2))
  /\ exists final,
       lookup_task "alice" "http://a" (r.1.2) = Some final
       /\ status final = Error
       /\ is_completed final = true
       /\ error final = Some "No pages could be scraped from the provided URL"%string
       /\ result final = result created.
Proof.
  intros clock html_parser w created.
  apply (process_scraping_fails_early clock html_parser nothing_found "http://a" "http://a"
           "alice" "alice" w created).
  - vm_compute. reflexivity.
  - right. left. split; reflexivity.
Defined.

(** The crawl raises an [HTTPException]: the stored message is its
    status code, a colon and its detail. *)
Example process_scraping_http_error :
  let clock := fun n : nat => Z.of_nat n in
  let html_parser := fun _ : string => Ok [] in
  let answers := fun c : call =>
    match c return outcome (answer c) with
    | CrawlWebsite _ => Raise (HTTPException 503 "busy")
    | GetEmbeddings _ => Ok []
    | IngestToQdrant _ _ _ => Ok tt
    end in
  let w := (scrape_and_ingest clock (fun url _ _ => url) html_parser "http://a" "alice"
              empty_world).1.2 in
  let r := run_to_end clock answers
             (process_scraping html_parser "http://a" "http://a" "alice" "alice") w in
  (fun final => (status final, error final)) <$> lookup_task "alice" "http://a" (r.1.2)
  = Some (Error, Some "503: busy"%string).
Proof. by vm_compute. Qed.

End Pipeline_claims.

Section Admission_claim.

Import Tasks.

(** X28.  What the admission test does keep.  In every state the
    service can reach, with unique task ids or not, a user has at most
    [MAX_CONCURRENT_TASKS = 3] tasks in the active set and at most as
    many that are not flagged completed; and a request that finds the
    active set at the cap is rejected with status 429, hands no task to
    the background and returns the globals as they were.  When the task
    ids are unique, the flag of every stored task agrees with its
    status, so that a user has at most 3 tasks whose status is not
    [completed] or [error]. *)
Theorem active_tasks_capped
    (clock : nat -> Z) (task_id_of : string -> Z -> string -> string)
    (html_parser : string -> outcome (list Cleaner.node))
    (unique_ids : bool) (sys : system) (user_id : string) :
  reachable clock task_id_of html_parser unique_ids sys ->
  Z.of_nat (size (non_terminal_tasks user_id (sys_world sys))) <= MAX_CONCURRENT_TASKS
  /\ Z.of_nat (size (active_set user_id (sys_world sys))) <= MAX_CONCURRENT_TASKS
  /\ (forall req_url,
        MAX_CONCURRENT_TASKS <= Z.of_nat (size (active_set user_id (sys_world sys))) ->
        scrape_and_ingest clock task_id_of html_parser req_url user_id (sys_world sys)
        = (Raise too_many_tasks, sys_world sys, None))
  /\ (unique_ids = true ->
        Z.of_nat (size (running_tasks user_id (sys_world sys))) <= MAX_CONCURRENT_TASKS
        /\ (forall task_id snap,
              lookup_task user_id task_id (sys_world sys) = Some snap ->
              flag_agrees snap)).
Proof.
  intros Hreach. pose proof (reachable_inv _ _ _ _ _ Hreach) as [Hworld _].
  assert (Hflagged : Z.of_nat (size (non_terminal_tasks user_id (sys_world sys)))
                     <= MAX_CONCURRENT_TASKS).
  { etrans; [|apply (proj1 Hworld user_id)].
    by apply inj_le, subseteq_size, non_terminal_active. }
  split_and!.
  - done.
  - apply Hworld.
  - intros req_url Hcap. by apply scrape_and_ingest_rejected.
  - intros ->. apply reachable_owned in Hreach. split.
    + by rewrite (owned_running_tasks sys user_id).
    + intros task_id snap. by apply owned_flag_agrees.
Qed.

(** Three requests of one user, with ids of their own, all admitted. *)
Lemma active_tasks_capped_witness :
  let clock := fun n : nat => Z.of_nat n in
  let task_id_of := fun (url : string) (_ : Z) (_ : string) => url in
  let html_parser := fun _ : string => Ok [] in
  let request := after_request clock task_id_of html_parser in
  let sys := request "http://c" "alice" (request "http://b" "alice"
               (request "http://a" "alice" initial_system)) in
  Z.of_nat (size (non_terminal_tasks "alice" (sys_world sys))) <= MAX_CONCURRENT_TASKS
  /\ Z.of_nat (size (active_set "alice" (sys_world sys))) <= MAX_CONCURRENT_TASKS
  /\ (forall req_url,
        MAX_CONCURRENT_TASKS <= Z.of_nat (size (active_set "alice" (sys_world sys))) ->
        scrape_and_ingest clock task_id_of html_parser req_url "alice" (sys_world sys)
        = (Raise too_many_tasks, sys_world sys, None))
  /\ (true = true ->
        Z.of_nat (size (running_tasks "alice" (sys_world sys))) <= MAX_CONCURRENT_TASKS
        /\ (forall task_id snap,
              lookup_task "alice" task_id (sys_world sys) = Some snap ->
              flag_agrees snap)).
Proof.
  intros clock task_id_of html_parser request sys.
  apply (active_tasks_capped clock task_id_of html_parser true sys "alice").
  apply (rtc_l _ _ (request "http://a" "alice" initial_system)).
  { apply step_request. intros _ task_id started H.
    vm_compute in H. injection H as <- <-. vm_compute. reflexivity. }
  apply (rtc_l _ _ (request "http://b" "alice"
                      (request "http://a" "alice" initial_system))).
  { apply step_request. intros _ task_id started H.
    vm_compute in H. injection H as <- <-. vm_compute. reflexivity. }
  apply (rtc_l _ _ sys).
  { apply step_request. intros _ task_id started H.
    vm_compute in H. injection H as <- <-. vm_compute. reflexivity. }
  apply rtc_refl.
Defined.

(** The scenario of the specification: with three tasks running, a
    fourth request is rejected and the active set stays at three. *)
Example fourth_request_rejected :
  let clock := fun n : nat => Z.of_nat n in
  let task_id_of := fun (url : string) (_ : Z) (_ : string) => url in
  let html_parser := fun _ : string => Ok [] in
  let request := after_request clock task_id_of html_parser in
  let sys := request "http://c" "alice" (request "http://b" "alice"
               (request "http://a" "alice" initial_system)) in
  size (active_set "alice" (sys_world sys)) = 3%nat
  /\ size (running_tasks "alice" (sys_world sys)) = 3%nat
  /\ (scrape_and_ingest clock task_id_of html_parser "http://d" "alice" (sys_world sys)).1.1
     = Raise too_many_tasks
  /\ size (active_set "alice" (sys_world (request "http://d" "alice" sys))) = 3%nat
  /\ length (background (request "http://d" "alice" sys)) = 3%nat.
Proof. by vm_compute. Qed.

(** Without unique ids the flag and the status can part.  A request
    gets the id of a task that waits for its crawl and starts a second
    coroutine on its snapshot; the first finds no pages, ends in
    [error] and leaves the active set; the second then writes
    [crawling] on the snapshot flagged completed. *)
Example colliding_ids :
  let clock := fun n : nat => Z.of_nat n in
  let task_id_of := fun (_ : string) (_ : Z) (_ : string) => "same"%string in
  let html_parser := fun _ : string => Ok [] in
  let request := after_request clock task_id_of html_parser in
  let sys := started clock 1
               (resumed clock nothing_found 0
                  (request "http://b" "alice"
                     (started clock 0 (request "http://a" "alice" initial_system)))) in
  reachable clock task_id_of html_parser false sys
  /\ task_view "alice" "same" (sys_world sys) = Some (Crawling, true)
  /\ active_set "alice" (sys_world sys) = ∅.
Proof.
  intros clock task_id_of html_parser request sys. split.
  - apply started_reachable, resumed_reachable, requested_reachable,
      started_reachable, requested_reachable, rtc_refl.
  - split; by vm_compute.
Qed.

End Admission_claim.

(** * Two requests with one task id *)

Section Shared_id.

Import Tasks.

(** C3.  The number of tasks of a user in a non-terminal state can
    exceed [MAX_CONCURRENT_TASKS = 3].  The task id is the digest of the
    URL, the reading of the clock and the user, and nothing checks that
    it is new.  Here the digest is the text it is made from, which parts
    any two of them, and the clock gives the same reading to two
    requests of one user for one URL: both get the same id, one slot of
    the active set and one snapshot, and each its own background task.
    The first task ends and gives the slot back while the second still
    runs; the second writes [crawling] on the snapshot; three more
    requests are admitted.  Then four tasks of the user have a status
    that is not terminal, four background tasks are running, and the
    active set holds three ids. *)
Theorem active_tasks_exceed_cap :
  let clock := fun n : nat => if (n <? 6)%nat then 100 else 100 + Z.of_nat n in
  let task_id_of := fun (url : string) (timestamp : Z) (user_id : string) =>
                      url +:+ "_" +:+ str_int timestamp +:+ "_" +:+ user_id in
  let html_parser := fun _ : string => Ok [] in
  let request := after_request clock task_id_of html_parser in
  let sys :=
    request "http://d" "alice"
      (request "http://c" "alice"
         (request "http://b" "alice"
            (started clock 1
               (resumed clock nothing_found 0
                  (started clock 0
                     (request "http://a" "alice"
                        (request "http://a" "alice" initial_system))))))) in
  reachable clock task_id_of html_parser false sys
  /\ size (running_tasks "alice" (sys_world sys)) = 4%nat
  /\ length (List.filter (fun p : coro unit =>
                            match p with Return _ => false | _ => true end)
               (background sys)) = 4%nat
  /\ size (active_set "alice" (sys_world sys)) = 3%nat
  /\ MAX_CONCURRENT_TASKS = 3.
Proof.
  intros clock task_id_of html_parser request sys. split.
  - do 3 apply requested_reachable.
    apply started_reachable, resumed_reachable, started_reachable.
    do 2 apply requested_reachable. apply rtc_refl.
  - split_and!; by vm_compute.
Qed.

(** C4.  The statuses written to the snapshot of a task can go back,
    and its flag can part from its status.  Two requests of one user
    for one URL get the same reading of the clock and so the same task
    id and the same snapshot.  The first background task finds no page
    and writes [error], which sets [is_completed]; the second then
    starts and writes [crawling] on the same snapshot: [crawling]
    follows [error], and the snapshot has the status [crawling] with
    [is_completed] true. *)
Theorem status_order_broken_by_shared_id :
  let clock := fun n : nat => if (n <? 6)%nat then 100 else 100 + Z.of_nat n in
  let task_id_of := fun (url : string) (timestamp : Z) (user_id : string) =>
                      url +:+ "_" +:+ str_int timestamp +:+ "_" +:+ user_id in
  let html_parser := fun _ : string => Ok [] in
  let request := after_request clock task_id_of html_parser in
  let task_id := "http://a_100_alice"%string in
  let requested := request "http://a" "alice" (request "http://a" "alice" initial_system) in
  let first_ended := resumed clock nothing_found 0 (started clock 0 requested) in
  let second_started := started clock 1 first_ended in
  reachable clock task_id_of html_parser false second_started
  /\ background requested
     = [process_scraping html_parser "http://a" task_id "alice" "alice";
        process_scraping html_parser "http://a" task_id "alice" "alice"]
  /\ task_view "alice" task_id (sys_world requested) = Some (Crawling, false)
  /\ task_view "alice" task_id (sys_world first_ended) = Some (Error, true)
  /\ task_view "alice" task_id (sys_world second_started) = Some (Crawling, true)
  /\ ~ status_follows Error Crawling
  /\ (forall snap,
        lookup_task "alice" task_id (sys_world second_started) = Some snap ->
        ~ flag_agrees snap).
Proof.
  intros clock task_id_of html_parser request task_id requested first_ended
    second_started.
  split_and!.
  - apply started_reachable, resumed_reachable, started_reachable.
    do 2 apply requested_reachable. apply rtc_refl.
  - by vm_compute.
  - by vm_compute.
  - by vm_compute.
  - by vm_compute.
  - by intros [Hterminal _].
  - intros snap Hsnap.
    assert (Hview : task_view "alice" task_id (sys_world second_started)
                    = Some (Crawling, true)) by by vm_compute.
    unfold task_view in Hview. rewrite Hsnap in Hview. simpl in Hview.
    injection Hview as Hstatus Hflag. unfold flag_agrees. by rewrite Hstatus, Hflag.
Qed.

End Shared_id.

(** * The upload endpoint *)

Section Upload_extension.

Import Upload.

Lemma split_char_nonempty sep cur s : split_char sep cur s <> [].
Proof.
  revert cur. induction s as [|c s IH]; intros cur; simpl; [done|].
  destruct (Ascii.eqb c sep); [done|apply IH].
Qed.

Lemma last_cons_nonempty {A} (x d : A) l : l <> [] -> List.last (x :: l) d = List.last l d.
Proof. by destruct l. Qed.

(** The last piece of [s.split('.')]: all of [s] when it has no dot,
    what follows its last dot otherwise. *)
Lemma split_char_last cur s :
  (("."%char ∉ list_ascii_of_string s)
   /\ List.last (split_char "." cur s) EmptyString = String.rev cur +:+ s)
  \/ (exists stem ext,
        s = stem +:+ "." +:+ ext
        /\ ("."%char ∉ list_ascii_of_string ext)
        /\ List.last (split_char "." cur s) EmptyString = ext).
Proof.
  revert cur. induction s as [|c s IH]; intros cur.
  - left. simpl. split; [apply not_elem_of_nil|]. by rewrite append_nil_r.
  - simpl. destruct (Ascii.eqb_spec c "."%char) as [->|Hc].
    + right. rewrite last_cons_nonempty by apply split_char_nonempty.
      destruct (IH EmptyString) as [[Hno Hlast]|(stem & ext & -> & Hno & Hlast)].
      * by exists EmptyString, s.
      * by exists (String "." stem), ext.
    + destruct (IH (String c cur)) as [[Hno Hlast]|(stem & ext & -> & Hno & Hlast)].
      * left. split.
        -- intros [?|?]%elem_of_cons; [by subst|done].
        -- by rewrite Hlast, rev_cons, append_assoc.
      * right. by exists (String c stem), ext.
Qed.

Lemma bind_ok {A B} (a : A) log (f : A -> logged B) :
  bind (Ok a, log) f = ((f a).1, log ++ (f a).2).
Proof. done. Qed.

Lemma bind_raise {A B} e log (f : A -> logged B) : bind (Raise e, log) f = (Raise e, log).
Proof. done. Qed.

End Upload_extension.

Section Upload_stages.

Import Upload.

Variable file_read : outcome string.
Variables process_pdf process_svg process_text_file : string -> outcome string.
Variable get_embeddings : list string -> outcome (list Tasks.embedding).
Variable ingest_to_qdrant : string -> list string -> list Tasks.embedding -> outcome unit.

Local Abbreviation read_file := (read_file file_read).
Local Abbreviation process_file := (process_file process_pdf process_svg process_text_file).
Local Abbreviation process_answer :=
  (process_answer process_pdf process_svg process_text_file).
Local Abbreviation generate_embeddings := (generate_embeddings get_embeddings).
Local Abbreviation store := (store ingest_to_qdrant).

Lemma read_file_cases :
  (exists file_content,
     file_read = Ok file_content /\ file_content <> EmptyString
     /\ read_file = (Ok file_content, [FileRead]))
  \/ (exists detail, read_file = (Raise (HTTPException 400 detail), [FileRead])).
Proof.
  unfold Upload.read_file, try_except, bind, called, raise, ret.
  destruct file_read as [[|c file_content]|e]; simpl.
  - right. by eexists.
  - left. by eexists.
  - right. by eexists.
Qed.

Lemma process_file_cases file_extension file_content :
  (exists text_content,
     process_answer file_extension file_content = Ok text_content
     /\ process_file file_extension file_content
        = (Ok text_content, [process_call file_extension file_content]))
  \/ (exists detail,
        process_file file_extension file_content
        = (Raise (HTTPException 400 detail), [process_call file_extension file_content])).
Proof.
  unfold Upload.process_file, Upload.process_answer, process_call, try_except, called, raise.
  repeat case_bool_decide; simpl;
    match goal with
    | |- context [?f file_content] => destruct (f file_content) as [text_content|e]
    end; simpl; first [by left; eexists|by right; eexists].
Qed.

(** The chunks of a text that is not blank pass the validation as they
    are, and there is at least one: this [try] block raises nothing. *)
Lemma make_chunks_ok text_content :
  all_space text_content = false ->
  make_chunks text_content = (Ok (Chunker.create_chunks text_content 1000 200), [])
  /\ Chunker.create_chunks text_content 1000 200 <> [].
Proof.
  intros Htext.
  assert (Hne : Chunker.create_chunks text_content 1000 200 <> []).
  { intros H. apply create_chunks_nil_iff in H. congruence. }
  split; [|done]. unfold make_chunks. cbv zeta. rewrite create_chunks_filter.
  rewrite (bool_decide_eq_false_2 (length _ <> length _)) by (intros H; by apply H).
  by rewrite bool_decide_eq_false_2.
Qed.

Lemma generate_embeddings_cases chunks :
  (exists embeddings,
     get_embeddings chunks = Ok embeddings
     /\ length embeddings = length chunks /\ embeddings <> []
     /\ generate_embeddings chunks = (Ok embeddings, [GetEmbeddings chunks]))
  \/ (exists detail,
        generate_embeddings chunks
        = (Raise (HTTPException 500 detail), [GetEmbeddings chunks])).
Proof.
  unfold Upload.generate_embeddings, try_except, bind, called, raise, ret.
  destruct (get_embeddings chunks) as [embeddings|e]; simpl; [|right; by eexists].
  case_bool_decide as Hnil; simpl; [right; by eexists|].
  case_bool_decide as Hlen; simpl; [right; by eexists|].
  left. exists embeddings.
  assert (length embeddings = length chunks)
    by (destruct (decide (length embeddings = length chunks)); [done|by destruct Hlen]).
  by split_and!.
Qed.

Lemma store_cases collection_name chunks embeddings :
  (ingest_to_qdrant collection_name chunks embeddings = Ok tt
   /\ store collection_name chunks embeddings
      = (Ok tt, [IngestToQdrant collection_name chunks embeddings]))
  \/ (exists detail,
        store collection_name chunks embeddings
        = (Raise (HTTPException 500 detail),
           [IngestToQdrant collection_name chunks embeddings])).
Proof.
  unfold Upload.store, try_except, called, raise.
  destruct (ingest_to_qdrant collection_name chunks embeddings) as [[]|e]; simpl.
  - by left.
  - right. by eexists.
Qed.

End Upload_stages.

Section Upload_claims.

Import Upload.

Variable file_read : outcome string.
Variables process_pdf process_svg process_text_file : string -> outcome string.
Variable get_embeddings : list string -> outcome (list Tasks.embedding).
Variable ingest_to_qdrant : string -> list string -> list Tasks.embedding -> outcome unit.

Local Abbreviation upload_and_process :=
  (upload_and_process file_read process_pdf process_svg process_text_file
     get_embeddings ingest_to_qdrant).
Local Abbreviation process_answer :=
  (process_answer process_pdf process_svg process_text_file).

(** X25.  The file type is what follows the last dot of the file name,
    in lower case, and the whole name when it has no dot: a file named
    [pdf] is taken for a PDF, [REPORT.PDF] too, [report.pdf.exe] is not.
    A file whose type is not one of the five allowed is refused with
    status 400 before it is read.  *)
Theorem upload_file_type (filename : string) (current_user : gmap string string) :
  exists stem ext,
    ("."%char ∉ list_ascii_of_string ext)
    /\ (filename = ext \/ filename = stem +:+ "." +:+ ext)
    /\ file_extension_of filename = Crawler.lower ext
    /\ (Crawler.lower ext ∉ ["pdf"; "svg"; "txt"; "doc"; "docx"]%string ->
        forall collection, current_user !! "id"%string = Some collection ->
        upload_and_process filename current_user
        = (Raise (HTTPException 400
                    "File type not allowed. Allowed types: pdf, svg, txt, doc, docx"),
           [])).
Proof.
  assert (Hreject :
            file_extension_of filename ∉ ["pdf"; "svg"; "txt"; "doc"; "docx"]%string ->
            forall collection, current_user !! "id"%string = Some collection ->
            upload_and_process filename current_user
            = (Raise (HTTPException 400
                        "File type not allowed. Allowed types: pdf, svg, txt, doc, docx"),
               [])).
  { intros Hnot collection Hid.
    unfold Upload.upload_and_process, getitem. rewrite Hid.
    unfold try_except, bind, ret. cbn [fst snd].
    change allowed_keys with ["pdf"; "svg"; "txt"; "doc"; "docx"]%string.
    by rewrite bool_decide_eq_false_2. }
  destruct (split_char_last EmptyString filename)
    as [[Hno Hlast]|(stem & ext & Hname & Hno & Hlast)].
  - assert (Hext : file_extension_of filename = Crawler.lower filename).
    { unfold file_extension_of. rewrite Hlast. cbn [String.rev]. by rewrite append_nil_l. }
    exists EmptyString, filename. split_and!; [done|by left|done|].
    rewrite <- Hext. apply Hreject.
  - assert (Hext : file_extension_of filename = Crawler.lower ext).
    { unfold file_extension_of. by rewrite Hlast. }
    exists stem, ext. split_and!; [done|by right|done|].
    rewrite <- Hext. apply Hreject.
Qed.

Example upload_file_type_examples :
  file_extension_of "pdf" = "pdf"%string
  /\ file_extension_of "REPORT.PDF" = "pdf"%string
  /\ file_extension_of "report.pdf.exe" = "exe"%string
  /\ file_extension_of "notes." = EmptyString.
Proof. by vm_compute. Qed.

(** X26.  An upload answers with the response or with an HTTP error of
    status 400 or 500, nothing else.  It answers with the response only
    when every stage went through: the file was read and is not empty,
    its text was extracted and is not blank, the embedding service gave
    one vector for each chunk of [create_chunks(text, 1000, 200)], and
    the store took them; these four calls are then all the calls made, and
    [chunks_created] is the number of chunks.  With status 400 nothing
    reached the embedding service or the store; with status 500 the
    user has no id or the embedding service was called. *)
Theorem upload_and_process_outcomes (filename : string)
    (current_user : gmap string string) :
  match (upload_and_process filename current_user).1 with
  | Ok resp =>
      exists collection file_content text_content embeddings,
        current_user !! "id"%string = Some collection
        /\ file_extension_of filename ∈ allowed_keys
        /\ file_read = Ok file_content /\ file_content <> EmptyString
        /\ process_answer (file_extension_of filename) file_content = Ok text_content
        /\ all_space text_content = false
        /\ Chunker.create_chunks text_content 1000 200 <> []
        /\ get_embeddings (Chunker.create_chunks text_content 1000 200) = Ok embeddings
        /\ length embeddings = length (Chunker.create_chunks text_content 1000 200)
        /\ ingest_to_qdrant collection (Chunker.create_chunks text_content 1000 200)
             embeddings = Ok tt
        /\ (upload_and_process filename current_user).2
           = [FileRead;
              process_call (file_extension_of filename) file_content;
              GetEmbeddings (Chunker.create_chunks text_content 1000 200);
              IngestToQdrant collection (Chunker.create_chunks text_content 1000 200)
                embeddings]
        /\ resp = mkResponse "success" "File processed and stored successfully"
                    collection
                    (Z.of_nat (length (Chunker.create_chunks text_content 1000 200)))
                    filename
  | Raise (HTTPException status_code _) =>
      (status_code = 400
       /\ Forall (fun c => is_outward c = false)
            (upload_and_process filename current_user).2)
      \/ (status_code = 500
          /\ ((current_user !! "id"%string = None
               /\ (upload_and_process filename current_user).2 = [])
              \/ exists chunks,
                   GetEmbeddings chunks ∈ (upload_and_process filename current_user).2))
  | Raise (Exception _) => False
  end.
Proof.
  assert (Hcall : forall ext content, is_outward (process_call ext content) = false).
  { intros ext content. unfold process_call. by repeat case_bool_decide. }
  destruct (upload_and_process filename current_user) as [o log] eqn:Hrun.
  cbn [fst snd]. revert Hrun. unfold Upload.upload_and_process, getitem.
  destruct (current_user !! "id"%string) as [collection|] eqn:Hid.
  2:{ unfold raise. rewrite !bind_raise. unfold try_except. simpl. intros [= <- <-].
      right. split; [done|]. by left. }
  unfold ret at 1. rewrite !bind_ok.
  case_bool_decide as Hext; cbn [negb].
  2:{ unfold try_except, raise. simpl. intros [= <- <-].
      left. split; [done|]. by apply Forall_nil. }
  destruct (read_file_cases file_read) as [(file_content & Hread & Hne & ->)|[detail ->]].
  2:{ rewrite !bind_raise. unfold try_except, raise. simpl. intros [= <- <-].
      left. split; [done|]. by repeat constructor. }
  rewrite !bind_ok.
  destruct (process_file_cases process_pdf process_svg process_text_file
              (file_extension_of filename) file_content)
    as [(text_content & Hanswer & ->)|[detail ->]].
  2:{ rewrite !bind_raise. unfold try_except, raise. simpl. intros [= <- <-].
      left. split; [done|]. repeat constructor. apply Hcall. }
  rewrite !bind_ok, truthy_strip, negb_involutive.
  destruct (all_space text_content) eqn:Htext.
  { unfold try_except, raise. simpl. intros [= <- <-].
    left. split; [done|]. repeat constructor. apply Hcall. }
  destruct (make_chunks_ok text_content Htext) as [-> Hchunks].
  cbn [negb]. rewrite !bind_ok.
  destruct (generate_embeddings_cases get_embeddings
              (Chunker.create_chunks text_content 1000 200))
    as [(embeddings & Hembed & Hlen & _ & ->)|[detail ->]].
  2:{ rewrite !bind_raise. unfold try_except, raise. cbn [fst snd app].
      intros [= <- <-]. right. split; [done|].
      right. eexists. apply elem_of_cons. right. apply elem_of_cons. right.
      apply elem_of_cons. by left. }
  rewrite !bind_ok.
  destruct (store_cases ingest_to_qdrant collection
              (Chunker.create_chunks text_content 1000 200) embeddings)
    as [[Hstore ->]|[detail ->]].
  2:{ rewrite !bind_raise. unfold try_except, raise. cbn [fst snd app].
      intros [= <- <-]. right. split; [done|].
      right. eexists. apply elem_of_cons. right. apply elem_of_cons. right.
      apply elem_of_cons. by left. }
  rewrite !bind_ok. unfold try_except, ret. cbn [fst snd app]. intros [= <- <-].
  exists collection, file_content, text_content, embeddings. by split_and!.
Qed.

(** X27.  The validation of the chunks never takes one out and never
    fails: when the text of the file could be extracted and is not
    blank, the embedding service is called with the chunks of
    [create_chunks(text, 1000, 200)] as they are, at least one, and the
    upload answers with the response or with status 500. *)
Theorem upload_chunks_valid (filename : string) (current_user : gmap string string)
    (collection file_content text_content : string) :
  current_user !! "id"%string = Some collection ->
  file_extension_of filename ∈ allowed_keys ->
  file_read = Ok file_content ->
  file_content <> EmptyString ->
  process_answer (file_extension_of filename) file_content = Ok text_content ->
  all_space text_content = false ->
  Chunker.create_chunks text_content 1000 200 <> []
  /\ (exists rest,
        (upload_and_process filename current_user).2
        = FileRead :: process_call (file_extension_of filename) file_content
          :: GetEmbeddings (Chunker.create_chunks text_content 1000 200) :: rest)
  /\ match (upload_and_process filename current_user).1 with
     | Ok resp =>
         chunks_created resp
         = Z.of_nat (length (Chunker.create_chunks text_content 1000 200))
     | Raise e => exists detail, e = HTTPException 500 detail
     end.
Proof.
  intros Hid Hext Hread Hne Hanswer Htext.
  destruct (make_chunks_ok text_content Htext) as [Hmake Hchunks].
  split; [done|].
  destruct (upload_and_process filename current_user) as [o log] eqn:Hrun.
  cbn [fst snd]. revert Hrun. unfold Upload.upload_and_process, getitem. rewrite Hid.
  unfold ret at 1. rewrite !bind_ok.
  rewrite bool_decide_eq_true_2 by done. cbn [negb].
  destruct (read_file_cases file_read) as [(content & Hread' & _ & ->)|[detail Hfail]].
  2:{ exfalso. revert Hfail. unfold Upload.read_file, try_except, bind, called, ret.
      rewrite Hread. destruct file_content; [done|]. simpl. done. }
  assert (content = file_content) as -> by congruence.
  rewrite !bind_ok.
  destruct (process_file_cases process_pdf process_svg process_text_file
              (file_extension_of filename) file_content)
    as [(text & Hanswer' & ->)|[detail Hfail]].
  2:{ exfalso. revert Hfail.
      unfold Upload.process_file, Upload.process_answer, try_except, called in *.
      repeat case_bool_decide; rewrite Hanswer; simpl; done. }
  assert (text = text_content) as -> by congruence.
  rewrite !bind_ok, truthy_strip, negb_involutive, Htext, Hmake. cbn [negb].
  rewrite !bind_ok.
  destruct (generate_embeddings_cases get_embeddings
              (Chunker.create_chunks text_content 1000 200))
    as [(embeddings & Hembed & Hlen & _ & ->)|[detail ->]].
  2:{ rewrite !bind_raise. unfold try_except, raise. cbn [fst snd app].
      intros [= <- <-]. split; by eexists. }
  rewrite !bind_ok.
  destruct (store_cases ingest_to_qdrant collection
              (Chunker.create_chunks text_content 1000 200) embeddings)
    as [[Hstore ->]|[detail ->]].
  2:{ rewrite !bind_raise. unfold try_except, raise. cbn [fst snd app].
      intros [= <- <-]. split; by eexists. }
  rewrite !bind_ok. unfold try_except, ret. cbn [fst snd app]. intros [= <- <-].
  split; [by eexists|done].
Qed.

End Upload_claims.

Section Upload_witness.

Import Upload.

Lemma upload_chunks_valid_witness :
  let file_read := Ok "Hi there.  How are you?"%string in
  let process := fun file_content : string => @Ok string file_content in
  let get_embeddings := fun _ : list string => @Raise (list Tasks.embedding)
                                                 (Exception "service down") in
  let ingest_to_qdrant := fun (_ : string) (_ : list string)
                              (_ : list Tasks.embedding) => Ok tt in
  let current_user := {[ "id"%string := "alice"%string ]} : gmap string string in
  Chunker.create_chunks "Hi there.  How are you?" 1000 200 <> []
  /\ (exists rest,
        (upload_and_process file_read process process process get_embeddings
           ingest_to_qdrant "notes.TXT" current_user).2
        = FileRead
          :: process_call (file_extension_of "notes.TXT") "Hi there.  How are you?"
          :: GetEmbeddings (Chunker.create_chunks "Hi there.  How are you?" 1000 200)
          :: rest)
  /\ match (upload_and_process file_read process process process get_embeddings
              ingest_to_qdrant "notes.TXT" current_user).1 with
     | Ok resp =>
         chunks_created resp
         = Z.of_nat (length (Chunker.create_chunks "Hi there.  How are you?" 1000 200))
     | Raise e => exists detail, e = HTTPException 500 detail
     end.
Proof.
  intros file_read process get_embeddings ingest_to_qdrant current_user.
  apply (upload_chunks_valid file_read process process process get_embeddings
           ingest_to_qdrant "notes.TXT" current_user "alice"
           "Hi there.  How are you?" "Hi there.  How are you?").
  - by vm_compute.
  - vm_compute. right. right. by left.
  - reflexivity.
  - done.
  - by vm_compute.
  - by vm_compute.
Defined.

(** A text file of two sentences is stored as one chunk. *)
Example upload_and_process_success :
  let embed := fun chunks : list string => Ok (map (fun _ => [1 # 2]%Q) chunks) in
  upload_and_process (Ok "Hi there.  How are you?"%string) Ok Ok Ok embed
    (fun _ _ _ => Ok tt) "notes.txt" {[ "id"%string := "alice"%string ]}
  = (Ok (mkResponse "success" "File processed and stored successfully" "alice" 1
           "notes.txt"),
     [FileRead; ProcessTextFile "Hi there.  How are you?";
      GetEmbeddings ["Hi there. How are you?"%string];
      IngestToQdrant "alice" ["Hi there. How are you?"%string] [[1 # 2]%Q]]).
Proof. by vm_compute. Qed.

End Upload_witness.
